(** * Pokemon MCP server: battle engine and type effectiveness

    A shallow embedding of [server.py]: the static effectiveness chart,
    the three tools that use it, and the battle loop of [simulate_battle].

    Python's [float] is IEEE 754 binary64.  Every arithmetic operation of
    the source is modelled as the exact rational result rounded to the
    nearest binary64 value, ties to even, with overflow to infinity; the
    sign of zero is not kept, since no expression of the source can
    observe it. *)

From Stdlib Require Import ZArith QArith Qround Qpower Lqa Lia Bool List.
From Stdlib Require Import String Ascii DecimalString SpecFloat Permutation.
Import ListNotations.

Local Open Scope Z_scope.

(* ================================================================== *)
(** ** Binary64 arithmetic *)
(* ================================================================== *)

Module Float.

Local Open Scope Q_scope.

(** [pow2 k] is 2^k for any integer exponent. *)
Definition pow2 (k : Z) : Q := Qpower 2 k.

(** floor(log2 q) of a positive rational: the difference of the bit
    lengths of numerator and denominator is right or one too large. *)
Definition ilog2 (q : Q) : Z :=
  let k0 := (Z.log2 (Qnum q) - Z.log2 (Zpos (Qden q)))%Z in
  if Qle_bool (pow2 k0) q then k0 else (k0 - 1)%Z.

(** Round to the nearest integer, ties to the even one. *)
Definition rne (x : Q) : Z :=
  let f := Qfloor x in
  match Qcompare (x - inject_Z f) (1 # 2) with
  | Lt => f
  | Gt => (f + 1)%Z
  | Eq => if Z.even f then f else (f + 1)%Z
  end.

(** The exponent of the unit in the last place: 53 significant bits,
    and never below the subnormal exponent -1074. *)
Definition ulp_exp (q : Q) : Z := Z.max (ilog2 q - 52) (-1074).

(** Nearest binary64 value of a positive rational, exponent unbounded
    above. *)
Definition round_pos (q : Q) : Q :=
  let e := ulp_exp q in
  Qred (inject_Z (rne (q * pow2 (- e))) * pow2 e).

Inductive float : Type :=
| Ffin (q : Q)        (* a finite value, in lowest terms *)
| Finf (neg : bool)   (* +inf (false) and -inf (true) *)
| Fnan.

(** Correct rounding of an exact result, overflowing at 2^1024. *)
Definition fround (q : Q) : float :=
  match Qnum q with
  | Z0 => Ffin 0
  | Zpos _ =>
      let r := round_pos q in
      if Qle_bool (pow2 1024) r then Finf false else Ffin r
  | Zneg _ =>
      let r := round_pos (- q) in
      if Qle_bool (pow2 1024) r then Finf true else Ffin (Qred (- r))
  end.

Definition is_zero (q : Q) : bool := Qeq_bool q 0.
Definition is_neg (q : Q) : bool := negb (Qle_bool 0 q).

(** [x * y] on floats. *)
Definition fmul (x y : float) : float :=
  match x, y with
  | Fnan, _ | _, Fnan => Fnan
  | Ffin a, Ffin b => fround (a * b)
  | Ffin a, Finf s | Finf s, Ffin a =>
      if is_zero a then Fnan else Finf (xorb s (is_neg a))
  | Finf s, Finf t => Finf (xorb s t)
  end.

(** [x + y] on floats. *)
Definition fadd (x y : float) : float :=
  match x, y with
  | Fnan, _ | _, Fnan => Fnan
  | Ffin a, Ffin b => fround (a + b)
  | Ffin _, Finf s | Finf s, Ffin _ => Finf s
  | Finf s, Finf t => if Bool.eqb s t then Finf s else Fnan
  end.

(** [x / y] on floats; [None] is Python's ZeroDivisionError. *)
Definition fdiv (x y : float) : option float :=
  match x, y with
  | _, Ffin b =>
      if is_zero b then None
      else Some match x with
                | Ffin a => fround (a / b)
                | Finf s => Finf (xorb s (is_neg b))
                | Fnan => Fnan
                end
  | Fnan, _ | _, Fnan => Some Fnan
  | Ffin _, Finf _ => Some (Ffin 0)
  | Finf _, Finf _ => Some Fnan
  end.

(** Comparisons; every comparison with NaN is false. *)
Definition flt (x y : float) : bool :=
  match x, y with
  | Fnan, _ | _, Fnan => false
  | Ffin a, Ffin b => negb (Qle_bool b a)
  | Ffin _, Finf s => negb s
  | Finf s, Ffin _ => s
  | Finf s, Finf t => s && negb t
  end.

Definition feq (x y : float) : bool :=
  match x, y with
  | Ffin a, Ffin b => Qeq_bool a b
  | Finf s, Finf t => Bool.eqb s t
  | _, _ => false
  end.

Definition fle (x y : float) : bool := flt x y || feq x y.
Definition fgt (x y : float) : bool := flt y x.
Definition fge (x y : float) : bool := fle y x.

(** Truncation toward zero and floor of a rational. *)
Definition Qtrunc (q : Q) : Z :=
  if Qle_bool 0 q then Qfloor q else Qceiling q.

End Float.

(* ================================================================== *)
(** ** Python values: exceptions, numbers, strings, dicts *)
(* ================================================================== *)

Module Py.

Import Float.

(** The exceptions the modelled code can raise. *)
Inductive exn : Type :=
| ZeroDivisionError
| OverflowError
| ValueError
| IndexError
| KeyError.

(** A computation returns, raises, or is cut off by the fuel that bounds
    the [while] loops of the source. *)
Inductive py (A : Type) : Type :=
| Ret (a : A)
| Raise (e : exn)
| Fuel.

Arguments Ret {A} a.
Arguments Raise {A} e.
Arguments Fuel {A}.

Definition bind {A B : Type} (m : py A) (k : A -> py B) : py B :=
  match m with
  | Ret a => k a
  | Raise e => Raise e
  | Fuel => Fuel
  end.

Notation "x <- m ;; k" := (bind m (fun x => k))
  (at level 61, m at next level, right associativity).
Notation "' p <- m ;; k" := (bind m (fun p => k))
  (at level 61, p pattern, m at next level, right associativity).

(** [float(z)], as done implicitly when an int meets a float. *)
Definition of_int (z : Z) : py float :=
  match fround (inject_Z z) with
  | Finf _ => Raise OverflowError
  | f => Ret f
  end.

(** [a / b] on two ints: the correctly rounded quotient. *)
Definition int_truediv (a b : Z) : py float :=
  if (b =? 0)%Z then Raise ZeroDivisionError
  else match fround (inject_Z a / inject_Z b)%Q with
       | Finf _ => Raise OverflowError
       | f => Ret f
       end.

Definition fadd_int (x : float) (z : Z) : py float :=
  y <- of_int z ;; Ret (fadd x y).

Definition fmul_int (x : float) (z : Z) : py float :=
  y <- of_int z ;; Ret (fmul x y).

Definition fdiv_int (x : float) (z : Z) : py float :=
  y <- of_int z ;;
  match fdiv x y with
  | Some r => Ret r
  | None => Raise ZeroDivisionError
  end.

(** [int(x)]: truncation toward zero. *)
Definition int_of_float (x : float) : py Z :=
  match x with
  | Ffin q => Ret (Qtrunc q)
  | Finf _ => Raise OverflowError
  | Fnan => Raise ValueError
  end.

(** *** Strings

    A string is the sequence of its UTF-8 bytes.  [lower], [capitalize]
    and [title] map the ASCII letters and leave every other byte as it
    is: they are Python's [str.lower], [str.capitalize] and [str.title]
    on strings of ASCII characters, which the names of creatures, moves
    and types of the provider are; Python's case mapping of other
    characters is not modelled, and a property that depends on the
    mapping is stated of ASCII strings only. *)

Definition is_upper (c : ascii) : bool :=
  (65 <=? nat_of_ascii c)%nat && (nat_of_ascii c <=? 90)%nat.
Definition is_lower (c : ascii) : bool :=
  (97 <=? nat_of_ascii c)%nat && (nat_of_ascii c <=? 122)%nat.
Definition to_lower (c : ascii) : ascii :=
  if is_upper c then ascii_of_nat (nat_of_ascii c + 32) else c.
Definition to_upper (c : ascii) : ascii :=
  if is_lower c then ascii_of_nat (nat_of_ascii c - 32) else c.

Fixpoint lower (s : string) : string :=
  match s with
  | EmptyString => EmptyString
  | String c r => String (to_lower c) (lower r)
  end.

Definition capitalize (s : string) : string :=
  match s with
  | EmptyString => EmptyString
  | String c r => String (to_upper c) (lower r)
  end.

Fixpoint replace_char (a b : ascii) (s : string) : string :=
  match s with
  | EmptyString => EmptyString
  | String c r => String (if Ascii.eqb c a then b else c) (replace_char a b r)
  end.

(** [str.title]: a letter is upper-cased after a non-letter and
    lower-cased after a letter. *)
Fixpoint title_from (in_word : bool) (s : string) : string :=
  match s with
  | EmptyString => EmptyString
  | String c r =>
      let letter := is_upper c || is_lower c in
      String (if in_word then to_lower c else to_upper c) (title_from letter r)
  end.

Definition title (s : string) : string := title_from false s.

Definition str_of_int (z : Z) : string := NilZero.string_of_int (Z.to_int z).

Definition newline : string := String (ascii_of_nat 10) EmptyString.

(** *** Dicts with string keys, in insertion order *)

Definition dict (V : Type) : Type := list (string * V).

Fixpoint lookup {V : Type} (d : dict V) (k : string) : option V :=
  match d with
  | [] => None
  | (k', v) :: r => if String.eqb k k' then Some v else lookup r k
  end.

(** [d.get(k, default)] *)
Definition get {V : Type} (d : dict V) (k : string) (default : V) : V :=
  match lookup d k with
  | Some v => v
  | None => default
  end.

Definition keys {V : Type} (d : dict V) : list string := map fst d.

End Py.

(* ================================================================== *)
(** ** The effectiveness chart and the two type tools *)
(* ================================================================== *)

Module Chart.

Import Float Py.
Local Open Scope string_scope.

(** The chart's entries are the ints 0, 1 and 2 and the float 0.5; each
    is kept as its numeric value, which is a binary64 value. *)
Definition half : Q := 1 # 2.

(** Key: attacking type; value: dict of defending type to multiplier. *)
Definition TYPE_EFFECTIVENESS : dict (dict Q) :=
  [ ("normal", [("rock", half); ("ghost", 0%Q)]);
    ("fire", [("fire", half); ("water", half); ("grass", 2%Q); ("ice", 2%Q);
              ("bug", 2%Q); ("rock", half); ("steel", 2%Q)]);
    ("water", [("fire", 2%Q); ("water", half); ("grass", half);
               ("ground", 2%Q); ("rock", 2%Q); ("dragon", half)]);
    ("electric", [("water", 2%Q); ("electric", half); ("grass", half);
                  ("ground", 0%Q); ("flying", 2%Q); ("dragon", half)]);
    ("grass", [("fire", half); ("water", 2%Q); ("grass", half);
               ("poison", half); ("ground", 2%Q); ("flying", half);
               ("bug", half); ("rock", 2%Q); ("dragon", half);
               ("steel", half)]);
    ("ice", [("fire", half); ("water", half); ("grass", 2%Q); ("ice", half);
             ("ground", 2%Q); ("flying", 2%Q); ("dragon", 2%Q);
             ("steel", half)]);
    ("fighting", [("normal", 2%Q); ("ice", 2%Q); ("poison", half);
                  ("flying", half); ("psychic", half); ("bug", half);
                  ("rock", 2%Q); ("ghost", 0%Q); ("dark", 2%Q);
                  ("steel", 2%Q)]);
    ("poison", [("grass", 2%Q); ("poison", half); ("ground", half);
                ("rock", half); ("ghost", half); ("steel", 0%Q)]);
    ("ground", [("fire", 2%Q); ("electric", 2%Q); ("grass", half);
                ("poison", 2%Q); ("flying", 0%Q); ("bug", half);
                ("rock", 2%Q); ("steel", 2%Q)]);
    ("flying", [("electric", half); ("grass", 2%Q); ("fighting", 2%Q);
                ("bug", 2%Q); ("rock", half); ("steel", half)]);
    ("psychic", [("fighting", 2%Q); ("poison", 2%Q); ("psychic", half);
                 ("dark", 0%Q); ("steel", half)]);
    ("bug", [("fire", half); ("grass", 2%Q); ("fighting", half);
             ("poison", half); ("flying", half); ("psychic", 2%Q);
             ("ghost", half); ("dark", 2%Q); ("steel", half)]);
    ("rock", [("fire", 2%Q); ("ice", 2%Q); ("fighting", half);
              ("ground", half); ("flying", 2%Q); ("bug", 2%Q);
              ("steel", half)]);
    ("ghost", [("normal", 0%Q); ("psychic", 2%Q); ("ghost", 2%Q);
               ("dark", half)]);
    ("dragon", [("dragon", 2%Q); ("steel", half)]);
    ("dark", [("fighting", half); ("psychic", 2%Q); ("ghost", 2%Q);
              ("dark", half)]);
    ("steel", [("fire", half); ("water", half); ("electric", half);
               ("ice", 2%Q); ("rock", 2%Q); ("dragon", 1%Q);
               ("steel", half)]);
    ("fairy", [("fire", half); ("fighting", 2%Q); ("poison", half);
               ("dragon", 2%Q); ("dark", 2%Q); ("steel", half)]) ].

(** The single-element lookup both loops multiply by:
    [row.get(defending_type, 1.0)]. *)
Definition entry (row : dict Q) (defending_type : string) : float :=
  Ffin (get row defending_type 1%Q).

(** Lines 221-223 of [simulate_battle]: an attacking type missing from
    the chart reads as the empty row. *)
Definition battle_effectiveness (move_type : string)
    (defender_types : list string) : float :=
  fold_left
    (fun effectiveness def_type =>
       fmul effectiveness (entry (get TYPE_EFFECTIVENESS move_type []) def_type))
    defender_types (Ffin 1).

(** [get_type_effectiveness] *)
Definition get_type_effectiveness (attacking_type defending_type : string)
    : string :=
  let attacking_type := lower attacking_type in
  let defending_type := lower defending_type in
  match lookup TYPE_EFFECTIVENESS attacking_type with
  | None =>
      "Error: '" ++ attacking_type ++ "' is not a valid Pokémon type."
  | Some row =>
      let effectiveness := entry row defending_type in
      let result :=
        if feq effectiveness (Ffin 2) then "Super effective (2x damage)"
        else if feq effectiveness (Ffin half)
             then "Not very effective (0.5x damage)"
        else if feq effectiveness (Ffin 0) then "No effect (0x damage)"
        else "Normal effectiveness (1x damage)" in
      capitalize attacking_type ++ " vs " ++ capitalize defending_type
        ++ ": " ++ result
  end.

(** Lines 330-332 of [get_pokemon_weaknesses_and_resistances], where
    [row] is [TYPE_EFFECTIVENESS[attacking_type]]. *)
Definition total_effectiveness (row : dict Q) (pokemon_types : list string)
    : float :=
  fold_left (fun total defending_type => fmul total (entry row defending_type))
    pokemon_types (Ffin 1).

Inductive bucket : Type :=
| Weak (multiplier : string)
| Resistant (multiplier : string)
| Immune
| Normal.

(** Lines 334-341: the branch taken for one attacking type. *)
Definition classify (total : float) : bucket :=
  if fge total (Ffin 2) then
    Weak (if feq total (Ffin 4) then "4x" else "2x")
  else if fle total (Ffin half) && fgt total (Ffin 0) then
    Resistant (if feq total (Ffin (1 # 4)) then "0.25x" else "0.5x")
  else if feq total (Ffin 0) then Immune
  else Normal.

(** The three lists after the loop over the chart's keys; an entry is
    the attacking type and, for the first two lists, its label. *)
Record breakdown : Type := {
  weaknesses : list (string * string);
  resistances : list (string * string);
  immunities : list string
}.

Definition add_entry (pokemon_types : list string)
    (acc : breakdown) (attacking_type : string) : breakdown :=
  let row := get TYPE_EFFECTIVENESS attacking_type [] in
  match classify (total_effectiveness row pokemon_types) with
  | Weak m =>
      {| weaknesses := weaknesses acc ++ [(attacking_type, m)];
         resistances := resistances acc;
         immunities := immunities acc |}
  | Resistant m =>
      {| weaknesses := weaknesses acc;
         resistances := resistances acc ++ [(attacking_type, m)];
         immunities := immunities acc |}
  | Immune =>
      {| weaknesses := weaknesses acc;
         resistances := resistances acc;
         immunities := immunities acc ++ [attacking_type] |}
  | Normal => acc
  end.

Definition type_breakdown (pokemon_types : list string) : breakdown :=
  fold_left (add_entry pokemon_types) (keys TYPE_EFFECTIVENESS)
    {| weaknesses := []; resistances := []; immunities := [] |}.

Definition labelled (e : string * string) : string :=
  capitalize (fst e) ++ " (" ++ snd e ++ ")".

(** The payload fields of a creature that the tools read. *)
Record pokemon_data : Type := {
  pd_name : string;
  pd_stats : list Z;          (* base_stat of each stat slot, in order *)
  pd_types : list string;
  pd_moves : list string      (* move urls *)
}.

(** [get_pokemon_weaknesses_and_resistances], given the provider's
    answer ([None] when the request failed). *)
Definition get_pokemon_weaknesses_and_resistances (pokemon_name : string)
    (pokemon_data : option pokemon_data) : string :=
  match pokemon_data with
  | None =>
      "Error: Could not find data for Pokémon '" ++ pokemon_name
        ++ "'. Please check the spelling."
  | Some data =>
      let pokemon_types := pd_types data in
      let name := capitalize (pd_name data) in
      let b := type_breakdown pokemon_types in
      let report := "--- Type Analysis for " ++ name ++ " ---" ++ newline in
      let report := report ++ "Types: "
        ++ String.concat ", " (map capitalize pokemon_types)
        ++ newline ++ newline in
      let report := report ++
        match weaknesses b with
        | [] => "Weaknesses: None" ++ newline ++ newline
        | l => "Weaknesses (takes extra damage):" ++ newline ++ "  "
                 ++ String.concat ", " (map labelled l) ++ newline ++ newline
        end in
      let report := report ++
        match resistances b with
        | [] => "Resistances: None" ++ newline ++ newline
        | l => "Resistances (takes reduced damage):" ++ newline ++ "  "
                 ++ String.concat ", " (map labelled l) ++ newline ++ newline
        end in
      report ++
        match immunities b with
        | [] => "Immunities: None" ++ newline
        | l => "Immunities (no damage):" ++ newline ++ "  "
                 ++ String.concat ", " (map capitalize l) ++ newline
        end
  end.

End Chart.

(* ================================================================== *)
(** ** [simulate_battle] *)
(* ================================================================== *)

Module Battle.

Import Float Py Chart.
Local Open Scope string_scope.

(** The fields of a move payload that the battle reads.  [mv_power] is
    [None] for JSON null; [mv_meta] is [None] when the key is absent or
    its value is null or empty. *)
Record move_meta : Type := {
  ailment : string;
  ailment_chance : Z
}.

Record move_data : Type := {
  mv_name : string;
  mv_power : option Z;
  mv_type : string;
  mv_meta : option move_meta
}.

(** What one call of [_make_api_request] for a move gives back:
    [NoData] is the [None] returned on a request error or a bad status
    (and any falsy payload); [Malformed] is a payload without the
    [power] key, on which the source raises. *)
Inductive response : Type :=
| NoData
| Malformed
| Payload (m : move_data).

(** Everything outside the program's control during the loop: the
    successive values of [random.random()], the successive index draws
    of [random.choice], and the provider's answer to the n-th move
    request. *)
Record world : Type := {
  rolls : nat -> Q;
  picks : nat -> nat;
  provider : nat -> string -> response
}.

(** The per-battle dict of one creature. *)
Record pokemon : Type := {
  name : string;
  hp : Z;
  attack : Z;
  defense : Z;
  speed : Z;
  types : list string;
  moves : list string;
  status : option string
}.

Definition set_hp (p : pokemon) (h : Z) : pokemon :=
  {| name := name p; hp := h; attack := attack p; defense := defense p;
     speed := speed p; types := types p; moves := moves p;
     status := status p |}.

Definition set_status (p : pokemon) (s : string) : pokemon :=
  {| name := name p; hp := hp p; attack := attack p; defense := defense p;
     speed := speed p; types := types p; moves := moves p;
     status := Some s |}.

(** [==] on two of these dicts compares them field by field. *)
Definition option_eqb {A : Type} (eqb : A -> A -> bool) (x y : option A)
    : bool :=
  match x, y with
  | None, None => true
  | Some a, Some b => eqb a b
  | _, _ => false
  end.

Fixpoint list_eqb {A : Type} (eqb : A -> A -> bool) (x y : list A) : bool :=
  match x, y with
  | [], [] => true
  | a :: x', b :: y' => eqb a b && list_eqb eqb x' y'
  | _, _ => false
  end.

Definition pokemon_eqb (p q : pokemon) : bool :=
  String.eqb (name p) (name q) && (hp p =? hp q)%Z
  && (attack p =? attack q)%Z && (defense p =? defense q)%Z
  && (speed p =? speed q)%Z && list_eqb String.eqb (types p) (types q)
  && list_eqb String.eqb (moves p) (moves q)
  && option_eqb String.eqb (status p) (status q).

(** One line of [battle_log]. *)
Inductive event : Type :=
| EvIntro (n1 n2 : string)
| EvFaster (who : string)
| EvTurn (turn : Z)
| EvParalyzed (who : string)
| EvUsed (who move_name : string)
| EvSuperEffective
| EvNotVeryEffective
| EvNoEffect (who : string)
| EvDamage (who : string) (damage shown_hp : Z)
| EvFainted (who : string)
| EvAfflicted (who ailment : string)
| EvStatusDamage (who : string) (damage : Z) (status : string)
| EvBlank
| EvBattleOver
| EvWinner (who : string).

Definition render (e : event) : string :=
  match e with
  | EvIntro n1 n2 =>
      "A battle is about to begin between " ++ n1 ++ " and " ++ n2 ++ "!"
        ++ newline
  | EvFaster who => who ++ " is faster and will attack first." ++ newline
  | EvTurn t => "--- Turn " ++ str_of_int t ++ " ---"
  | EvParalyzed who => who ++ " is paralyzed and can't move!"
  | EvUsed who m => who ++ " used " ++ m ++ "!"
  | EvSuperEffective => "It's super effective!"
  | EvNotVeryEffective => "It's not very effective..."
  | EvNoEffect who => "It doesn't affect " ++ who ++ "..."
  | EvDamage who d h =>
      who ++ " took " ++ str_of_int d ++ " damage and has " ++ str_of_int h
        ++ " HP remaining."
  | EvFainted who => who ++ " fainted!"
  | EvAfflicted who a => who ++ " was afflicted with " ++ a ++ "!"
  | EvStatusDamage who d s =>
      who ++ " took " ++ str_of_int d ++ " damage from its " ++ s ++ "."
  | EvBlank => ""
  | EvBattleOver => "--- Battle Over ---"
  | EvWinner who => "The winner is " ++ who ++ "!"
  end.

(** The local variables of [simulate_battle] while the loop runs.
    [attacker] and [defender] are references to the two dicts:
    [attacker_is_1] says which one [attacker] points to.  [n_roll] and
    [n_try] count the draws of [random.random()] and the move requests
    (each with its [random.choice]) made so far. *)
Record battle : Type := {
  pokemon1 : pokemon;
  pokemon2 : pokemon;
  attacker_is_1 : bool;
  turn : Z;
  battle_log : list event;
  n_roll : nat;
  n_try : nat
}.

Definition attacker (b : battle) : pokemon :=
  if attacker_is_1 b then pokemon1 b else pokemon2 b.

Definition defender (b : battle) : pokemon :=
  if attacker_is_1 b then pokemon2 b else pokemon1 b.

Definition with_attacker (b : battle) (p : pokemon) : battle :=
  {| pokemon1 := if attacker_is_1 b then p else pokemon1 b;
     pokemon2 := if attacker_is_1 b then pokemon2 b else p;
     attacker_is_1 := attacker_is_1 b; turn := turn b;
     battle_log := battle_log b; n_roll := n_roll b; n_try := n_try b |}.

Definition with_defender (b : battle) (p : pokemon) : battle :=
  {| pokemon1 := if attacker_is_1 b then pokemon1 b else p;
     pokemon2 := if attacker_is_1 b then p else pokemon2 b;
     attacker_is_1 := attacker_is_1 b; turn := turn b;
     battle_log := battle_log b; n_roll := n_roll b; n_try := n_try b |}.

Definition say (b : battle) (e : event) : battle :=
  {| pokemon1 := pokemon1 b; pokemon2 := pokemon2 b;
     attacker_is_1 := attacker_is_1 b; turn := turn b;
     battle_log := battle_log b ++ [e];
     n_roll := n_roll b; n_try := n_try b |}.

Definition next_roll (b : battle) : battle :=
  {| pokemon1 := pokemon1 b; pokemon2 := pokemon2 b;
     attacker_is_1 := attacker_is_1 b; turn := turn b;
     battle_log := battle_log b;
     n_roll := S (n_roll b); n_try := n_try b |}.

Definition with_tries (b : battle) (n : nat) : battle :=
  {| pokemon1 := pokemon1 b; pokemon2 := pokemon2 b;
     attacker_is_1 := attacker_is_1 b; turn := turn b;
     battle_log := battle_log b;
     n_roll := n_roll b; n_try := n |}.

(** Lines 268-270: swap the references, count the turn, log a blank. *)
Definition swap_roles (b : battle) : battle :=
  {| pokemon1 := pokemon1 b; pokemon2 := pokemon2 b;
     attacker_is_1 := negb (attacker_is_1 b); turn := (turn b + 1)%Z;
     battle_log := battle_log b ++ [EvBlank];
     n_roll := n_roll b; n_try := n_try b |}.

(** *** The arithmetic of lines 233, 237 and 260 *)

(** Line 233, in its order of evaluation. *)
Definition base_damage (move_power atk def : Z) (effectiveness : float)
    : py Z :=
  c <- int_truediv 2 5 ;;
  c <- fadd_int c 2 ;;
  x <- fmul_int c move_power ;;
  ratio <- int_truediv atk def ;;
  y <- fdiv_int (fmul x ratio) 50 ;;
  v <- fadd_int (fmul y effectiveness) 2 ;;
  int_of_float v.

(** Line 237: [int(damage * 0.5)]. *)
Definition burn_drop (damage : Z) : py Z :=
  d <- of_int damage ;;
  int_of_float (fmul d (Ffin half)).

Definition is_status (s : option string) (which : string) : bool :=
  option_eqb String.eqb s (Some which).

(** Lines 233-237. *)
Definition attack_damage (move_power : Z) (att def : pokemon)
    (effectiveness : float) : py Z :=
  damage <- base_damage move_power (attack att) (defense def) effectiveness ;;
  if is_status (status att) "burn" then burn_drop damage else Ret damage.

(** Line 260: [int(original_max_hp / 8)]. *)
Definition status_damage_of (original_max_hp : Z) : py Z :=
  q <- int_truediv original_max_hp 8 ;;
  int_of_float q.

(** Lines 225-230. *)
Definition effectiveness_note (effectiveness : float) (defender_name : string)
    : option event :=
  if fgt effectiveness (Ffin 1) then Some EvSuperEffective
  else if flt effectiveness (Ffin 1) && fgt effectiveness (Ffin 0)
       then Some EvNotVeryEffective
  else if feq effectiveness (Ffin 0) then Some (EvNoEffect defender_name)
  else None.

Definition say_opt (b : battle) (e : option event) : battle :=
  match e with
  | Some e => say b e
  | None => b
  end.

Definition power_of (m : move_data) : Z :=
  match mv_power m with
  | Some p => p
  | None => 0
  end.

Definition inflictable (a : string) : bool :=
  existsb (String.eqb a) ["paralysis"; "burn"; "poison"].

(** [stats[i]['base_stat']] *)
Definition stat (d : pokemon_data) (i : nat) : py Z :=
  match nth_error (pd_stats d) i with
  | Some z => Ret z
  | None => Raise IndexError
  end.

(** Lines 172-191: the dict built from a creature payload. *)
Definition make_pokemon (d : pokemon_data) : py pokemon :=
  h <- stat d 0 ;;
  a <- stat d 1 ;;
  df <- stat d 2 ;;
  sp <- stat d 5 ;;
  Ret {| name := capitalize (pd_name d); hp := h; attack := a;
         defense := df; speed := sp; types := pd_types d;
         moves := filter (fun url => negb (String.eqb url "")) (pd_moves d);
         status := None |}.

(** What a turn does to the loop: go on, or [break]. *)
Inductive flow : Type :=
| Next (b : battle)
| Break (b : battle).

Section Loop.

Variable w : world.
Variables p1_data p2_data : pokemon_data.

(** Lines 208-213: draw a move url, request it, and draw again unless
    the answer is a payload with positive power.  The result carries the
    number of requests made so far. *)
Fixpoint select_move (tries : nat) (urls : list string) (n : nat)
    : py (move_data * nat) :=
  match tries with
  | O => Fuel
  | S tries' =>
      match urls with
      | [] => Raise IndexError
      | _ :: _ =>
          let random_move_url :=
            nth (picks w n mod List.length urls)%nat urls "" in
          match provider w n random_move_url with
          | NoData => select_move tries' urls (S n)
          | Malformed => Raise KeyError
          | Payload m =>
              match mv_power m with
              | Some p =>
                  if (0 <? p)%Z then Ret (m, S n)
                  else select_move tries' urls (S n)
              | None => select_move tries' urls (S n)
              end
          end
      end
  end.

(** Lines 247-253: the ailment of the move, if any, on a defender that
    has no status yet. *)
Definition apply_ailment (move : move_data) (b : battle) : py battle :=
  match mv_meta move with
  | None => Ret b
  | Some meta =>
      match status (defender b) with
      | Some _ => Ret b
      | None =>
          if inflictable (ailment meta) then
            let roll := rolls w (n_roll b) in
            let b := next_roll b in
            c <- of_int (ailment_chance meta) ;;
            match fdiv c (Ffin 100) with
            | None => Raise ZeroDivisionError
            | Some threshold =>
                if flt (Ffin roll) threshold then
                  let d := set_status (defender b) (ailment meta) in
                  Ret (say (with_defender b d)
                         (EvAfflicted (name d) (ailment meta)))
                else Ret b
            end
          else Ret b
      end
  end.

(** Lines 206-253: the [else] branch of the paralysis check. *)
Definition attack_phase (tries : nat) (b : battle) : py flow :=
  '(move, n) <- select_move tries (moves (attacker b)) (n_try b) ;;
  let b := with_tries b n in
  let move_name := title (replace_char "-" " " (mv_name move)) in
  let move_power := power_of move in
  let move_type := mv_type move in
  let b := say b (EvUsed (name (attacker b)) move_name) in
  let effectiveness := battle_effectiveness move_type (types (defender b)) in
  let b := say_opt b (effectiveness_note effectiveness (name (defender b))) in
  damage <- attack_damage move_power (attacker b) (defender b) effectiveness ;;
  let d := set_hp (defender b) (hp (defender b) - damage) in
  let b := with_defender b d in
  let b := say b (EvDamage (name d) damage (Z.max 0 (hp d))) in
  if (hp d <=? 0)%Z then Ret (Break (say b (EvFainted (name d))))
  else b <- apply_ailment move b ;; Ret (Next b).

(** Line 259: [attacker == pokemon1] compares the two dicts by value. *)
Definition original_max_hp (b : battle) : py Z :=
  if pokemon_eqb (attacker b) (pokemon1 b) then stat p1_data 0
  else stat p2_data 0.

(** Lines 256-265: end-of-turn status damage. *)
Definition status_tick (b : battle) : py flow :=
  match status (attacker b) with
  | Some s =>
      if String.eqb s "poison" || String.eqb s "burn" then
        m <- original_max_hp b ;;
        status_damage <- status_damage_of m ;;
        let a := set_hp (attacker b) (hp (attacker b) - status_damage) in
        let b := with_attacker b a in
        let b := say b (EvStatusDamage (name a) status_damage s) in
        if (hp a <=? 0)%Z then Ret (Break (say b (EvFainted (name a))))
        else Ret (Next b)
      else Ret (Next b)
  | None => Ret (Next b)
  end.

(** Lines 203-253: the paralysis check, then the action unless the
    turn is lost. *)
Definition action (tries : nat) (b : battle) : py flow :=
  if is_status (status (attacker b)) "paralysis" then
    let roll := rolls w (n_roll b) in
    let b := next_roll b in
    if negb (Qle_bool (1 # 4) roll)
    then Ret (Next (say b (EvParalyzed (name (attacker b)))))
    else attack_phase tries b
  else attack_phase tries b.

(** Lines 200-270: one iteration of the main loop. *)
Definition turn_body (tries : nat) (b : battle) : py flow :=
  let b := say b (EvTurn (turn b)) in
  r <- action tries b ;;
  match r with
  | Break b => Ret (Break b)
  | Next b =>
      r <- status_tick b ;;
      match r with
      | Break b => Ret (Break b)
      | Next b => Ret (Next (swap_roles b))
      end
  end.

Definition both_standing (b : battle) : bool :=
  (0 <? hp (pokemon1 b))%Z && (0 <? hp (pokemon2 b))%Z.

(** Lines 199-270: the main loop, at most [fuel] turns. *)
Fixpoint battle_loop (tries fuel : nat) (b : battle) : py battle :=
  if both_standing b then
    match fuel with
    | O => Fuel
    | S fuel' =>
        r <- turn_body tries b ;;
        match r with
        | Break b' => Ret b'
        | Next b' => battle_loop tries fuel' b'
        end
    end
  else Ret b.

(** Line 273. *)
Definition winner (b : battle) : pokemon :=
  if (0 <? hp (pokemon1 b))%Z then pokemon1 b else pokemon2 b.

(** Lines 273-275. *)
Definition conclude (b : battle) : battle :=
  say (say b EvBattleOver) (EvWinner (name (winner b))).

(** Lines 162-195. *)
Definition start (pokemon1_name pokemon2_name : string) : py battle :=
  p1 <- make_pokemon p1_data ;;
  p2 <- make_pokemon p2_data ;;
  let first := (speed p2 <=? speed p1)%Z in
  Ret {| pokemon1 := p1; pokemon2 := p2; attacker_is_1 := first;
         turn := 1%Z;
         battle_log :=
           [EvIntro (capitalize pokemon1_name) (capitalize pokemon2_name);
            EvFaster (name (if first then p1 else p2))];
         n_roll := O; n_try := O |}.

(** The battle from the two payloads to the state whose log is
    returned. *)
Definition run_battle (tries fuel : nat) (pokemon1_name pokemon2_name : string)
    : py battle :=
  b <- start pokemon1_name pokemon2_name ;;
  b <- battle_loop tries fuel b ;;
  Ret (conclude b).

End Loop.

(** Line 277. *)
Definition report (b : battle) : string :=
  String.concat newline (map render (battle_log b)).

(** [simulate_battle], given the provider's answers to the two creature
    requests ([None] when a request failed). *)
Definition simulate_battle (w : world) (tries fuel : nat)
    (pokemon1_name pokemon2_name : string)
    (p1_data p2_data : option pokemon_data) : py string :=
  match p1_data, p2_data with
  | Some d1, Some d2 =>
      b <- run_battle w d1 d2 tries fuel pokemon1_name pokemon2_name ;;
      Ret (report b)
  | _, _ =>
      Ret "Error: Could not fetch data for one or both Pokémon. Please check the names."
  end.

End Battle.

(* ================================================================== *)
(** ** The damage formula as the specification words it *)
(* ================================================================== *)

Module Spec.

Import Float Py Chart.

(** [floor] of a float. *)
Definition floor (x : float) : py Z :=
  match x with
  | Ffin q => Ret (Qfloor q)
  | Finf _ => Raise OverflowError
  | Fnan => Raise ValueError
  end.

(** base = ((2/5 + 2) * power * (attack / defense)) / 50, in
    floating-point arithmetic. *)
Definition base (power atk def : Z) : py float :=
  c <- int_truediv 2 5 ;;
  c <- fadd_int c 2 ;;
  x <- fmul_int c power ;;
  ratio <- int_truediv atk def ;;
  fdiv_int (fmul x ratio) 50.

(** damage = floor(base * effectiveness + 2);
    if the attacker is burned, damage = floor(damage * 0.5). *)
Definition damage (power atk def : Z) (effectiveness : float) (burned : bool)
    : py Z :=
  b <- base power atk def ;;
  v <- fadd_int (fmul b effectiveness) 2 ;;
  damage <- floor v ;;
  if burned then
    d <- of_int damage ;;
    floor (fmul d (Ffin half))
  else Ret damage.

(** The same formula over the rationals, with no rounding before the
    floors. *)
Definition exact_damage (power atk def : Z) (effectiveness : Q)
    (burned : bool) : Z :=
  let base :=
    (((2 # 5) + 2) * inject_Z power * (inject_Z atk / inject_Z def) / 50)%Q in
  let damage := Qfloor (base * effectiveness + 2)%Q in
  if burned then Qfloor (inject_Z damage * (1 # 2))%Q else damage.

(** The buckets of the breakdown as the specification lists them:
    at least 2 is weak, 0 is immune, above 0 and at most 0.5 is
    resistant, anything else is normal; 4 and 0.25 are labelled with
    their own value, the other weak and resistant entries with 2x and
    0.5x. *)
Definition bucket_of (total : float) : bucket :=
  if fge total (Ffin 2) then
    Weak (if feq total (Ffin 4) then "4x" else "2x")
  else if feq total (Ffin 0) then Immune
  else if fgt total (Ffin 0) && fle total (Ffin half) then
    Resistant (if feq total (Ffin (1 # 4)) then "0.25x" else "0.5x")
  else Normal.

(** The compound multiplier as the specification words it: over the
    defender's elements, the product of the table entries of the
    attacking element, an absent entry counting as 1; over the
    rationals. *)
Definition table_entry (attacking defending : string) : Q :=
  match lookup TYPE_EFFECTIVENESS attacking with
  | Some row =>
      match lookup row defending with
      | Some multiplier => multiplier
      | None => 1%Q
      end
  | None => 1%Q
  end.

Definition compound (attacking : string) (defending : list string) : Q :=
  fold_right (fun d product => (table_entry attacking d * product)%Q) 1%Q
    defending.

(** The buckets, on a rational multiplier. *)
Definition bucket_of_multiplier (m : Q) : bucket :=
  if Qle_bool 2 m then Weak (if Qeq_bool m 4 then "4x" else "2x")
  else if Qeq_bool m 0 then Immune
  else if negb (Qle_bool m 0) && Qle_bool m (1 # 2) then
    Resistant (if Qeq_bool m (1 # 4) then "0.25x" else "0.5x")
  else Normal.

(** The three ailments that the specification lets a move inflict. *)
Definition ailments : list string := ["paralysis"; "burn"; "poison"]%string.

End Spec.

(* ================================================================== *)
(** ** Predicates used in the statements *)
(* ================================================================== *)

Module Props.

Import Float Py Chart Battle.

(** A float that is not negative: a finite value at least 0, +inf, or
    NaN. *)
Definition nonneg (x : float) : Prop :=
  match x with
  | Ffin q => (0 <= q)%Q
  | Finf s => s = false
  | Fnan => True
  end.

(** A finite float between two bounds. *)
Definition fin_in (lo hi : Q) (x : float) : Prop :=
  exists q, x = Ffin q /\ (lo <= q)%Q /\ (q <= hi)%Q.

(** The values that occur in the chart, and the default. *)
Definition multipliers : list Q := [0%Q; half; 1%Q; 2%Q].

(** Two rationals with the same numerator and denominator. *)
Definition Qsame (a b : Q) : bool :=
  (Qnum a =? Qnum b)%Z && (Qden a =? Qden b)%positive.

Definition row_ok (row : dict Q) : bool :=
  forallb (fun v => existsb (Qsame v) multipliers) (map snd row).

(** The compound multiplier of one attacking type against a defender,
    and what one pass of the breakdown loop appends for it. *)
Definition total_against (pokemon_types : list string) (a : string) : float :=
  total_effectiveness (get TYPE_EFFECTIVENESS a []) pokemon_types.

Definition weak_of (pokemon_types : list string) (a : string)
    : list (string * string) :=
  match classify (total_against pokemon_types a) with
  | Weak m => [(a, m)]
  | _ => []
  end.

Definition resistant_of (pokemon_types : list string) (a : string)
    : list (string * string) :=
  match classify (total_against pokemon_types a) with
  | Resistant m => [(a, m)]
  | _ => []
  end.

Definition immune_of (pokemon_types : list string) (a : string)
    : list string :=
  match classify (total_against pokemon_types a) with
  | Immune => [a]
  | _ => []
  end.

(** The binary64 values of [2/5] and [2/5 + 2]. *)
Definition c04 : Q := 3602879701896397 # 9007199254740992.
Definition c24 : Q := 5404319552844595 # 2251799813685248.

(** The float that line 233 hands to [int]. *)
Definition pre_damage (move_power atk def : Z) (effectiveness : float)
    : py float :=
  x <- fmul_int (Ffin c24) move_power ;;
  ratio <- int_truediv atk def ;;
  y <- fdiv_int (fmul x ratio) 50 ;;
  fadd_int (fmul y effectiveness) 2.

(** The state a turn leaves behind, whether the loop goes on or not. *)
Definition flow_state (r : flow) : battle :=
  match r with
  | Next b => b
  | Break b => b
  end.

(** The fields of a creature that no statement of the loop assigns. *)
Definition same_stats (p p' : pokemon) : Prop :=
  name p' = name p /\ attack p' = attack p /\ defense p' = defense p
  /\ speed p' = speed p /\ types p' = types p /\ moves p' = moves p.

(** A status stays, or goes from none to one of the three ailments. *)
Definition status_step (s s' : option string) : Prop :=
  s' = s \/ (s = None /\ exists a, s' = Some a /\ inflictable a = true).

(** The HP a damage line shows is never negative. *)
Definition shown_ok (e : event) : Prop :=
  match e with
  | EvDamage _ _ shown => (0 <= shown)%Z
  | _ => True
  end.

(** What holds between a state of the loop and any later one. *)
Definition frame (b b' : battle) : Prop :=
  same_stats (pokemon1 b) (pokemon1 b')
  /\ same_stats (pokemon2 b) (pokemon2 b')
  /\ status_step (status (pokemon1 b)) (status (pokemon1 b'))
  /\ status_step (status (pokemon2 b)) (status (pokemon2 b'))
  /\ (n_roll b <= n_roll b')%nat /\ (n_try b <= n_try b')%nat
  /\ exists l, battle_log b' = (battle_log b ++ l)%list /\ Forall shown_ok l.

Definition hp_down (b b' : battle) : Prop :=
  (hp (pokemon1 b') <= hp (pokemon1 b))%Z
  /\ (hp (pokemon2 b') <= hp (pokemon2 b))%Z.

(** [frame], and [hp_down] as far as the condition [P] holds. *)
Definition evolves (P : Prop) (b b' : battle) : Prop :=
  frame b b' /\ (P -> hp_down b b').

(** Attack and defense of both creatures are positive. *)
Definition positive_stats (b : battle) : Prop :=
  (0 < attack (pokemon1 b))%Z /\ (0 < defense (pokemon1 b))%Z
  /\ (0 < attack (pokemon2 b))%Z /\ (0 < defense (pokemon2 b))%Z.

(** The creature payload gives a non-negative base HP. *)
Definition base_hp_ok (d : pokemon_data) : Prop :=
  forall h, stat d 0 = Ret h -> (0 <= h)%Z.

(** The conditions under which no HP can go up. *)
Definition sound_data (d1 d2 : pokemon_data) (b : battle) : Prop :=
  positive_stats b /\ base_hp_ok d1 /\ base_hp_ok d2.

Definition total_hp (b : battle) : Z :=
  (hp (pokemon1 b) + hp (pokemon2 b))%Z.

(** One creature stands and the other has fainted. *)
Definition exactly_one (b : battle) : Prop :=
  ((0 < hp (pokemon1 b))%Z /\ (hp (pokemon2 b) <= 0)%Z)
  \/ ((hp (pokemon1 b) <= 0)%Z /\ (0 < hp (pokemon2 b))%Z).

(** Data of realistic size: nothing in lines 233-260 can overflow. *)
Definition sane_pokemon (p : pokemon) : Prop :=
  (0 < attack p <= 2 ^ 64)%Z /\ (0 < defense p)%Z
  /\ (List.length (types p) <= 64)%nat.

Definition sane_move (m : move_data) : Prop :=
  (forall p, mv_power m = Some p -> (p <= 2 ^ 64)%Z)
  /\ (forall meta, mv_meta m = Some meta ->
                   (0 <= ailment_chance meta <= 2 ^ 64)%Z).

Definition sane_provider (w : world) : Prop :=
  forall n url m, provider w n url = Payload m -> sane_move m.

Definition sane_base (d : pokemon_data) : Prop :=
  exists h, stat d 0 = Ret h /\ (0 <= h <= 2 ^ 64)%Z.

(** The move urls a creature keeps (line 179). *)
Definition usable_urls (d : pokemon_data) : list string :=
  filter (fun url => negb (String.eqb url "")) (pd_moves d).

(** A creature payload with the four stat slots the battle reads, of
    realistic size, HP, attack and defense positive. *)
Definition sane_payload (d : pokemon_data) : Prop :=
  exists h a df sp,
    stat d 0 = Ret h /\ stat d 1 = Ret a /\ stat d 2 = Ret df
    /\ stat d 5 = Ret sp
    /\ (0 < h <= 2 ^ 64)%Z /\ (0 < a <= 2 ^ 64)%Z /\ (0 < df)%Z
    /\ (List.length (pd_types d) <= 64)%nat.

(** The Action Resolver's selection loop terminates with a move, from
    any number of requests already made. *)
Definition resolver_terminates (w : world) (urls : list string) : Prop :=
  forall n, exists tries m n', select_move w tries urls n = Ret (m, n').

(** A paralysed creature is not kept from moving forever: from any
    point on, some later draw of [random.random()] is at least 0.25. *)
Definition fair_rolls (w : world) : Prop :=
  forall k, exists j, (1 # 4 <= rolls w (k + j))%Q.

(** What the loop needs of a state to run a turn without raising. *)
Definition runnable (w : world) (b : battle) : Prop :=
  sane_pokemon (pokemon1 b) /\ sane_pokemon (pokemon2 b)
  /\ resolver_terminates w (moves (pokemon1 b))
  /\ resolver_terminates w (moves (pokemon2 b)).

(** The first or the second creature of a state. *)
Definition side (b : battle) (first : bool) : pokemon :=
  if first then pokemon1 b else pokemon2 b.

(** The state of an attack just after its damage line (line 240), for
    the selected move, the request count and the damage dealt. *)
Definition after_hit (b : battle) (move : move_data) (n' : nat) (damage : Z)
    : battle :=
  let b := with_tries b n' in
  let b :=
    say b (EvUsed (name (attacker b))
             (title (replace_char "-" " " (mv_name move)))) in
  let effectiveness :=
    battle_effectiveness (mv_type move) (types (defender b)) in
  let b := say_opt b (effectiveness_note effectiveness (name (defender b))) in
  let d := set_hp (defender b) (hp (defender b) - damage) in
  let b := with_defender b d in
  say b (EvDamage (name d) damage (Z.max 0 (hp d))).

End Props.

(* ================================================================== *)
(** ** Concrete creatures, moves and worlds *)
(* ================================================================== *)

Module Examples.

Import Float Py Chart Battle.
Local Open Scope string_scope.

(** The scenario of the specification: attack 100 against defense 50. *)
Definition scenario_attacker (s : option string) : pokemon :=
  {| name := "Attacker"; hp := 100; attack := 100; defense := 50;
     speed := 50; types := ["normal"]; moves := ["move/1"]; status := s |}.

Definition scenario_defender : pokemon :=
  {| name := "Defender"; hp := 100; attack := 100; defense := 50;
     speed := 50; types := ["normal"]; moves := ["move/1"]; status := None |}.

(** A mirror match in which both sides end up paralysed. *)
Definition thunder_shock : move_data :=
  {| mv_name := "thunder-shock"; mv_power := Some 40; mv_type := "electric";
     mv_meta := Some {| ailment := "paralysis"; ailment_chance := 10 |} |}.

Definition pikachu : pokemon_data :=
  {| pd_name := "pikachu"; pd_stats := [35; 55; 40; 50; 50; 90];
     pd_types := ["electric"];
     pd_moves := ["https://pokeapi.co/api/v2/move/84/"] |}.

(** Every ailment roll succeeds, the second draw lets the paralysed
    side move once, and from then on every paralysis check is lost. *)
Definition stall_world : world :=
  {| rolls := fun n => if (n =? 1)%nat then (1 # 2)%Q else 0%Q;
     picks := fun _ => O;
     provider := fun _ _ => Payload thunder_shock |}.

(** A provider whose first move request fails. *)
Definition tackle : move_data :=
  {| mv_name := "tackle"; mv_power := Some 40; mv_type := "normal";
     mv_meta := Some {| ailment := "none"; ailment_chance := 0 |} |}.

Definition rattata : pokemon_data :=
  {| pd_name := "rattata"; pd_stats := [30; 56; 35; 25; 35; 72];
     pd_types := ["normal"];
     pd_moves := ["https://pokeapi.co/api/v2/move/33/"] |}.

Definition flaky_world : world :=
  {| rolls := fun _ => (1 # 2)%Q;
     picks := fun _ => O;
     provider := fun n _ => if (n =? 0)%nat then NoData else Payload tackle |}.

(** A provider whose first answer lacks the power field. *)
Definition broken_world : world :=
  {| rolls := fun _ => (1 # 2)%Q;
     picks := fun _ => O;
     provider := fun n _ => if (n =? 0)%nat then Malformed else Payload tackle |}.

(** Two payloads with the same name and stats but base HP 101 and 104,
    and a world in which every hit burns. *)
Definition ember : move_data :=
  {| mv_name := "ember"; mv_power := Some 40; mv_type := "fire";
     mv_meta := Some {| ailment := "burn"; ailment_chance := 10 |} |}.

Definition eevee (base_hp : Z) : pokemon_data :=
  {| pd_name := "eevee"; pd_stats := [base_hp; 100; 50; 45; 65; 55];
     pd_types := ["normal"];
     pd_moves := ["https://pokeapi.co/api/v2/move/52/"] |}.

Definition burn_world : world :=
  {| rolls := fun _ => 0%Q;
     picks := fun _ => O;
     provider := fun _ _ => Payload ember |}.

(** The state in which Pikachu opens against Rattata. *)
Definition opening : battle :=
  {| pokemon1 :=
       {| name := "Rattata"; hp := 30; attack := 56; defense := 35;
          speed := 72; types := ["normal"];
          moves := ["https://pokeapi.co/api/v2/move/33/"]; status := None |};
     pokemon2 :=
       {| name := "Pikachu"; hp := 35; attack := 55; defense := 40;
          speed := 90; types := ["electric"];
          moves := ["https://pokeapi.co/api/v2/move/84/"]; status := None |};
     attacker_is_1 := false; turn := 1;
     battle_log := [EvIntro "Rattata" "Pikachu"; EvFaster "Pikachu"];
     n_roll := O; n_try := O |}.

(** The first [n] turns of a battle, up to a [break]. *)
Fixpoint play (w : world) (d1 d2 : pokemon_data) (tries n : nat) (b : battle)
    : py battle :=
  match n with
  | O => Ret b
  | S n' =>
      r <- turn_body w d1 d2 tries b ;;
      match r with
      | Next b' => play w d1 d2 tries n' b'
      | Break b' => Ret b'
      end
  end.

End Examples.

(* ================================================================== *)
(** ** The standard library's reference implementation of binary64 *)
(* ================================================================== *)

Module Reference.

Import Float.

(** The value of a [spec_float], in the float type of this file. *)
Definition sf_value (x : spec_float) : float :=
  match x with
  | S754_zero _ => Ffin 0
  | S754_infinity s => Finf s
  | S754_nan => Fnan
  | S754_finite s m e =>
      Ffin (Qred (inject_Z (if s then Z.neg m else Z.pos m) * pow2 e))
  end.

Definition same_float (x y : float) : bool :=
  match x, y with
  | Ffin a, Ffin b => Qeq_bool a b
  | Finf s, Finf t => Bool.eqb s t
  | Fnan, Fnan => true
  | _, _ => false
  end.

Definition sf (m e : Z) : spec_float := binary_normalize 53 1024 m e false.

(** Operands of ordinary size, and operands at both ends of the
    exponent range. *)
Definition ordinary : list spec_float :=
  flat_map (fun m => map (sf m) [-60; -3; 0; 1; 52]%Z)
    [0; 1; -7; 100; 9007199254740991; -6004799503160661]%Z.

Definition extreme : list spec_float :=
  (map (sf 9007199254740991) [-1076; 971]%Z
   ++ map (sf (-7)) [-540; 500]%Z)%list.

Definition is_zero_sf (x : spec_float) : bool :=
  match x with
  | S754_zero _ => true
  | _ => false
  end.

Definition agree_on (l : list spec_float)
    (op : spec_float -> spec_float -> spec_float)
    (f : float -> float -> float) : bool :=
  forallb
    (fun x =>
       forallb
         (fun y => same_float (sf_value (op x y)) (f (sf_value x) (sf_value y)))
         l)
    l.

Definition agree_div_on (l : list spec_float) : bool :=
  forallb
    (fun x =>
       forallb
         (fun y =>
            is_zero_sf y
            || match fdiv (sf_value x) (sf_value y) with
               | Some r => same_float (sf_value (SFdiv 53 1024 x y)) r
               | None => false
               end)
         l)
    l.

End Reference.

(* ================================================================== *)
(** ** Exact quantities against which the float code is compared *)
(* ================================================================== *)

Module Derived.

Import Float Py Chart Battle.
Local Open Scope Q_scope.

(** The product of the chart entries of one row over a defender's
    types, over the rationals. *)
Definition exact_product (row : dict Q) (pokemon_types : list string) : Q :=
  fold_left (fun total defending_type => total * get row defending_type 1)
    pokemon_types 1.

(** A chart product is zero or a power of two. *)
Definition zero_or_pow2 (n : Z) (q : Q) : Prop :=
  q == 0 \/ exists k, (- n <= k <= n)%Z /\ q == pow2 k.

(** *** Reading the battle log *)

(** The numbers of the turn headers of a log, in order. *)
Definition turn_headers (l : list event) : list Z :=
  flat_map (fun e => match e with EvTurn t => [t] | _ => [] end) l.

(** [from; from + 1; ...], [n] numbers. *)
Definition count_up (from : Z) (n : nat) : list Z :=
  map (fun i => (from + Z.of_nat i)%Z) (seq 0 n).

(** The damage one line of the log reports for the creature called
    [who]. *)
Definition damage_to (who : string) (e : event) : Z :=
  match e with
  | EvDamage n d _ => if String.eqb n who then d else 0%Z
  | EvStatusDamage n d _ => if String.eqb n who then d else 0%Z
  | _ => 0%Z
  end.

Definition damage_taken (who : string) (l : list event) : Z :=
  fold_right Z.add 0%Z (map (damage_to who) l).

(** A line that is neither a turn header nor a damage line. *)
Definition plain (e : event) : Prop :=
  match e with
  | EvTurn _ | EvDamage _ _ _ | EvStatusDamage _ _ _ => False
  | _ => True
  end.

(** Between two states of one turn: names, roles and turn number stay,
    the log grows by lines without a turn header and, when the two
    creatures have different names, the damage lines added for each
    creature sum to the HP it lost. *)
Definition accounted (b b' : battle) : Prop :=
  name (pokemon1 b') = name (pokemon1 b)
  /\ name (pokemon2 b') = name (pokemon2 b)
  /\ attacker_is_1 b' = attacker_is_1 b
  /\ turn b' = turn b
  /\ exists l,
       battle_log b' = (battle_log b ++ l)%list
       /\ turn_headers l = []
       /\ (name (pokemon1 b) <> name (pokemon2 b) ->
           damage_taken (name (pokemon1 b)) l
           = (hp (pokemon1 b) - hp (pokemon1 b'))%Z
           /\ damage_taken (name (pokemon2 b)) l
              = (hp (pokemon2 b) - hp (pokemon2 b'))%Z).

(** *** The requests of the selection loop *)

(** The url that the [n]-th request of a battle draws from [urls]. *)
Definition drawn (w : world) (urls : list string) (n : nat) : string :=
  nth (picks w n mod List.length urls)%nat urls EmptyString.

(** An answer that makes the selection loop draw again: no data, or a
    payload whose power is null or not positive. *)
Definition skipped (r : response) : Prop :=
  r = NoData \/ exists m, r = Payload m /\ (power_of m <= 0)%Z.

(** *** Creature payloads that the battle cannot tell apart *)

(** Same name, types and move urls, and the same base stats in the
    slots 0, 1, 2 and 5. *)
Definition same_for_battle (d d' : pokemon_data) : Prop :=
  pd_name d = pd_name d' /\ pd_types d = pd_types d' /\ pd_moves d = pd_moves d'
  /\ nth_error (pd_stats d) 0 = nth_error (pd_stats d') 0
  /\ nth_error (pd_stats d) 1 = nth_error (pd_stats d') 1
  /\ nth_error (pd_stats d) 2 = nth_error (pd_stats d') 2
  /\ nth_error (pd_stats d) 5 = nth_error (pd_stats d') 5.

End Derived.

(* ================================================================== *)
(** ** [_parse_evolution_chain] *)
(* ================================================================== *)

Module Evolution.

Import Py.
Local Open Scope string_scope.

(** What the parser reads of a link of the provider's evolution chain:
    [chain['species']['name']] and [chain.get('evolves_to', [])]. *)
#[warnings="-register-all"]
Inductive chain : Type :=
| Link (species_name : string) (evolves_to : list chain).

(** The nested function.  It appends to the list [evolutions] of the
    enclosing call, which is threaded through here: the name of the
    link first, then each of its evolutions in order. *)
Fixpoint extract_evolutions (c : chain) (evolutions : list string)
    : list string :=
  match c with
  | Link species_name evolves_to =>
      fold_left
        (fun evolutions evolution => extract_evolutions evolution evolutions)
        evolves_to
        (evolutions ++ [capitalize species_name])%list
  end.

Definition _parse_evolution_chain (chain_data : chain) : string :=
  let evolutions := extract_evolutions chain_data [] in
  if (List.length evolutions <=? 1)%nat then "Does not evolve"
  else String.concat " → " evolutions.

(** The species names of a chain, each link before its evolutions. *)
Fixpoint preorder (c : chain) : list string :=
  match c with
  | Link species_name evolves_to => species_name :: flat_map preorder evolves_to
  end.

(** Induction on a chain with the property known of every evolution. *)
Fixpoint chain_induction (P : chain -> Prop)
    (step : forall n kids, Forall P kids -> P (Link n kids)) (c : chain) : P c :=
  match c with
  | Link n kids =>
      step n kids
        ((fix all (l : list chain) : Forall P l :=
            match l with
            | [] => Forall_nil P
            | k :: r => Forall_cons k (chain_induction P step k) (all r)
            end) kids)
  end.

End Evolution.

(* ================================================================== *)
(** ** [get_pokemon_data] *)
(* ================================================================== *)

Module Report.

Import Float Py Evolution.
Local Open Scope string_scope.

Definition POKEAPI_BASE_URL : string := "https://pokeapi.co/api/v2".

(** The fields that the report reads of the provider's payloads; a
    payload is taken to have them.  [stat_name] is
    [stat['stat']['name']], [move_name] and [move_url] are
    [m['move']['name']] and [m['move']['url']]; [det_power],
    [det_accuracy] and [det_pp] are [None] for JSON null;
    [det_effects] holds the [short_effect] of each effect entry. *)
Record stat_slot : Type := {
  stat_name : string;
  base_stat : Z
}.

Record move_ref : Type := {
  move_name : string;
  move_url : string
}.

Record pokemon_payload : Type := {
  pp_id : Z;
  pp_name : string;
  pp_height : Z;
  pp_weight : Z;
  pp_stats : list stat_slot;
  pp_types : list string;
  pp_abilities : list string;
  pp_species_url : string;
  pp_moves : list move_ref
}.

Record move_details : Type := {
  det_name : string;
  det_type : string;
  det_power : option Z;
  det_accuracy : option Z;
  det_pp : option Z;
  det_effects : list string
}.

(** What a request made after the creature was found gives back:
    [NoReply] is the [None] of [_make_api_request] (a request error or
    a bad status) or a falsy payload; [Incomplete] is a payload that
    lacks a key which the source subscripts, on which it raises
    KeyError; [Reply] is a payload with the fields that are read. *)
Inductive reply (A : Type) : Type :=
| NoReply
| Incomplete
| Reply (a : A).
Arguments NoReply {A}.
Arguments Incomplete {A}.
Arguments Reply {A} a.

(** The provider as one call of [get_pokemon_data] sees it: the
    creature at a url ([None] as above; a creature payload is taken to
    have its fields), the evolution-chain url of the species at a url
    (line 82), the chain at a url (lines 84 and 33), and the answer to
    the [i]-th request of the move loop (lines 91-96). *)
Record provider : Type := {
  pokemon_at : string -> option pokemon_payload;
  species_at : string -> reply string;
  chain_at : string -> reply chain;
  move_at : nat -> string -> reply move_details
}.

(** How the call can fail: [next] on an exhausted generator raises
    StopIteration, which a coroutine turns into RuntimeError; a
    subscript with a key that the payload lacks raises KeyError; a true
    division whose result is too large for a float raises
    OverflowError. *)
Inductive failure : Type :=
| RuntimeError
| KeyError
| DivisionOverflow.

Inductive outcome (A : Type) : Type :=
| Done (a : A)
| Fails (f : failure).
Arguments Done {A} a.
Arguments Fails {A} f.

Definition then_ {A B : Type} (m : outcome A) (k : A -> outcome B) : outcome B :=
  match m with
  | Done a => k a
  | Fails f => Fails f
  end.

(** Lines 68-73: the first slot with the given name. *)
Definition named_stat (stats : list stat_slot) (n : string) : outcome Z :=
  match find (fun s => String.eqb (stat_name s) n) stats with
  | Some s => Done (base_stat s)
  | None => Fails RuntimeError
  end.

(** [z / 10] on an int. *)
Definition tenth (z : Z) : outcome float :=
  match fround (inject_Z z / 10)%Q with
  | Finf _ => Fails DivisionOverflow
  | f => Done f
  end.

(** [v or "N/A"] in an f-string: null and 0 are falsy. *)
Definition or_na (v : option Z) : string :=
  match v with
  | Some z => if (z =? 0)%Z then "N/A" else str_of_int z
  | None => "N/A"
  end.

Definition pretty (s : string) : string := title (replace_char "-" " " s).

(** Lines 91-97. *)
Definition describe_move (d : move_details) : string :=
  let move_name := pretty (det_name d) in
  let move_type := capitalize (det_type d) in
  let move_power := or_na (det_power d) in
  let move_accuracy := or_na (det_accuracy d) in
  let move_pp := or_na (det_pp d) in
  let effect :=
    match det_effects d with
    | short_effect :: _ => short_effect
    | [] => "No effect description"
    end in
  move_name ++ " (" ++ move_type ++ ") - Power: " ++ move_power
    ++ ", Accuracy: " ++ move_accuracy ++ ", PP: " ++ move_pp ++ " - " ++ effect.

Section Call.

(** [str] of a float, as an f-string prints it. *)
Variable repr : float -> string.
Variable w : provider.

(** Lines 88-97: one request per listed move, from request [i] on; a
    failed request adds nothing, an incomplete answer stops the call. *)
Fixpoint detailed_moves (i : nat) (refs : list move_ref)
    : outcome (list string) :=
  match refs with
  | [] => Done []
  | move_data :: rest =>
      match move_at w i (move_url move_data) with
      | Reply move_details =>
          then_ (detailed_moves (S i) rest) (fun more =>
          Done (describe_move move_details :: more))
      | NoReply => detailed_moves (S i) rest
      | Incomplete => Fails KeyError
      end
  end.

(** Lines 79-84. *)
Definition evolution_info (p : pokemon_payload) : outcome string :=
  match species_at w (pp_species_url p) with
  | NoReply => Done "None"
  | Incomplete => Fails KeyError
  | Reply chain_url =>
      match chain_at w chain_url with
      | NoReply => Done "None"
      | Incomplete => Fails KeyError
      | Reply chain_data => Done (_parse_evolution_chain chain_data)
      end
  end.

(** Lines 67-127, for a creature that was found. *)
Definition report_of (p : pokemon_payload) : outcome string :=
  let name := capitalize (pp_name p) in
  then_ (named_stat (pp_stats p) "hp") (fun hp =>
  then_ (named_stat (pp_stats p) "attack") (fun attack =>
  then_ (named_stat (pp_stats p) "defense") (fun defense =>
  then_ (named_stat (pp_stats p) "special-attack") (fun special_attack =>
  then_ (named_stat (pp_stats p) "special-defense") (fun special_defense =>
  then_ (named_stat (pp_stats p) "speed") (fun speed =>
  let types := map capitalize (pp_types p) in
  let abilities := map pretty (pp_abilities p) in
  then_ (evolution_info p) (fun evolution_info =>
  then_ (detailed_moves 0 (firstn 5 (pp_moves p))) (fun detailed_moves =>
  let additional_moves :=
    map (fun m => pretty (move_name m)) (firstn 10 (skipn 5 (pp_moves p))) in
  then_ (tenth (pp_height p)) (fun height =>
  then_ (tenth (pp_weight p)) (fun weight =>
  let report :=
    "--- Pokémon Report: " ++ name ++ " ---" ++ newline
    ++ "ID: " ++ str_of_int (pp_id p) ++ newline
    ++ "Types: " ++ String.concat ", " types ++ newline
    ++ "Height: " ++ repr height ++ " m" ++ newline
    ++ "Weight: " ++ repr weight ++ " kg" ++ newline ++ newline
    ++ "Base Stats:" ++ newline
    ++ "  - HP: " ++ str_of_int hp ++ newline
    ++ "  - Attack: " ++ str_of_int attack ++ newline
    ++ "  - Defense: " ++ str_of_int defense ++ newline
    ++ "  - Special Attack: " ++ str_of_int special_attack ++ newline
    ++ "  - Special Defense: " ++ str_of_int special_defense ++ newline
    ++ "  - Speed: " ++ str_of_int speed ++ newline
    ++ "  - Total: "
    ++ str_of_int
         (hp + attack + defense + special_attack + special_defense + speed)%Z
    ++ newline ++ newline
    ++ "Abilities: " ++ String.concat ", " abilities ++ newline ++ newline
    ++ "Evolution Chain: " ++ evolution_info ++ newline ++ newline
    ++ "Notable Moves (with details):" ++ newline in
  let report :=
    fold_left (fun report move => report ++ "  • " ++ move ++ newline)
      detailed_moves report in
  Done
    match additional_moves with
    | [] => report
    | _ :: _ =>
        report ++ newline ++ "Additional Moves: "
          ++ String.concat ", " additional_moves ++ "..."
    end)))))))))).

(** [get_pokemon_data] *)
Definition get_pokemon_data (pokemon_name : string) : outcome string :=
  let pokemon_name := lower pokemon_name in
  if String.eqb pokemon_name "" then
    Done "Error: Pokémon name not specified in the URI. Example: mcp://pokemon-server/pokemon/pikachu"
  else
    match pokemon_at w (POKEAPI_BASE_URL ++ "/pokemon/" ++ pokemon_name) with
    | None =>
        Done ("Error: Could not find data for Pokémon '" ++ pokemon_name
                ++ "'. Please check the spelling.")
    | Some pokemon_data => report_of pokemon_data
    end.

End Call.

End Report.

(* ================================================================== *)
(** ** Notions for stating what the report depends on *)
(* ================================================================== *)

Module ReportProps.

Import Float Py Evolution Report.
Local Open Scope string_scope.

(** The six stats that lines 68-73 look up by name. *)
Definition shown_stats : list string :=
  ["hp"; "attack"; "defense"; "special-attack"; "special-defense"; "speed"].

Definition has_stat (p : pokemon_payload) (n : string) : Prop :=
  In n (map stat_name (pp_stats p)).

(** A payload with other stat slots, or other moves. *)
Definition with_stats (p : pokemon_payload) (stats : list stat_slot)
    : pokemon_payload :=
  {| pp_id := pp_id p; pp_name := pp_name p; pp_height := pp_height p;
     pp_weight := pp_weight p; pp_stats := stats; pp_types := pp_types p;
     pp_abilities := pp_abilities p; pp_species_url := pp_species_url p;
     pp_moves := pp_moves p |}.

Definition with_moves (p : pokemon_payload) (moves : list move_ref)
    : pokemon_payload :=
  {| pp_id := pp_id p; pp_name := pp_name p; pp_height := pp_height p;
     pp_weight := pp_weight p; pp_stats := pp_stats p; pp_types := pp_types p;
     pp_abilities := pp_abilities p; pp_species_url := pp_species_url p;
     pp_moves := moves |}.

(** Two providers that answer alike, except perhaps from the sixth
    request of the move loop on. *)
Definition same_up_to_five (w w' : provider) : Prop :=
  (forall url, pokemon_at w url = pokemon_at w' url)
  /\ (forall url, species_at w url = species_at w' url)
  /\ (forall url, chain_at w url = chain_at w' url)
  /\ (forall i url, (i < 5)%nat -> move_at w i url = move_at w' i url).


(** A string of ASCII characters only; on these, Python's [str.lower],
    [str.capitalize] and [str.title] are the byte maps of [Py]. *)
Fixpoint ascii_only (s : string) : Prop :=
  match s with
  | EmptyString => True
  | String c r => (nat_of_ascii c < 128)%nat /\ ascii_only r
  end.


End ReportProps.

(* ================================================================== *)
(** ** A creature payload and two providers for the report *)
(* ================================================================== *)

Module ReportExamples.

Import Float Py Evolution Report ReportProps.
Local Open Scope string_scope.

(** A stand-in for [str] on floats: one decimal, cut off. *)
Definition one_decimal (f : float) : string :=
  match f with
  | Ffin q =>
      str_of_int (Qfloor q) ++ "."
        ++ str_of_int (Qfloor (q * 10 + (1 # 2))%Q mod 10)
  | Finf _ => "inf"
  | Fnan => "nan"
  end.

Definition pikachu_payload : pokemon_payload :=
  {| pp_id := 25; pp_name := "pikachu"; pp_height := 4; pp_weight := 60;
     pp_stats :=
       [ {| stat_name := "hp"; base_stat := 35 |};
         {| stat_name := "attack"; base_stat := 55 |};
         {| stat_name := "defense"; base_stat := 40 |};
         {| stat_name := "special-attack"; base_stat := 50 |};
         {| stat_name := "special-defense"; base_stat := 50 |};
         {| stat_name := "speed"; base_stat := 90 |} ];
     pp_types := ["electric"];
     pp_abilities := ["static"; "lightning-rod"];
     pp_species_url := "https://pokeapi.co/api/v2/pokemon-species/25/";
     pp_moves :=
       [ {| move_name := "mega-punch";
            move_url := "https://pokeapi.co/api/v2/move/5/" |};
         {| move_name := "thunder-shock";
            move_url := "https://pokeapi.co/api/v2/move/84/" |} ] |}.

Definition thunder_shock_details : move_details :=
  {| det_name := "thunder-shock"; det_type := "electric";
     det_power := Some 40; det_accuracy := Some 100; det_pp := Some 30;
     det_effects := ["Has a 10% chance to paralyze the target."] |}.

(** Only the creature request succeeds. *)
Definition lonely_provider : provider :=
  {| pokemon_at := fun url =>
       if String.eqb url "https://pokeapi.co/api/v2/pokemon/pikachu"
       then Some pikachu_payload else None;
     species_at := fun _ => NoReply;
     chain_at := fun _ => NoReply;
     move_at := fun _ _ => NoReply |}.

(** The same, with an answer from the sixth move request on. *)
Definition late_provider : provider :=
  {| pokemon_at := pokemon_at lonely_provider;
     species_at := fun _ => NoReply;
     chain_at := fun _ => NoReply;
     move_at := fun i _ =>
       if (5 <=? i)%nat then Reply thunder_shock_details else NoReply |}.


End ReportExamples.

(* ================================================================== *)
(** ** Facts about binary64 rounding *)
(* ================================================================== *)

Module FloatFacts.

Import Float Py Props.
Local Open Scope Q_scope.

Lemma pow2_pos k : 0 < pow2 k.
Proof. apply Qpower_0_lt. reflexivity. Qed.

Lemma pow2_add a b : pow2 (a + b) == pow2 a * pow2 b.
Proof. apply Qpower_plus. discriminate. Qed.

Lemma pow2_0 : pow2 0 == 1.
Proof. reflexivity. Qed.

Lemma pow2_succ k : pow2 (k + 1) == 2 * pow2 k.
Proof. rewrite pow2_add. change (pow2 1) with 2. ring. Qed.

Lemma pow2_Z k : (0 <= k)%Z -> pow2 k == inject_Z (2 ^ k).
Proof. intros H. unfold pow2. rewrite Zpower_Qpower by assumption. reflexivity. Qed.

Lemma pow2_le a b : (a <= b)%Z -> pow2 a <= pow2 b.
Proof. intros H. apply Qpower_le_compat_l; [assumption|]. discriminate. Qed.

Lemma pow2_lt_inv a b : pow2 a < pow2 b -> (a < b)%Z.
Proof. intros H. apply (Qpower_lt_compat_l_inv 2); [assumption | reflexivity]. Qed.

Lemma pow2_cancel a : pow2 a * pow2 (- a) == 1.
Proof. rewrite <- pow2_add. replace (a + - a)%Z with 0%Z by lia. reflexivity. Qed.

Lemma quotient_sandwich (q D N a b : Q) :
  0 < a -> 0 < b -> q * D == N ->
  a * b <= N -> N < 2 * (a * b) -> b <= D -> D < 2 * b ->
  a < 2 * q /\ q < 2 * a.
Proof. intros. split; nra. Qed.

Lemma ilog2_spec q : 0 < q -> pow2 (ilog2 q) <= q /\ q < pow2 (ilog2 q + 1).
Proof.
  intros Hq. destruct q as [n d]. unfold ilog2. cbn [Qnum Qden].
  assert (Hn : (0 < n)%Z) by (unfold Qlt in Hq; cbn in Hq; lia).
  set (ln := Z.log2 n). set (ld := Z.log2 (Z.pos d)).
  destruct (Z.log2_spec n Hn) as [Hn1 Hn2]. fold ln in Hn1, Hn2.
  destruct (Z.log2_spec (Z.pos d) (Pos2Z.is_pos d)) as [Hd1 Hd2]. fold ld in Hd1, Hd2.
  assert (Hln : (0 <= ln)%Z) by apply Z.log2_nonneg.
  assert (Hld : (0 <= ld)%Z) by apply Z.log2_nonneg.
  set (k0 := (ln - ld)%Z).
  assert (E : pow2 k0 * pow2 ld == pow2 ln).
  { rewrite <- pow2_add. replace (k0 + ld)%Z with ln by (unfold k0; lia). reflexivity. }
  assert (Hq' : (n # d) * inject_Z (Z.pos d) == inject_Z n).
  { unfold Qeq, Qmult, inject_Z; cbn. lia. }
  assert (HN1 : pow2 k0 * pow2 ld <= inject_Z n).
  { rewrite E, pow2_Z by lia. rewrite <- Zle_Qle. lia. }
  assert (HN2 : inject_Z n < 2 * (pow2 k0 * pow2 ld)).
  { rewrite E, <- pow2_succ, pow2_Z by lia. rewrite <- Zlt_Qlt. lia. }
  assert (HD1 : pow2 ld <= inject_Z (Z.pos d)) by (rewrite pow2_Z by lia; rewrite <- Zle_Qle; lia).
  assert (HD2 : inject_Z (Z.pos d) < 2 * pow2 ld).
  { rewrite <- pow2_succ, pow2_Z by lia. rewrite <- Zlt_Qlt. lia. }
  destruct (quotient_sandwich _ _ _ _ _ (pow2_pos k0) (pow2_pos ld) Hq' HN1 HN2 HD1 HD2)
    as [Hlo Hhi].
  rewrite <- pow2_succ in Hhi.
  destruct (Qle_bool (pow2 k0) (n # d)) eqn:Hb.
  - apply Qle_bool_iff in Hb. split; assumption.
  - replace (k0 - 1 + 1)%Z with k0 by lia. split.
    + assert (E1 : pow2 k0 == 2 * pow2 (k0 - 1)).
      { rewrite <- pow2_succ. replace (k0 - 1 + 1)%Z with k0 by lia. reflexivity. }
      rewrite E1 in Hlo. lra.
    + apply Qnot_le_lt. intros C. apply Qle_bool_iff in C. congruence.
Qed.

Lemma rne_ge x n : inject_Z n <= x -> (n <= rne x)%Z.
Proof.
  intros H. unfold rne.
  assert (Hf : (n <= Qfloor x)%Z).
  { rewrite <- (Qfloor_Z n). apply Qfloor_resp_le. assumption. }
  destruct (Qcompare _ _); [destruct (Z.even _)| |]; lia.
Qed.

Lemma rne_le x n : x <= inject_Z n -> (rne x <= n)%Z.
Proof.
  intros H. unfold rne.
  pose proof (Qfloor_le x) as Hf.
  assert (Hfn : (Qfloor x <= n)%Z).
  { rewrite Zle_Qle. lra. }
  destruct (Z.eq_dec (Qfloor x) n) as [E|E].
  - assert (Hx : x - inject_Z (Qfloor x) < 1 # 2) by (rewrite E in *; lra).
    destruct (Qcompare_spec (x - inject_Z (Qfloor x)) (1 # 2)); [lra | lia | lra].
  - destruct (Qcompare _ _); [destruct (Z.even _)| |]; lia.
Qed.

Lemma round_pos_eq q :
  round_pos q == inject_Z (rne (q * pow2 (- ulp_exp q))) * pow2 (ulp_exp q).
Proof. unfold round_pos. apply Qred_correct. Qed.

Lemma scaled_pow2 j e : pow2 j * pow2 (- e) == pow2 (j - e).
Proof. rewrite <- pow2_add. reflexivity. Qed.

Lemma round_pos_ge_aux q j :
  (ulp_exp q <= j)%Z -> pow2 j <= q -> pow2 j <= round_pos q.
Proof.
  intros He Hq. rewrite round_pos_eq. set (e := ulp_exp q) in *.
  assert (Hm : (2 ^ (j - e) <= rne (q * pow2 (- e)))%Z).
  { apply rne_ge. rewrite <- pow2_Z by lia. rewrite <- scaled_pow2.
    apply Qmult_le_compat_r; [assumption|]. apply Qlt_le_weak, pow2_pos. }
  rewrite Zle_Qle in Hm. rewrite <- pow2_Z in Hm by lia.
  assert (E : pow2 j == pow2 (j - e) * pow2 e).
  { rewrite <- pow2_add. replace (j - e + e)%Z with j by lia. reflexivity. }
  rewrite E. apply Qmult_le_compat_r; [assumption|]. apply Qlt_le_weak, pow2_pos.
Qed.

Lemma ilog2_ge q j : 0 < q -> pow2 j <= q -> (j <= ilog2 q)%Z.
Proof.
  intros Hq Hj. destruct (ilog2_spec q Hq) as [_ H2].
  assert (H : pow2 j < pow2 (ilog2 q + 1)) by lra.
  apply pow2_lt_inv in H. lia.
Qed.

Lemma ilog2_lt q j : 0 < q -> q < pow2 j -> (ilog2 q < j)%Z.
Proof.
  intros Hq Hj. destruct (ilog2_spec q Hq) as [H1 _].
  apply pow2_lt_inv. lra.
Qed.

Lemma round_pos_ge q j :
  0 < q -> (-1074 <= j)%Z -> pow2 j <= q -> pow2 j <= round_pos q.
Proof.
  intros Hq Hj H.
  pose proof (ilog2_ge q j Hq H) as Hk.
  destruct (Z_le_gt_dec (ulp_exp q) j) as [He|He].
  - apply round_pos_ge_aux; assumption.
  - apply Qle_trans with (pow2 (ilog2 q)).
    + apply pow2_le; assumption.
    + apply round_pos_ge_aux.
      * unfold ulp_exp in *. lia.
      * apply ilog2_spec; assumption.
Qed.

Lemma round_pos_le q j :
  0 < q -> (-1074 <= j)%Z -> q <= pow2 j -> round_pos q <= pow2 j.
Proof.
  intros Hq Hj H.
  destruct (Z_le_gt_dec (ulp_exp q) j) as [He|He].
  - rewrite round_pos_eq. set (e := ulp_exp q) in *.
    assert (Hm : (rne (q * pow2 (- e)) <= 2 ^ (j - e))%Z).
    { apply rne_le. rewrite <- pow2_Z by lia. rewrite <- scaled_pow2.
      apply Qmult_le_compat_r; [assumption|]. apply Qlt_le_weak, pow2_pos. }
    rewrite Zle_Qle in Hm. rewrite <- pow2_Z in Hm by lia.
    assert (E : pow2 j == pow2 (j - e) * pow2 e).
    { rewrite <- pow2_add. replace (j - e + e)%Z with j by lia. reflexivity. }
    rewrite E. apply Qmult_le_compat_r; [assumption|]. apply Qlt_le_weak, pow2_pos.
  - exfalso.
    assert (Hk : (j < ilog2 q)%Z) by (unfold ulp_exp in He; lia).
    destruct (ilog2_spec q Hq) as [H1 _].
    assert (Hlt : pow2 j < pow2 (ilog2 q)).
    { apply Qpower_lt_compat_l; [assumption | reflexivity]. }
    lra.
Qed.

Lemma round_pos_nonneg q : 0 < q -> 0 <= round_pos q.
Proof.
  intros Hq. rewrite round_pos_eq.
  apply Qmult_le_0_compat.
  - change 0 with (inject_Z 0). rewrite <- Zle_Qle. apply rne_ge.
    apply Qmult_le_0_compat; [lra|]. apply Qlt_le_weak, pow2_pos.
  - apply Qlt_le_weak, pow2_pos.
Qed.

Lemma fround_pos q :
  0 < q ->
  fround q = if Qle_bool (pow2 1024) (round_pos q) then Finf false
             else Ffin (round_pos q).
Proof.
  intros Hq. unfold fround. destruct q as [n d].
  unfold Qlt in Hq. cbn in Hq. destruct n; try lia. reflexivity.
Qed.

Lemma fround_zero q : q == 0 -> fround q = Ffin 0.
Proof.
  intros Hq. unfold fround. destruct q as [n d].
  unfold Qeq in Hq. cbn in Hq. destruct n; try lia. reflexivity.
Qed.

Lemma fround_nonneg q : 0 <= q -> nonneg (fround q).
Proof.
  intros Hq. destruct (Qeq_dec q 0) as [E|E].
  - rewrite (fround_zero q E). cbn. lra.
  - assert (Hp : 0 < q) by (apply Qle_lteq in Hq; destruct Hq as [?|Hq]; [assumption | symmetry in Hq; contradiction]).
    rewrite (fround_pos q Hp).
    destruct (Qle_bool _ _); cbn; [reflexivity | apply round_pos_nonneg; assumption].
Qed.

Lemma fround_ge q j :
  (-1074 <= j)%Z -> pow2 j <= q ->
  match fround q with
  | Ffin r => pow2 j <= r
  | Finf s => s = false
  | Fnan => False
  end.
Proof.
  intros Hj Hq.
  assert (Hp : 0 < q) by (pose proof (pow2_pos j); lra).
  rewrite (fround_pos q Hp).
  destruct (Qle_bool _ _); [reflexivity | apply round_pos_ge; assumption].
Qed.

Lemma fround_le q j :
  (-1074 <= j <= 1023)%Z -> 0 <= q -> q <= pow2 j -> fin_in 0 (pow2 j) (fround q).
Proof.
  intros Hj H0 Hq. destruct (Qeq_dec q 0) as [E|E].
  - rewrite (fround_zero q E). exists 0. repeat split; [lra | apply Qlt_le_weak, pow2_pos].
  - assert (Hp : 0 < q) by (apply Qle_lteq in H0; destruct H0 as [?|H0]; [assumption | symmetry in H0; contradiction]).
    rewrite (fround_pos q Hp).
    pose proof (round_pos_le q j Hp (proj1 Hj) Hq) as Hr.
    destruct (Qle_bool (pow2 1024) (round_pos q)) eqn:Hb.
    + exfalso. apply Qle_bool_iff in Hb.
      assert (Hlt : pow2 j < pow2 1024).
      { apply Qpower_lt_compat_l; [lia | reflexivity]. }
      lra.
    + exists (round_pos q). repeat split; [apply round_pos_nonneg; assumption | assumption].
Qed.

Lemma rne_Z n : rne (inject_Z n) = n.
Proof.
  apply Z.le_antisymm; [apply rne_le | apply rne_ge]; apply Qle_refl.
Qed.

Lemma rne_comp x y : x == y -> rne x = rne y.
Proof.
  intros E. unfold rne. rewrite (Qfloor_comp x y E).
  assert (Ec : Qcompare (x - inject_Z (Qfloor y)) (1 # 2)
               = Qcompare (y - inject_Z (Qfloor y)) (1 # 2)).
  { apply Qcompare_comp; [rewrite E; reflexivity | reflexivity]. }
  rewrite Ec. reflexivity.
Qed.

(** A value m * 2^e' whose unit in the last place is not above 2^e'
    rounds to itself. *)
Lemma round_pos_exact q m e' :
  q == inject_Z m * pow2 e' -> (ulp_exp q <= e')%Z -> round_pos q == q.
Proof.
  intros Eq He. rewrite round_pos_eq. set (e := ulp_exp q) in *.
  assert (Es : q * pow2 (- e) == inject_Z (m * 2 ^ (e' - e))).
  { rewrite Eq, inject_Z_mult, <- pow2_Z by lia.
    rewrite <- Qmult_assoc, scaled_pow2. reflexivity. }
  rewrite (rne_comp _ _ Es), rne_Z.
  rewrite inject_Z_mult, <- pow2_Z by lia.
  rewrite <- Qmult_assoc, <- pow2_add.
  replace (e' - e + e)%Z with e' by lia. symmetry. exact Eq.
Qed.

Lemma fround_exact q m e' :
  0 < q -> q == inject_Z m * pow2 e' -> (ulp_exp q <= e')%Z -> q < pow2 1024 ->
  fround q = Ffin (Qred q).
Proof.
  intros Hq Eq He Hlt. rewrite (fround_pos q Hq).
  pose proof (round_pos_exact q m e' Eq He) as Er.
  destruct (Qle_bool (pow2 1024) (round_pos q)) eqn:Hb.
  - apply Qle_bool_iff in Hb. rewrite Er in Hb. lra.
  - f_equal. unfold round_pos. apply Qred_complete.
    rewrite <- round_pos_eq. exact Er.
Qed.

Lemma Qfloor_div h d : Qfloor (inject_Z h / inject_Z (Z.pos d)) = (h / Z.pos d)%Z.
Proof.
  assert (E : inject_Z h / inject_Z (Z.pos d) == h # d).
  { rewrite (Qmake_Qdiv h d). reflexivity. }
  rewrite (Qfloor_comp _ _ E). reflexivity.
Qed.

(** On sample operands, among them subnormal results, overflow and
    both signs, multiplication, addition and division agree with the
    standard library's reference implementation of IEEE 754 binary64. *)
Lemma agrees_with_reference :
  Reference.agree_on Reference.ordinary (SFmul 53 1024) fmul = true
  /\ Reference.agree_on Reference.ordinary (SFadd 53 1024) fadd = true
  /\ Reference.agree_div_on Reference.ordinary = true
  /\ Reference.agree_on Reference.extreme (SFmul 53 1024) fmul = true
  /\ Reference.agree_on Reference.extreme (SFadd 53 1024) fadd = true
  /\ Reference.agree_div_on Reference.extreme = true.
Proof.
  split; [vm_compute; reflexivity|].
  split; [vm_compute; reflexivity|].
  split; [vm_compute; reflexivity|].
  split; [vm_compute; reflexivity|].
  split; [vm_compute; reflexivity|].
  vm_compute; reflexivity.
Qed.

End FloatFacts.

(* ================================================================== *)
(** ** The effectiveness chart *)
(* ================================================================== *)

Module ChartFacts.

Import Float Py Chart Props.
Local Open Scope string_scope.

Lemma lookup_In {V} (d : dict V) k v : lookup d k = Some v -> In (k, v) d.
Proof.
  induction d as [|[k' v'] d IH]; cbn; [discriminate|].
  destruct (String.eqb_spec k k') as [->|_].
  - intros [= ->]. now left.
  - intros H. right. now apply IH.
Qed.

Lemma lookup_None {V} (d : dict V) k : lookup d k = None <-> ~ In k (keys d).
Proof.
  induction d as [|[k' v'] d IH]; cbn; [tauto|].
  destruct (String.eqb_spec k k') as [->|Hne].
  - split; [discriminate | tauto].
  - rewrite IH. split; [intros H [E|E]; [congruence|tauto] | tauto].
Qed.

Lemma lookup_Some_keys {V} (d : dict V) k v : lookup d k = Some v -> In k (keys d).
Proof. intros H. apply lookup_In in H. apply (in_map fst) in H. exact H. Qed.

Lemma get_cases {V} (d : dict V) k dflt :
  (lookup d k = None /\ get d k dflt = dflt) \/
  (exists v, lookup d k = Some v /\ get d k dflt = v /\ In v (map snd d)).
Proof.
  unfold get. destruct (lookup d k) as [v|] eqn:E; [right | left; tauto].
  exists v. repeat split. apply lookup_In in E. apply (in_map snd) in E. exact E.
Qed.

Lemma Qsame_eq a b : Qsame a b = true -> a = b.
Proof.
  destruct a, b. unfold Qsame. cbn. intros H.
  apply andb_true_iff in H. destruct H as [H1 H2].
  apply Z.eqb_eq in H1. apply Pos.eqb_eq in H2. congruence.
Qed.

Lemma chart_rows_ok : forallb (fun kv => row_ok (snd kv)) TYPE_EFFECTIVENESS = true.
Proof. vm_compute. reflexivity. Qed.

Lemma row_ok_In row v : row_ok row = true -> In v (map snd row) -> In v multipliers.
Proof.
  unfold row_ok. rewrite forallb_forall. intros H Hv.
  specialize (H v Hv). apply existsb_exists in H. destruct H as [m [Hm E]].
  apply Qsame_eq in E. subst. exact Hm.
Qed.

Lemma chart_row_ok a : row_ok (get TYPE_EFFECTIVENESS a []) = true.
Proof.
  destruct (get_cases TYPE_EFFECTIVENESS a []) as [[_ ->]|[row [H [-> _]]]].
  - reflexivity.
  - pose proof chart_rows_ok as Hc. rewrite forallb_forall in Hc.
    apply (Hc (a, row)). apply lookup_In. exact H.
Qed.

(** Every multiplier read from a row of the chart is 0, 0.5, 1 or 2. *)
Lemma row_entry_in row d : row_ok row = true -> In (get row d 1%Q) multipliers.
Proof.
  intros Hr. destruct (get_cases row d 1%Q) as [[_ ->]|[v [_ [-> Hv]]]].
  - cbn. tauto.
  - eapply row_ok_In; eassumption.
Qed.

Lemma fmul_one v : In v multipliers -> fmul (Ffin 1) (Ffin v) = Ffin v.
Proof.
  cbn. intros [<-|[<-|[<-|[<-|[]]]]]; vm_compute; reflexivity.
Qed.

Lemma fmul_pair v1 v2 :
  In v1 multipliers -> In v2 multipliers ->
  exists q, fmul (Ffin v1) (Ffin v2) = Ffin q /\ (q == v1 * v2)%Q.
Proof.
  cbn. intros [<-|[<-|[<-|[<-|[]]]]] [<-|[<-|[<-|[<-|[]]]]];
    eexists; (split; [vm_compute; reflexivity | reflexivity]).
Qed.

Lemma battle_effectiveness_unfold a tys :
  battle_effectiveness a tys =
  total_effectiveness (get TYPE_EFFECTIVENESS a []) tys.
Proof. reflexivity. Qed.

Lemma total_single row d :
  row_ok row = true -> total_effectiveness row [d] = Ffin (get row d 1%Q).
Proof.
  intros Hr. unfold total_effectiveness, entry. cbn [fold_left]. apply fmul_one. apply row_entry_in; assumption.
Qed.

Lemma total_pair row d1 d2 :
  row_ok row = true ->
  exists q, total_effectiveness row [d1; d2] = Ffin q
            /\ (q == get row d1 1 * get row d2 1)%Q.
Proof.
  intros Hr. unfold total_effectiveness, entry. cbn [fold_left].
  rewrite fmul_one by (apply row_entry_in; assumption).
  apply fmul_pair; apply row_entry_in; assumption.
Qed.

(** C3.  For an attacking element [A] of the chart and one defending
    element [D], the multiplier computed by the battle loop and by the
    breakdown loop is the chart's entry for ([A], [D]), or 1 when [D] is
    not listed; for two defending elements it is the product of the two
    single-element lookups. *)
Theorem effectiveness_is_table_product :
  forall (A : string) (row : dict Q),
    lookup TYPE_EFFECTIVENESS A = Some row ->
    (forall D,
        battle_effectiveness A [D] = Ffin (get row D 1%Q)
        /\ total_effectiveness row [D] = Ffin (get row D 1%Q))
    /\ (forall D1 D2, exists q,
          battle_effectiveness A [D1; D2] = Ffin q
          /\ total_effectiveness row [D1; D2] = Ffin q
          /\ (q == get row D1 1 * get row D2 1)%Q).
Proof.
  intros A row HA.
  assert (Hg : get TYPE_EFFECTIVENESS A [] = row) by (unfold get; rewrite HA; reflexivity).
  assert (Hr : row_ok row = true) by (rewrite <- Hg; apply chart_row_ok).
  split.
  - intros D. rewrite battle_effectiveness_unfold, Hg.
    split; apply total_single; assumption.
  - intros D1 D2. rewrite battle_effectiveness_unfold, Hg.
    destruct (total_pair row D1 D2 Hr) as [q [H1 H2]].
    exists q. auto.
Qed.

Lemma effectiveness_is_table_product_witness :
  lookup TYPE_EFFECTIVENESS "fire"
    = Some [("fire", half); ("water", half); ("grass", 2%Q); ("ice", 2%Q);
            ("bug", 2%Q); ("rock", half); ("steel", 2%Q)]
  /\ battle_effectiveness "fire" ["grass"] = Ffin 2
  /\ exists q, battle_effectiveness "fire" ["grass"; "water"] = Ffin q
               /\ (q == 1)%Q.
Proof.
  split; [reflexivity|].
  destruct (effectiveness_is_table_product "fire" _ eq_refl) as [H1 H2].
  split.
  - exact (proj1 (H1 "grass")).
  - destruct (H2 "grass" "water") as [q [Hq [_ E]]].
    exists q. split; [exact Hq | rewrite E; reflexivity].
Defined.

(* ---------------- C4 ---------------- *)

Lemma total_default tys : total_effectiveness [] tys = Ffin 1.
Proof.
  unfold total_effectiveness.
  induction tys as [|d tys IH]; [reflexivity|].
  cbn [fold_left]. replace (fmul (Ffin 1) (entry [] d)) with (Ffin 1); [exact IH|].
  vm_compute. reflexivity.
Qed.

(** C4, as amended.  [get_type_effectiveness] answers an attacking
    element that is not in the chart with the invalid-type error and
    reads an unlisted defending element as multiplier 1; the battle's
    computation raises no error on an unknown attacking element: it
    yields multiplier 1 against any defender, and also reads an
    unlisted defending element as 1. *)
Theorem unknown_elements :
  (forall a d,
      lookup TYPE_EFFECTIVENESS (lower a) = None ->
      get_type_effectiveness a d
      = "Error: '" ++ lower a ++ "' is not a valid Pokémon type.")
  /\ (forall a d row,
         lookup TYPE_EFFECTIVENESS (lower a) = Some row ->
         lookup row (lower d) = None ->
         get_type_effectiveness a d
         = capitalize (lower a) ++ " vs " ++ capitalize (lower d)
             ++ ": Normal effectiveness (1x damage)")
  /\ (forall move_type defender_types,
         lookup TYPE_EFFECTIVENESS move_type = None ->
         battle_effectiveness move_type defender_types = Ffin 1)
  /\ (forall move_type row d,
         lookup TYPE_EFFECTIVENESS move_type = Some row ->
         lookup row d = None ->
         battle_effectiveness move_type [d] = Ffin 1).
Proof.
  repeat split.
  - intros a d H. unfold get_type_effectiveness. rewrite H. reflexivity.
  - intros a d row H Hd. unfold get_type_effectiveness. rewrite H.
    unfold entry, get. rewrite Hd. reflexivity.
  - intros mt tys H. rewrite battle_effectiveness_unfold.
    unfold get. rewrite H. apply total_default.
  - intros mt row d H Hd. rewrite battle_effectiveness_unfold.
    unfold get at 1. rewrite H. unfold total_effectiveness, entry, get.
    cbn [fold_left]. rewrite Hd. vm_compute. reflexivity.
Qed.

Lemma unknown_elements_witness :
  get_type_effectiveness "Shadow" "fire"
  = "Error: 'shadow' is not a valid Pokémon type."
  /\ get_type_effectiveness "Fire" "Shadow"
     = "Fire vs Shadow: Normal effectiveness (1x damage)"
  /\ battle_effectiveness "shadow" ["fire"; "rock"] = Ffin 1
  /\ battle_effectiveness "fire" ["shadow"] = Ffin 1.
Proof.
  destruct unknown_elements as [H1 [H2 [H3 H4]]].
  split; [exact (H1 "Shadow" "fire" eq_refl)|].
  split; [exact (H2 "Fire" "Shadow" _ eq_refl eq_refl)|].
  split; [exact (H3 "shadow" ["fire"; "rock"] eq_refl)|].
  exact (H4 "fire" _ "shadow" eq_refl eq_refl).
Defined.

(** C4 as stated fails: the battle's computation gives a multiplier,
    not an error, for an attacking element that is not in the chart. *)
Lemma battle_accepts_unknown_attacker :
  lookup TYPE_EFFECTIVENESS "shadow" = None
  /\ battle_effectiveness "shadow" ["fire"] = Ffin 1.
Proof. split; vm_compute; reflexivity. Qed.

(* ---------------- C9 ---------------- *)

Lemma classify_bucket_of t : classify t = Spec.bucket_of t.
Proof.
  unfold classify, Spec.bucket_of.
  destruct (fge t (Ffin 2)); [reflexivity|].
  destruct t as [q| |]; cbn.
  - unfold fle, fgt, flt, feq.
    destruct (Qeq_bool q 0) eqn:E0.
    + apply Qeq_bool_iff in E0.
      assert (Hle : Qle_bool q 0 = true) by (apply Qle_bool_iff; rewrite E0; apply Qle_refl).
      rewrite Hle. cbn. rewrite andb_false_r. reflexivity.
    + rewrite andb_comm. reflexivity.
  - destruct neg; reflexivity.
  - reflexivity.
Qed.

Lemma fold_add_entry tys ks acc :
  weaknesses (fold_left (add_entry tys) ks acc)
    = (weaknesses acc ++ flat_map (weak_of tys) ks)%list
  /\ resistances (fold_left (add_entry tys) ks acc)
    = (resistances acc ++ flat_map (resistant_of tys) ks)%list
  /\ immunities (fold_left (add_entry tys) ks acc)
    = (immunities acc ++ flat_map (immune_of tys) ks)%list.
Proof.
  revert acc. induction ks as [|a ks IH]; intros acc.
  - cbn. rewrite !app_nil_r. auto.
  - cbn [fold_left flat_map]. destruct (IH (add_entry tys acc a)) as [H1 [H2 H3]].
    rewrite H1, H2, H3. unfold add_entry, weak_of, resistant_of, immune_of, total_against.
    destruct (classify _); cbn [weaknesses resistances immunities];
      rewrite <- ?app_assoc; cbn [app]; auto.
Qed.

Lemma breakdown_lists tys :
  weaknesses (type_breakdown tys) = flat_map (weak_of tys) (keys TYPE_EFFECTIVENESS)
  /\ resistances (type_breakdown tys)
     = flat_map (resistant_of tys) (keys TYPE_EFFECTIVENESS)
  /\ immunities (type_breakdown tys)
     = flat_map (immune_of tys) (keys TYPE_EFFECTIVENESS).
Proof. unfold type_breakdown. apply fold_add_entry. Qed.

Lemma in_weak_of tys ks a m :
  In (a, m) (flat_map (weak_of tys) ks)
  <-> In a ks /\ classify (total_against tys a) = Weak m.
Proof.
  rewrite in_flat_map. unfold weak_of. split.
  - intros [x [Hx H]]. destruct (classify (total_against tys x)) eqn:E; cbn in H; try tauto.
    destruct H as [[= -> ->]|[]]. auto.
  - intros [H E]. exists a. rewrite E. cbn. auto.
Qed.

Lemma in_resistant_of tys ks a m :
  In (a, m) (flat_map (resistant_of tys) ks)
  <-> In a ks /\ classify (total_against tys a) = Resistant m.
Proof.
  rewrite in_flat_map. unfold resistant_of. split.
  - intros [x [Hx H]]. destruct (classify (total_against tys x)) eqn:E; cbn in H; try tauto.
    destruct H as [[= -> ->]|[]]. auto.
  - intros [H E]. exists a. rewrite E. cbn. auto.
Qed.

Lemma in_immune_of tys ks a :
  In a (flat_map (immune_of tys) ks)
  <-> In a ks /\ classify (total_against tys a) = Immune.
Proof.
  rewrite in_flat_map. unfold immune_of. split.
  - intros [x [Hx H]]. destruct (classify (total_against tys x)) eqn:E; cbn in H; try tauto.
    destruct H as [-> | []]. auto.
  - intros [H E]. exists a. rewrite E. cbn. auto.
Qed.

Lemma in_fst {A B} (l : list (A * B)) a :
  In a (map fst l) <-> exists m, In (a, m) l.
Proof.
  rewrite in_map_iff. split.
  - intros [[x m] [E H]]. cbn in E. subst. eauto.
  - intros [m H]. exists (a, m). auto.
Qed.

Lemma NoDup_labelled (f : string -> list (string * string)) ks :
  (forall a, f a = [] \/ exists m, f a = [(a, m)]) ->
  NoDup ks -> NoDup (map fst (flat_map f ks)).
Proof.
  intros Hf. induction 1 as [|a ks Hn Hnd IH]; cbn; [constructor|].
  rewrite map_app. destruct (Hf a) as [-> | [m ->]]; cbn; [exact IH|].
  constructor; [|exact IH].
  intros Hin. apply in_map_iff in Hin. destruct Hin as [[x mx] [E Hin]].
  cbn in E. subst x. apply in_flat_map in Hin. destruct Hin as [y [Hy Hin]].
  destruct (Hf y) as [Ey|[my Ey]]; rewrite Ey in Hin; cbn in Hin; [tauto|].
  destruct Hin as [[= -> Em]|[]]. contradiction.
Qed.

Lemma NoDup_plain (f : string -> list string) ks :
  (forall a, f a = [] \/ f a = [a]) ->
  NoDup ks -> NoDup (flat_map f ks).
Proof.
  intros Hf. induction 1 as [|a ks Hn Hnd IH]; cbn; [constructor|].
  destruct (Hf a) as [-> | ->]; cbn; [exact IH|].
  constructor; [|exact IH].
  intros Hin. apply in_flat_map in Hin. destruct Hin as [y [Hy Hin]].
  destruct (Hf y) as [Ey|Ey]; rewrite Ey in Hin; cbn in Hin; [tauto|].
  destruct Hin as [-> | []]. contradiction.
Qed.

Lemma chart_keys_NoDup : NoDup (keys TYPE_EFFECTIVENESS).
Proof.
  cbn. repeat (constructor; [cbn; intros H; repeat (destruct H as [H|H]; [discriminate H|]); exact H|]).
  constructor.
Qed.

(** For any list of defending types the breakdown puts each of the 18
    keys of the chart in the bucket of the float that lines 330-332
    compute for it; no key occurs twice in a bucket or in two
    buckets. *)
Lemma breakdown_by_total :
  forall pokemon_types : list string,
    let b := type_breakdown pokemon_types in
    let universe := keys TYPE_EFFECTIVENESS in
    let bucket a := Spec.bucket_of (total_against pokemon_types a) in
    List.length universe = 18%nat
    /\ NoDup universe
    /\ (forall a m, In (a, m) (weaknesses b) <-> In a universe /\ bucket a = Weak m)
    /\ (forall a m,
           In (a, m) (resistances b) <-> In a universe /\ bucket a = Resistant m)
    /\ (forall a, In a (immunities b) <-> In a universe /\ bucket a = Immune)
    /\ NoDup (map fst (weaknesses b))
    /\ NoDup (map fst (resistances b))
    /\ NoDup (immunities b)
    /\ (forall a,
           ~ (In a (map fst (weaknesses b)) /\ In a (map fst (resistances b)))
           /\ ~ (In a (map fst (weaknesses b)) /\ In a (immunities b))
           /\ ~ (In a (map fst (resistances b)) /\ In a (immunities b))).
Proof.
  intros tys b universe bucket.
  destruct (breakdown_lists tys) as [HW [HR HI]].
  fold b in HW, HR, HI. fold universe in HW, HR, HI.
  assert (W : forall a m, In (a, m) (weaknesses b) <-> In a universe /\ bucket a = Weak m).
  { intros. rewrite HW, in_weak_of, classify_bucket_of. reflexivity. }
  assert (R : forall a m, In (a, m) (resistances b) <-> In a universe /\ bucket a = Resistant m).
  { intros. rewrite HR, in_resistant_of, classify_bucket_of. reflexivity. }
  assert (I : forall a, In a (immunities b) <-> In a universe /\ bucket a = Immune).
  { intros. rewrite HI, in_immune_of, classify_bucket_of. reflexivity. }
  split; [reflexivity|]. split; [apply chart_keys_NoDup|].
  split; [exact W|]. split; [exact R|]. split; [exact I|].
  split.
  { rewrite HW. apply NoDup_labelled; [|apply chart_keys_NoDup].
    intros a. unfold weak_of. destruct (classify _); eauto. }
  split.
  { rewrite HR. apply NoDup_labelled; [|apply chart_keys_NoDup].
    intros a. unfold resistant_of. destruct (classify _); eauto. }
  split.
  { rewrite HI. apply NoDup_plain; [|apply chart_keys_NoDup].
    intros a. unfold immune_of. destruct (classify _); eauto. }
  intros a. rewrite !in_fst. repeat split.
  - intros [[m1 H1] [m2 H2]]. apply W in H1. apply R in H2.
    destruct H1 as [_ H1], H2 as [_ H2]. congruence.
  - intros [[m1 H1] H2]. apply W in H1. apply I in H2.
    destruct H1 as [_ H1], H2 as [_ H2]. congruence.
  - intros [[m1 H1] H2]. apply R in H1. apply I in H2.
    destruct H1 as [_ H1], H2 as [_ H2]. congruence.
Qed.

End ChartFacts.

(* ================================================================== *)
(** ** The damage formula *)
(* ================================================================== *)

Module DamageFacts.

Import Float Py Chart Battle Props Examples FloatFacts ChartFacts.
Local Open Scope Q_scope.

(** *** Signs *)

Lemma nonneg_fin q : 0 <= q -> nonneg (Ffin q).
Proof. intros H. exact H. Qed.

Lemma is_neg_false a : 0 <= a -> is_neg a = false.
Proof.
  intros H. unfold is_neg. apply Qle_bool_iff in H. rewrite H. reflexivity.
Qed.

Lemma fmul_nonneg x y : nonneg x -> nonneg y -> nonneg (fmul x y).
Proof.
  destruct x as [a|s|], y as [b|t|]; cbn; intros Hx Hy; subst; try exact I.
  - apply fround_nonneg. apply Qmult_le_0_compat; assumption.
  - destruct (is_zero a); [exact I|]. cbn. rewrite is_neg_false by assumption. reflexivity.
  - destruct (is_zero b); [exact I|]. cbn. rewrite is_neg_false by assumption. reflexivity.
  - reflexivity.
Qed.


Lemma fdiv_nonneg x b :
  nonneg x -> 0 < b -> exists r, fdiv x (Ffin b) = Some r /\ nonneg r.
Proof.
  intros Hx Hb. unfold fdiv.
  assert (Hz : is_zero b = false).
  { unfold is_zero. destruct (Qeq_bool b 0) eqn:E; [|reflexivity].
    apply Qeq_bool_iff in E. lra. }
  destruct x as [a|s|]; rewrite Hz; eexists; (split; [reflexivity|]); cbn in *.
  - apply fround_nonneg. apply Qle_shift_div_l; [assumption|]. lra.
  - subst. rewrite is_neg_false by lra. reflexivity.
  - exact I.
Qed.

Lemma fround_not_nan q : fround q <> Fnan.
Proof.
  unfold fround. destruct (Qnum q); [discriminate| |];
    destruct (Qle_bool _ _); discriminate.
Qed.

(** [float(z)] of a non-negative int either overflows or is a finite
    non-negative value. *)
Lemma of_int_nonneg z :
  (0 <= z)%Z ->
  of_int z = Raise OverflowError
  \/ exists q, of_int z = Ret (Ffin q) /\ 0 <= q.
Proof.
  intros Hz. unfold of_int.
  assert (H : nonneg (fround (inject_Z z))).
  { apply fround_nonneg. change 0 with (inject_Z 0). rewrite <- Zle_Qle. assumption. }
  pose proof (fround_not_nan (inject_Z z)) as Hn.
  destruct (fround (inject_Z z)) as [q|s|]; [right; eauto | left; reflexivity | congruence].
Qed.

Lemma int_truediv_nonneg a b :
  (0 <= a)%Z -> (0 < b)%Z ->
  int_truediv a b = Raise OverflowError
  \/ exists q, int_truediv a b = Ret (Ffin q) /\ 0 <= q.
Proof.
  intros Ha Hb. unfold int_truediv.
  destruct (Z.eqb_spec b 0) as [E|_]; [lia|].
  assert (H : nonneg (fround (inject_Z a / inject_Z b))).
  { apply fround_nonneg. apply Qle_shift_div_l.
    - change 0 with (inject_Z 0). rewrite <- Zlt_Qlt. assumption.
    - rewrite Qmult_0_l. change 0 with (inject_Z 0). rewrite <- Zle_Qle. assumption. }
  pose proof (fround_not_nan (inject_Z a / inject_Z b)) as Hn.
  destruct (fround _) as [q|s|]; [right; eauto | left; reflexivity | congruence].
Qed.


Lemma Qfloor_nonneg q : 0 <= q -> (0 <= Qfloor q)%Z.
Proof.
  intros H. change 0%Z with (Qfloor 0). apply Qfloor_resp_le. assumption.
Qed.

(** *** The constants of line 233 *)

Lemma const_0_4 : int_truediv 2 5 = Ret (Ffin c04).
Proof. vm_compute. reflexivity. Qed.

Lemma const_2_4 : fadd_int (Ffin c04) 2 = Ret (Ffin c24).
Proof. vm_compute. reflexivity. Qed.

Lemma of_int_50 : of_int 50 = Ret (Ffin 50).
Proof. vm_compute. reflexivity. Qed.

Lemma of_int_2 : of_int 2 = Ret (Ffin 2).
Proof. vm_compute. reflexivity. Qed.

Lemma bind_assoc {A B C} (m : py A) (f : A -> py B) (g : B -> py C) :
  bind (bind m f) g = bind m (fun a => bind (f a) g).
Proof. destruct m; reflexivity. Qed.

Lemma base_damage_pre p a d e :
  base_damage p a d e = (v <- pre_damage p a d e ;; int_of_float v).
Proof.
  unfold base_damage, pre_damage.
  rewrite const_0_4. cbn [bind]. rewrite const_2_4. cbn [bind].
  rewrite !bind_assoc. destruct (fmul_int _ _); cbn [bind]; [|reflexivity..].
  rewrite !bind_assoc. destruct (int_truediv _ _); cbn [bind]; [|reflexivity..].
  rewrite !bind_assoc. reflexivity.
Qed.


Lemma c24_pos : 0 < c24.
Proof. reflexivity. Qed.



(** Every compound multiplier of the chart is non-negative. *)
Lemma multipliers_nonneg v : In v multipliers -> 0 <= v.
Proof. cbn. unfold half. intros [<-|[<-|[<-|[<-|[]]]]]; lra. Qed.

Lemma total_nonneg row tys : row_ok row = true -> nonneg (total_effectiveness row tys).
Proof.
  intros Hr. unfold total_effectiveness.
  assert (H : forall acc, nonneg acc ->
            nonneg (fold_left (fun total d => fmul total (entry row d)) tys acc)).
  { induction tys as [|t tys IH]; intros acc Hacc; cbn [fold_left]; [assumption|].
    apply IH. apply fmul_nonneg; [assumption|].
    unfold entry. cbn. apply multipliers_nonneg. apply row_entry_in. assumption. }
  apply H. cbn. lra.
Qed.

Lemma battle_effectiveness_nonneg a tys : nonneg (battle_effectiveness a tys).
Proof. rewrite battle_effectiveness_unfold. apply total_nonneg, chart_row_ok. Qed.



(** The rounding of binary64 shows in the result: with power 35, attack
    75 and defense 14 the source computes 10, where the same formula
    over the rationals gives 11. *)
Lemma rounding_shows_in_damage :
  base_damage 35 75 14 (Ffin 1) = Ret 10%Z
  /\ Spec.exact_damage 35 75 14 1 false = 11%Z.
Proof. split; vm_compute; reflexivity. Qed.

Lemma pre_damage_shape p a d e v :
  (0 < p)%Z -> (0 < a)%Z -> (0 < d)%Z ->
  pre_damage p a d e = Ret v ->
  exists y, nonneg y /\ v = fadd (fmul y e) (Ffin 2).
Proof.
  intros Hp Ha Hd. unfold pre_damage, fmul_int, fdiv_int, fadd_int.
  destruct (of_int_nonneg p) as [E|[q [E Hq]]]; [lia | rewrite E; discriminate |].
  rewrite E. cbn [bind].
  destruct (int_truediv_nonneg a d) as [E2|[r [E2 Hr]]]; [lia | lia | rewrite E2; discriminate |].
  rewrite E2. cbn [bind]. rewrite of_int_50. cbn [bind].
  assert (Hx : nonneg (fmul (fmul (Ffin c24) (Ffin q)) (Ffin r))).
  { apply fmul_nonneg; [apply fmul_nonneg|]; cbn; try assumption. apply Qlt_le_weak, c24_pos. }
  destruct (fdiv_nonneg _ 50 Hx) as [y [Ey Hy]]; [reflexivity|].
  rewrite Ey. cbn [bind]. rewrite of_int_2. cbn [bind].
  intros [= <-]. exists y. split; [assumption | reflexivity].
Qed.

Lemma Qtrunc_ge q n : (0 <= n)%Z -> inject_Z n <= q -> (n <= Qtrunc q)%Z.
Proof.
  intros Hn H. unfold Qtrunc.
  assert (H0 : 0 <= q).
  { apply Qle_trans with (inject_Z n); [|assumption].
    change 0 with (inject_Z 0). rewrite <- Zle_Qle. assumption. }
  apply Qle_bool_iff in H0. rewrite H0.
  rewrite <- (Qfloor_Z n). apply Qfloor_resp_le. assumption.
Qed.

Lemma pow2_1 : pow2 1 == 2.
Proof. reflexivity. Qed.

(** Adding 2 to a non-negative float and truncating gives at least 2. *)
Lemma plus_two_ge u dmg :
  nonneg u -> int_of_float (fadd u (Ffin 2)) = Ret dmg -> (2 <= dmg)%Z.
Proof.
  destruct u as [q|s|]; cbn [fadd nonneg int_of_float]; intros Hu H; try discriminate.
  pose proof (fround_ge (q + 2) 1) as Hr.
  destruct (fround (q + 2)) as [r|s|]; cbn in H; try discriminate.
  injection H as <-. apply Qtrunc_ge; [lia|].
  apply Qle_trans with (pow2 1); [rewrite pow2_1; apply Qle_refl|].
  apply Hr; [lia | rewrite pow2_1; lra].
Qed.

Lemma burn_drop_ge d d' : (2 <= d)%Z -> burn_drop d = Ret d' -> (1 <= d')%Z.
Proof.
  intros Hd. unfold burn_drop, of_int.
  pose proof (fround_ge (inject_Z d) 1) as Hr.
  destruct (fround (inject_Z d)) as [r|s|]; cbn [bind]; try discriminate.
  assert (H2 : 2 <= r).
  { rewrite <- pow2_1. apply Hr; [lia|]. rewrite pow2_1.
    change 2 with (inject_Z 2). rewrite <- Zle_Qle. assumption. }
  cbn [fmul]. pose proof (fround_ge (r * half) 0) as Hh.
  destruct (fround (r * half)) as [h|s|]; cbn; try discriminate.
  intros [= <-]. apply Qtrunc_ge; [lia|].
  apply Qle_trans with (pow2 0); [apply Qle_refl|].
  apply Hh; [lia|]. change (pow2 0) with 1. unfold half. lra.
Qed.

Lemma feq_zero e : feq e (Ffin 0) = true -> exists q, e = Ffin q /\ q == 0.
Proof.
  destruct e as [q|s|]; cbn; try discriminate.
  intros H. apply Qeq_bool_iff in H. eauto.
Qed.

Lemma is_zero_true q : q == 0 -> is_zero q = true.
Proof. intros H. apply Qeq_bool_iff. assumption. Qed.

(** With effectiveness 0 the truncated value is exactly 2. *)
Lemma immune_damage y e dmg :
  nonneg y -> feq e (Ffin 0) = true ->
  int_of_float (fadd (fmul y e) (Ffin 2)) = Ret dmg -> dmg = 2%Z.
Proof.
  intros Hy He. destruct (feq_zero e He) as [q [-> Hq]].
  destruct y as [a|s|]; cbn [fmul].
  - rewrite (fround_zero (a * q)) by (rewrite Hq; ring).
    vm_compute. congruence.
  - rewrite (is_zero_true q Hq). cbn. discriminate.
  - cbn. discriminate.
Qed.

Lemma burn_drop_2 : burn_drop 2 = Ret 1%Z.
Proof. vm_compute. reflexivity. Qed.

Lemma attack_damage_lower p att def e d :
  (0 < p)%Z -> (0 < attack att)%Z -> (0 < defense def)%Z -> nonneg e ->
  attack_damage p att def e = Ret d ->
  (1 <= d)%Z
  /\ (is_status (status att) "burn"%string = false -> (2 <= d)%Z)
  /\ (feq e (Ffin 0) = true ->
      d = if is_status (status att) "burn"%string then 1%Z else 2%Z).
Proof.
  intros Hp Ha Hd He. unfold attack_damage. rewrite base_damage_pre.
  destruct (pre_damage p (attack att) (defense def) e) as [v| |] eqn:Ev;
    cbn [bind]; try discriminate.
  destruct (pre_damage_shape _ _ _ _ _ Hp Ha Hd Ev) as [y [Hy ->]].
  destruct (int_of_float _) as [d0| |] eqn:Ed0; cbn [bind]; try discriminate.
  assert (H2 : (2 <= d0)%Z).
  { eapply plus_two_ge; [|exact Ed0]. apply fmul_nonneg; assumption. }
  destruct (is_status (status att) "burn"%string).
  - intros Hb. split; [eapply burn_drop_ge; eassumption|].
    split; [discriminate|].
    intros Hz. rewrite (immune_damage _ _ _ Hy Hz Ed0) in Hb.
    rewrite burn_drop_2 in Hb. congruence.
  - intros [= <-]. split; [lia|]. split; [intros _; assumption|].
    intros Hz. eapply immune_damage; eassumption.
Qed.

(** *** Magnitudes: no overflow on data of realistic size *)

Lemma fin_in_weaken lo hi hi' x : hi <= hi' -> fin_in lo hi x -> fin_in lo hi' x.
Proof.
  intros H [q [E [H1 H2]]]. exists q. repeat split; try assumption.
  eapply Qle_trans; eassumption.
Qed.

Lemma mul_le_pow2 a b i j :
  0 <= a -> a <= pow2 i -> 0 <= b -> b <= pow2 j -> a * b <= pow2 (i + j).
Proof.
  intros Ha Hai Hb Hbj. rewrite pow2_add.
  apply Qle_trans with (pow2 i * b).
  - apply Qmult_le_compat_r; assumption.
  - rewrite (Qmult_comm (pow2 i) b), (Qmult_comm (pow2 i) (pow2 j)).
    apply Qmult_le_compat_r; [assumption|]. apply Qlt_le_weak, pow2_pos.
Qed.

Lemma fmul_fin i j x y :
  (-1074 <= i + j <= 1023)%Z ->
  fin_in 0 (pow2 i) x -> fin_in 0 (pow2 j) y -> fin_in 0 (pow2 (i + j)) (fmul x y).
Proof.
  intros Hij [a [-> [Ha1 Ha2]]] [b [-> [Hb1 Hb2]]]. cbn [fmul].
  apply fround_le; [assumption | apply Qmult_le_0_compat; assumption |].
  apply mul_le_pow2; assumption.
Qed.

Lemma fadd_fin i x y :
  (-1074 <= i + 1 <= 1023)%Z ->
  fin_in 0 (pow2 i) x -> fin_in 0 (pow2 i) y -> fin_in 0 (pow2 (i + 1)) (fadd x y).
Proof.
  intros Hi [a [-> [Ha1 Ha2]]] [b [-> [Hb1 Hb2]]]. cbn [fadd].
  apply fround_le; [assumption | lra |]. rewrite pow2_succ. lra.
Qed.

Lemma of_int_fin z i :
  (-1074 <= i <= 1023)%Z -> (0 <= z)%Z -> inject_Z z <= pow2 i ->
  exists f, of_int z = Ret f /\ fin_in 0 (pow2 i) f.
Proof.
  intros Hi Hz Hb. unfold of_int.
  assert (H0 : 0 <= inject_Z z) by (change 0 with (inject_Z 0); rewrite <- Zle_Qle; assumption).
  destruct (fround_le (inject_Z z) i Hi H0 Hb) as [q [E Hq]].
  rewrite E. exists (Ffin q). split; [reflexivity|]. exists q. auto.
Qed.

Lemma int_truediv_fin a b i :
  (-1074 <= i <= 1023)%Z -> (0 <= a)%Z -> (0 < b)%Z -> inject_Z a <= pow2 i ->
  exists f, int_truediv a b = Ret f /\ fin_in 0 (pow2 i) f.
Proof.
  intros Hi Ha Hb Hbound. unfold int_truediv.
  destruct (Z.eqb_spec b 0) as [E|_]; [lia|].
  assert (HB : 1 <= inject_Z b) by (change 1 with (inject_Z 1); rewrite <- Zle_Qle; lia).
  assert (HA : 0 <= inject_Z a) by (change 0 with (inject_Z 0); rewrite <- Zle_Qle; assumption).
  assert (H0 : 0 <= inject_Z a / inject_Z b).
  { apply Qle_shift_div_l; lra. }
  assert (H1 : inject_Z a / inject_Z b <= pow2 i).
  { apply Qle_shift_div_r; [lra|]. pose proof (pow2_pos i). nra. }
  destruct (fround_le _ i Hi H0 H1) as [q [E Hq]].
  rewrite E. exists (Ffin q). split; [reflexivity|]. exists q. auto.
Qed.

Lemma fdiv_50_fin i x :
  (-1074 <= i <= 1023)%Z ->
  fin_in 0 (pow2 i) x -> exists r, fdiv x (Ffin 50) = Some r /\ fin_in 0 (pow2 i) r.
Proof.
  intros Hi [a [-> [Ha1 Ha2]]]. cbn [fdiv].
  change (is_zero 50) with false. cbv iota.
  eexists. split; [reflexivity|].
  apply fround_le; [assumption | |].
  - apply Qle_shift_div_l; lra.
  - apply Qle_shift_div_r; [lra|]. pose proof (pow2_pos i). lra.
Qed.

Lemma int_of_float_fin hi x :
  fin_in 0 hi x ->
  exists d, int_of_float x = Ret d /\ (0 <= d)%Z /\ inject_Z d <= hi.
Proof.
  intros [q [-> [H1 H2]]]. cbn. exists (Qtrunc q). split; [reflexivity|].
  unfold Qtrunc. apply Qle_bool_iff in H1 as Hb. rewrite Hb.
  split; [apply Qfloor_nonneg; assumption|].
  eapply Qle_trans; [apply Qfloor_le | assumption].
Qed.

Lemma Z_le_pow2 z i : (0 <= i)%Z -> (z <= 2 ^ i)%Z -> inject_Z z <= pow2 i.
Proof. intros Hi H. rewrite pow2_Z by assumption. rewrite <- Zle_Qle. assumption. Qed.

Lemma fin_c24 : fin_in 0 (pow2 2) (Ffin c24).
Proof. exists c24. repeat split; vm_compute; discriminate. Qed.

Lemma fin_2 i : (1 <= i)%Z -> fin_in 0 (pow2 i) (Ffin 2).
Proof.
  intros Hi. exists 2. repeat split; [lra|].
  rewrite <- pow2_1. apply pow2_le. assumption.
Qed.

Lemma fin_half : fin_in 0 (pow2 0) (Ffin half).
Proof. exists half. repeat split; vm_compute; discriminate. Qed.

(** On stats and power up to 2^64 and a multiplier up to 2^64, lines
    233-237 raise nothing. *)
Lemma attack_damage_total p att def e :
  (0 < p <= 2 ^ 64)%Z -> (0 < attack att <= 2 ^ 64)%Z -> (0 < defense def)%Z ->
  fin_in 0 (pow2 64) e ->
  exists d, attack_damage p att def e = Ret d.
Proof.
  intros Hp Ha Hd He. unfold attack_damage. rewrite base_damage_pre.
  unfold pre_damage, fmul_int, fdiv_int, fadd_int.
  destruct (of_int_fin p 64) as [fp [Ep Hfp]]; [lia | lia | apply Z_le_pow2; lia |].
  rewrite Ep. cbn [bind].
  destruct (int_truediv_fin (attack att) (defense def) 64) as [fr [Er Hfr]];
    [lia | lia | lia | apply Z_le_pow2; lia |].
  rewrite Er. cbn [bind]. rewrite of_int_50. cbn [bind].
  pose proof (fmul_fin 2 64 _ _ ltac:(lia) fin_c24 Hfp) as Hx.
  pose proof (fmul_fin (2 + 64) 64 _ _ ltac:(lia) Hx Hfr) as Hy.
  destruct (fdiv_50_fin (2 + 64 + 64) _ ltac:(lia) Hy) as [y [Ey Hy']].
  rewrite Ey. cbn [bind]. rewrite of_int_2. cbn [bind].
  pose proof (fmul_fin (2 + 64 + 64) 64 _ _ ltac:(lia) Hy' He) as Hu.
  pose proof (fadd_fin (2 + 64 + 64 + 64) _ _ ltac:(lia) Hu (fin_2 (2 + 64 + 64 + 64) ltac:(lia))) as Hv.
  destruct (int_of_float_fin _ _ Hv) as [d0 [Ed0 [Hd0 Hd0']]].
  rewrite Ed0. cbn [bind].
  destruct (is_status (status att) "burn"%string); [|eauto].
  unfold burn_drop.
  destruct (of_int_fin d0 (2 + 64 + 64 + 64 + 1) ltac:(lia) Hd0 Hd0') as [fd [Efd Hfd]].
  rewrite Efd. cbn [bind].
  pose proof (fmul_fin (2 + 64 + 64 + 64 + 1) 0 _ _ ltac:(lia) Hfd fin_half) as Hb.
  destruct (int_of_float_fin _ _ Hb) as [d1 [Ed1 _]]. eauto.
Qed.

Lemma entry_fin row d : row_ok row = true -> fin_in 0 (pow2 1) (entry row d).
Proof.
  intros Hr. unfold entry. exists (get row d 1). split; [reflexivity|].
  pose proof (row_entry_in row d Hr) as Hin.
  cbn in Hin. unfold half in Hin.
  destruct Hin as [<-|[<-|[<-|[<-|[]]]]]; split; vm_compute; discriminate.
Qed.

Lemma total_fin row tys :
  row_ok row = true -> (Z.of_nat (List.length tys) <= 1023)%Z ->
  fin_in 0 (pow2 (Z.of_nat (List.length tys))) (total_effectiveness row tys).
Proof.
  intros Hr. unfold total_effectiveness.
  assert (H : forall (n : Z) acc,
            (0 <= n)%Z -> (n + Z.of_nat (List.length tys) <= 1023)%Z ->
            fin_in 0 (pow2 n) acc ->
            fin_in 0 (pow2 (n + Z.of_nat (List.length tys)))
              (fold_left (fun total d => fmul total (entry row d)) tys acc)).
  { induction tys as [|t tys IH]; intros n acc Hn Hlen Hacc.
    - cbn [fold_left List.length]. replace (n + Z.of_nat 0)%Z with n by lia. assumption.
    - cbn [fold_left]. cbn [List.length] in *.
      replace (n + Z.of_nat (S (List.length tys)))%Z
        with ((n + 1) + Z.of_nat (List.length tys))%Z by lia.
      apply IH; [lia | lia |].
      apply fmul_fin; [lia | assumption | apply entry_fin; assumption]. }
  intros Hlen. apply (H 0%Z); [lia | lia |].
  exists 1. repeat split; vm_compute; discriminate.
Qed.

Lemma battle_effectiveness_fin a tys :
  (List.length tys <= 64)%nat -> fin_in 0 (pow2 64) (battle_effectiveness a tys).
Proof.
  intros Hlen. rewrite battle_effectiveness_unfold.
  apply fin_in_weaken with (pow2 (Z.of_nat (List.length tys))).
  - apply pow2_le. lia.
  - apply total_fin; [apply chart_row_ok | lia].
Qed.

(** Line 260 on a base HP below 2^53 is the integer quotient by 8. *)
Lemma status_damage_of_small h :
  (0 <= h < 2 ^ 53)%Z -> status_damage_of h = Ret (h / 8)%Z.
Proof.
  intros Hh. unfold status_damage_of, int_truediv. cbn [Z.eqb].
  destruct (Z.eq_dec h 0) as [->|Hne]; [vm_compute; reflexivity|].
  set (q := inject_Z h / inject_Z 8).
  assert (HQ : 0 < inject_Z h) by (change 0 with (inject_Z 0); rewrite <- Zlt_Qlt; lia).
  assert (Hq : 0 < q)
    by (apply Qlt_shift_div_l; [reflexivity | rewrite Qmult_0_l; exact HQ]).
  assert (Hlt : q < pow2 50).
  { apply Qlt_shift_div_r; [reflexivity|].
    assert (H53 : inject_Z h < inject_Z (2 ^ 53)) by (rewrite <- Zlt_Qlt; lia).
    change (pow2 50 * inject_Z 8) with (inject_Z (2 ^ 53)). exact H53. }
  assert (Eq : q == inject_Z h * pow2 (-3)).
  { unfold q. change (pow2 (-3)) with (/ inject_Z 8). reflexivity. }
  assert (He : (ulp_exp q <= -3)%Z).
  { unfold ulp_exp. pose proof (ilog2_lt q 50 Hq Hlt). lia. }
  assert (Hbig : q < pow2 1024).
  { apply Qlt_trans with (pow2 50); [exact Hlt|].
    apply Qpower_lt_compat_l; [lia | reflexivity]. }
  rewrite (fround_exact q h (-3) Hq Eq He Hbig). cbn [bind int_of_float].
  f_equal. unfold Qtrunc.
  assert (H0 : Qle_bool 0 (Qred q) = true).
  { apply Qle_bool_iff. rewrite Qred_correct. apply Qlt_le_weak. exact Hq. }
  rewrite H0, (Qfloor_comp _ _ (Qred_correct q)). apply Qfloor_div.
Qed.

End DamageFacts.

(* ================================================================== *)
(** ** The battle loop *)
(* ================================================================== *)

Module BattleFacts.

Import Float Py Chart Battle Props Examples FloatFacts ChartFacts DamageFacts.
Local Open Scope Z_scope.
Local Open Scope string_scope.

(** *** The record updates *)

Ltac split_battle b :=
  let p1 := fresh "p1" in
  let p2 := fresh "p2" in
  let first := fresh "first" in
  destruct b as [p1 p2 first ? ? ? ?]; destruct first.

Ltac record_simpl :=
  cbn [attacker defender with_attacker with_defender say next_roll with_tries
       swap_roles pokemon1 pokemon2 attacker_is_1 turn battle_log n_roll n_try
       set_hp set_status name hp attack defense speed types moves status
       flow_state negb] in *.

Lemma say_opt_cases b o : say_opt b o = b \/ exists e, say_opt b o = say b e.
Proof. destruct o; cbn; eauto. Qed.

Lemma select_move_inv w tries urls n m n' :
  select_move w tries urls n = Ret (m, n') ->
  (n < n')%nat /\ exists p, mv_power m = Some p /\ 0 < p.
Proof.
  revert n. induction tries as [|tries IH]; intros n; cbn [select_move]; [discriminate|].
  destruct urls as [|u urls]; [discriminate|].
  destruct (provider w n _) as [| |mv].
  - intros H. apply IH in H. destruct H as [H1 H2]. split; [lia | exact H2].
  - discriminate.
  - destruct (mv_power mv) as [p|] eqn:Ep.
    + destruct (Z.ltb_spec 0 p) as [Hp|Hp].
      * intros [= <- <-]. split; [lia | eauto].
      * intros H. apply IH in H. destruct H as [H1 H2]. split; [lia | exact H2].
    + intros H. apply IH in H. destruct H as [H1 H2]. split; [lia | exact H2].
Qed.

Lemma select_move_power w tries urls n m n' :
  select_move w tries urls n = Ret (m, n') -> 0 < power_of m.
Proof.
  intros H. apply select_move_inv in H. destruct H as [_ [p [E Hp]]].
  unfold power_of. rewrite E. exact Hp.
Qed.

Lemma attacker_say b e : attacker (say b e) = attacker b.
Proof. split_battle b; reflexivity. Qed.
Lemma defender_say b e : defender (say b e) = defender b.
Proof. split_battle b; reflexivity. Qed.
Lemma attacker_say_opt b o : attacker (say_opt b o) = attacker b.
Proof. destruct o; [apply attacker_say | reflexivity]. Qed.
Lemma defender_say_opt b o : defender (say_opt b o) = defender b.
Proof. destruct o; [apply defender_say | reflexivity]. Qed.
Lemma attacker_with_tries b n : attacker (with_tries b n) = attacker b.
Proof. split_battle b; reflexivity. Qed.
Lemma defender_with_tries b n : defender (with_tries b n) = defender b.
Proof. split_battle b; reflexivity. Qed.
Lemma attacker_next_roll b : attacker (next_roll b) = attacker b.
Proof. split_battle b; reflexivity. Qed.
Lemma defender_next_roll b : defender (next_roll b) = defender b.
Proof. split_battle b; reflexivity. Qed.
Lemma attacker_with_defender b d : attacker (with_defender b d) = attacker b.
Proof. split_battle b; reflexivity. Qed.
Lemma defender_with_defender b d : defender (with_defender b d) = d.
Proof. split_battle b; reflexivity. Qed.
Lemma attacker_with_attacker b a : attacker (with_attacker b a) = a.
Proof. split_battle b; reflexivity. Qed.
Lemma defender_with_attacker b a : defender (with_attacker b a) = defender b.
Proof. split_battle b; reflexivity. Qed.

Create Rewrite HintDb roles.
#[local] Hint Rewrite attacker_say defender_say attacker_say_opt defender_say_opt
  attacker_with_tries defender_with_tries attacker_next_roll defender_next_roll
  attacker_with_defender defender_with_defender attacker_with_attacker
  defender_with_attacker : roles.

Lemma attacker_after_hit b move n' damage :
  attacker (after_hit b move n' damage) = attacker b.
Proof. unfold after_hit. cbn zeta. autorewrite with roles. reflexivity. Qed.

Lemma defender_after_hit b move n' damage :
  defender (after_hit b move n' damage)
  = set_hp (defender b) (hp (defender b) - damage).
Proof. unfold after_hit. cbn zeta. autorewrite with roles. reflexivity. Qed.

Lemma after_hit_eq b move n' damage :
  after_hit b move n' damage
  = say (with_defender
           (say_opt
              (say (with_tries b n')
                 (EvUsed (name (attacker b))
                    (title (replace_char "-" " " (mv_name move)))))
              (effectiveness_note
                 (battle_effectiveness (mv_type move) (types (defender b)))
                 (name (defender b))))
           (set_hp (defender b) (hp (defender b) - damage)))
      (EvDamage (name (defender b)) damage (Z.max 0 (hp (defender b) - damage))).
Proof. unfold after_hit. cbn zeta. autorewrite with roles. reflexivity. Qed.

Lemma attack_phase_inv w tries b r :
  attack_phase w tries b = Ret r ->
  exists move n' damage,
    select_move w tries (moves (attacker b)) (n_try b) = Ret (move, n')
    /\ attack_damage (power_of move) (attacker b) (defender b)
         (battle_effectiveness (mv_type move) (types (defender b)))
       = Ret damage
    /\ let b1 := after_hit b move n' damage in
       (hp (defender b) - damage <= 0
        /\ r = Break (say b1 (EvFainted (name (defender b)))))
       \/ (0 < hp (defender b) - damage
           /\ exists b2, apply_ailment w move b1 = Ret b2 /\ r = Next b2).
Proof.
  unfold attack_phase.
  destruct (select_move w tries (moves (attacker b)) (n_try b)) as [[move n']| |] eqn:Es;
    cbn [bind]; try discriminate.
  autorewrite with roles.
  destruct (attack_damage _ _ _ _) as [damage| |] eqn:Edmg; cbn [bind]; try discriminate.
  intros H. exists move, n', damage. split; [reflexivity|]. split; [exact Edmg|].
  cbn zeta. rewrite after_hit_eq. cbn [hp name set_hp] in H.
  destruct (Z.leb_spec (hp (defender b) - damage) 0) as [Hle|Hgt].
  - left. split; [assumption|]. injection H as <-. reflexivity.
  - right. split; [assumption|].
    destruct (apply_ailment w move _) as [b2| |] eqn:Eail; cbn [bind] in H; try discriminate.
    injection H as <-. exists b2. split; [reflexivity | reflexivity].
Qed.

Lemma apply_ailment_inv w move b b' :
  apply_ailment w move b = Ret b' ->
  b' = b
  \/ exists meta c threshold,
       mv_meta move = Some meta
       /\ status (defender b) = None
       /\ inflictable (ailment meta) = true
       /\ of_int (ailment_chance meta) = Ret c
       /\ fdiv c (Ffin 100) = Some threshold
       /\ ((flt (Ffin (rolls w (n_roll b))) threshold = false
            /\ b' = next_roll b)
           \/ (flt (Ffin (rolls w (n_roll b))) threshold = true
               /\ b' = say (with_defender (next_roll b)
                              (set_status (defender b) (ailment meta)))
                         (EvAfflicted (name (defender b)) (ailment meta)))).
Proof.
  unfold apply_ailment.
  destruct (mv_meta move) as [meta|]; [|intros [= <-]; now left].
  destruct (status (defender b)) as [s|] eqn:Es; [intros [= <-]; now left|].
  destruct (inflictable (ailment meta)) eqn:Ei; [|intros [= <-]; now left].
  destruct (of_int (ailment_chance meta)) as [c| |] eqn:Ec; cbn [bind]; try discriminate.
  destruct (fdiv c (Ffin 100)) as [thr|] eqn:Et; try discriminate.
  autorewrite with roles. cbn [name set_status].
  destruct (flt _ thr) eqn:Ef; intros [= <-]; right; exists meta, c, thr;
    repeat (split; [reflexivity || assumption|]); [right | left];
    (split; [assumption | reflexivity]).
Qed.

Lemma status_tick_inv d1 d2 b r :
  status_tick d1 d2 b = Ret r ->
  (r = Next b
   /\ forall s, status (attacker b) = Some s -> s <> "poison" /\ s <> "burn")
  \/ exists s m sd,
       status (attacker b) = Some s
       /\ (s = "poison" \/ s = "burn")
       /\ original_max_hp d1 d2 b = Ret m
       /\ status_damage_of m = Ret sd
       /\ let b1 :=
            say (with_attacker b (set_hp (attacker b) (hp (attacker b) - sd)))
              (EvStatusDamage (name (attacker b)) sd s) in
          (hp (attacker b) - sd <= 0
           /\ r = Break (say b1 (EvFainted (name (attacker b)))))
          \/ (0 < hp (attacker b) - sd /\ r = Next b1).
Proof.
  unfold status_tick.
  destruct (status (attacker b)) as [s|] eqn:Es.
  2:{ intros [= <-]. left. split; [reflexivity | discriminate]. }
  destruct (String.eqb_spec s "poison") as [Ep|Ep];
    [|destruct (String.eqb_spec s "burn") as [Eb|Eb]]; cbn [orb].
  3:{ intros [= <-]. left. split; [reflexivity|]. intros s' [= <-]. auto. }
  all: destruct (original_max_hp d1 d2 b) as [m| |] eqn:Em; cbn [bind]; try discriminate.
  all: destruct (status_damage_of m) as [sd| |] eqn:Esd; cbn [bind]; try discriminate.
  all: cbn [hp name set_hp]; intros H; right; exists s, m, sd.
  all: split; [reflexivity|]; split; [tauto|];
    split; [first [reflexivity | assumption]|];
    split; [first [reflexivity | assumption]|].
  all: cbn zeta; destruct (Z.leb_spec (hp (attacker b) - sd) 0) as [Hle|Hgt];
    injection H as <-; [left | right]; split; (assumption || reflexivity).
Qed.

Lemma status_damage_nonneg m sd : 0 <= m -> status_damage_of m = Ret sd -> 0 <= sd.
Proof.
  intros Hm. unfold status_damage_of.
  destruct (int_truediv_nonneg m 8 Hm) as [E|[q [E Hq]]]; [lia | rewrite E; discriminate |].
  rewrite E. cbn. intros [= <-]. unfold Qtrunc.
  apply Qle_bool_iff in Hq as Hb. rewrite Hb. apply Qfloor_nonneg. assumption.
Qed.

Lemma action_inv w tries b r :
  action w tries b = Ret r ->
  (status (attacker b) = Some "paralysis"
   /\ (rolls w (n_roll b) < 1 # 4)%Q
   /\ r = Next (say (next_roll b) (EvParalyzed (name (attacker b)))))
  \/ (status (attacker b) = Some "paralysis"
      /\ (1 # 4 <= rolls w (n_roll b))%Q
      /\ attack_phase w tries (next_roll b) = Ret r)
  \/ (status (attacker b) <> Some "paralysis"
      /\ attack_phase w tries b = Ret r).
Proof.
  unfold action, is_status.
  destruct (status (attacker b)) as [s|] eqn:Es; cbn [option_eqb].
  2:{ intros H. right. right. split; [discriminate | assumption]. }
  destruct (String.eqb_spec s "paralysis") as [->|Hne].
  2:{ intros H. right. right. split; [congruence | assumption]. }
  autorewrite with roles.
  destruct (Qle_bool (1 # 4) (rolls w (n_roll b))) eqn:Eq; cbn [negb].
  - intros H. right. left. split; [reflexivity|]. split; [|assumption].
    apply Qle_bool_iff. assumption.
  - intros [= <-]. left. split; [reflexivity|]. split; [|reflexivity].
    apply Qnot_le_lt. intros C. apply Qle_bool_iff in C. congruence.
Qed.

Lemma turn_body_inv w d1 d2 tries b r :
  turn_body w d1 d2 tries b = Ret r ->
  exists r1,
    action w tries (say b (EvTurn (turn b))) = Ret r1
    /\ ((exists bb, r1 = Break bb /\ r = Break bb)
        \/ exists bb r2,
             r1 = Next bb /\ status_tick d1 d2 bb = Ret r2
             /\ ((exists bc, r2 = Break bc /\ r = Break bc)
                 \/ exists bc, r2 = Next bc /\ r = Next (swap_roles bc))).
Proof.
  unfold turn_body.
  destruct (action w tries _) as [r1| |]; cbn [bind]; try discriminate.
  intros H. exists r1. split; [reflexivity|].
  destruct r1 as [bb|bb].
  - right. destruct (status_tick d1 d2 bb) as [r2| |] eqn:Et; cbn [bind] in H; try discriminate.
    exists bb, r2. split; [reflexivity|]. split; [exact Et|].
    destruct r2 as [bc|bc]; injection H as <-; [right | left]; eauto.
  - left. injection H as <-. eauto.
Qed.

(** *** What every statement of the loop preserves *)

Lemma same_stats_refl p : same_stats p p.
Proof. repeat split. Qed.

Lemma same_stats_trans p q r : same_stats p q -> same_stats q r -> same_stats p r.
Proof. unfold same_stats. intuition congruence. Qed.

Lemma status_step_refl s : status_step s s.
Proof. now left. Qed.

Lemma status_step_trans s t u : status_step s t -> status_step t u -> status_step s u.
Proof.
  intros [->|[-> [a [-> Ha]]]] [->|[E [c [-> Hc]]]].
  - now left.
  - right. eauto.
  - right. eauto.
  - discriminate.
Qed.

Lemma evolves_refl P b : evolves P b b.
Proof.
  split; [|intros _; split; lia].
  repeat split; try apply status_step_refl; try lia.
  exists []. rewrite app_nil_r. split; [reflexivity | constructor].
Qed.

Lemma evolves_trans P a b c : evolves P a b -> evolves P b c -> evolves P a c.
Proof.
  intros [[S1 [S2 [T1 [T2 [R [N [l [El Hl]]]]]]]] H]
         [[S1' [S2' [T1' [T2' [R' [N' [l' [El' Hl']]]]]]]] H'].
  split.
  2:{ intros HP. destruct (H HP), (H' HP). split; lia. }
  split; [eapply same_stats_trans; eassumption|].
  split; [eapply same_stats_trans; eassumption|].
  split; [eapply status_step_trans; eassumption|].
  split; [eapply status_step_trans; eassumption|].
  split; [lia|]. split; [lia|].
  exists (l ++ l')%list. split.
  - rewrite El', El, app_assoc. reflexivity.
  - apply Forall_app. auto.
Qed.

Lemma evolves_weaken (P Q : Prop) b b' : (Q -> P) -> evolves P b b' -> evolves Q b b'.
Proof. intros HQ [F H]. split; auto. Qed.

Lemma evolves_say P b e : shown_ok e -> evolves P b (say b e).
Proof.
  intros He. destruct b.
  split; [|intros _; split; cbn; lia].
  repeat split; try apply status_step_refl; cbn; try lia.
  exists [e]. split; [reflexivity | constructor; [assumption | constructor]].
Qed.

Lemma evolves_say_opt P b eff who :
  evolves P b (say_opt b (effectiveness_note eff who)).
Proof.
  unfold effectiveness_note.
  destruct (fgt _ _); [apply evolves_say; exact I|].
  destruct (_ && _); [apply evolves_say; exact I|].
  destruct (feq _ _); [apply evolves_say; exact I | apply evolves_refl].
Qed.

Lemma evolves_next_roll P b : evolves P b (next_roll b).
Proof.
  destruct b. split; [|intros _; split; cbn; lia].
  repeat split; try apply status_step_refl; cbn; try lia.
  exists []. rewrite app_nil_r. split; [reflexivity | constructor].
Qed.

Lemma evolves_with_tries P b n : (n_try b <= n)%nat -> evolves P b (with_tries b n).
Proof.
  intros Hn. destruct b. split; [|intros _; split; cbn; lia].
  repeat split; try apply status_step_refl; cbn in *; try lia.
  exists []. rewrite app_nil_r. split; [reflexivity | constructor].
Qed.

Lemma evolves_swap P b : evolves P b (swap_roles b).
Proof.
  destruct b. split; [|intros _; split; cbn; lia].
  repeat split; try apply status_step_refl; cbn; try lia.
  exists [EvBlank]. split; [reflexivity | constructor; [exact I | constructor]].
Qed.

Lemma evolves_with_defender (P : Prop) b d :
  same_stats (defender b) d -> status_step (status (defender b)) (status d) ->
  (P -> hp d <= hp (defender b)) ->
  evolves P b (with_defender b d).
Proof.
  intros Hs Ht Hh. split_battle b; cbn in *;
    (split; [|intros HP; specialize (Hh HP); split; cbn; lia]);
    repeat split; cbn; try apply status_step_refl; try apply Hs; try assumption; try lia;
    exists []; rewrite app_nil_r; (split; [reflexivity | constructor]).
Qed.

Lemma evolves_with_attacker (P : Prop) b a :
  same_stats (attacker b) a -> status_step (status (attacker b)) (status a) ->
  (P -> hp a <= hp (attacker b)) ->
  evolves P b (with_attacker b a).
Proof.
  intros Hs Ht Hh. split_battle b; cbn in *;
    (split; [|intros HP; specialize (Hh HP); split; cbn; lia]);
    repeat split; cbn; try apply status_step_refl; try apply Hs; try assumption; try lia;
    exists []; rewrite app_nil_r; (split; [reflexivity | constructor]).
Qed.

Lemma evolves_after_hit (P : Prop) b move n' damage :
  (n_try b <= n')%nat -> (P -> 0 <= damage) ->
  evolves P b (after_hit b move n' damage).
Proof.
  intros Hn Hd. rewrite after_hit_eq.
  eapply evolves_trans; [|apply evolves_say; cbn; lia].
  eapply evolves_trans;
    [|apply evolves_with_defender; autorewrite with roles;
      [repeat split | apply status_step_refl | intros HP; specialize (Hd HP); cbn; lia]].
  eapply evolves_trans; [|apply evolves_say_opt].
  eapply evolves_trans; [|apply evolves_say; exact I].
  apply evolves_with_tries. assumption.
Qed.

Lemma evolves_apply_ailment P w move b b' :
  apply_ailment w move b = Ret b' -> evolves P b b'.
Proof.
  intros H. apply apply_ailment_inv in H.
  destruct H as [->|[meta [c [thr [_ [Es [Ei [_ [_ [[_ ->]|[_ ->]]]]]]]]]]].
  - apply evolves_refl.
  - apply evolves_next_roll.
  - eapply evolves_trans; [|apply evolves_say; exact I].
    eapply evolves_trans; [apply evolves_next_roll|].
    apply evolves_with_defender; autorewrite with roles.
    + repeat split.
    + right. split; [assumption|]. exists (ailment meta). split; [reflexivity | assumption].
    + intros _. cbn. lia.
Qed.

Lemma positive_roles b :
  positive_stats b -> 0 < attack (attacker b) /\ 0 < defense (defender b).
Proof. unfold positive_stats. split_battle b; cbn; tauto. Qed.

Lemma evolves_attack_phase w tries b r :
  attack_phase w tries b = Ret r ->
  evolves (positive_stats b) b (flow_state r).
Proof.
  intros H. apply attack_phase_inv in H.
  destruct H as [move [n' [damage [Hsel [Hdmg H]]]]]. cbn zeta in H.
  assert (Hhit : evolves (positive_stats b) b (after_hit b move n' damage)).
  { apply evolves_after_hit.
    - apply select_move_inv in Hsel. lia.
    - intros HP. apply positive_roles in HP. destruct HP as [Ha Hd].
      pose proof (select_move_power _ _ _ _ _ _ Hsel) as Hp.
      pose proof (attack_damage_lower _ _ _ _ _ Hp Ha Hd
                    (battle_effectiveness_nonneg _ _) Hdmg) as [H1 _]. lia. }
  destruct H as [[_ ->]|[_ [b2 [Hail ->]]]]; cbn [flow_state].
  - eapply evolves_trans; [exact Hhit | apply evolves_say; exact I].
  - eapply evolves_trans; [exact Hhit | eapply evolves_apply_ailment; eassumption].
Qed.

Lemma evolves_action w tries b r :
  action w tries b = Ret r -> evolves (positive_stats b) b (flow_state r).
Proof.
  intros H. apply action_inv in H.
  destruct H as [[_ [_ ->]]|[[_ [_ H]]|[_ H]]]; cbn [flow_state].
  - eapply evolves_trans; [apply evolves_next_roll | apply evolves_say; exact I].
  - eapply evolves_trans; [apply evolves_next_roll|].
    apply evolves_attack_phase in H.
    eapply evolves_weaken; [|exact H]. destruct b; cbn; tauto.
  - eapply evolves_attack_phase. eassumption.
Qed.

Lemma original_max_hp_ok d1 d2 b m :
  base_hp_ok d1 -> base_hp_ok d2 -> original_max_hp d1 d2 b = Ret m -> 0 <= m.
Proof.
  intros H1 H2. unfold original_max_hp. destruct (pokemon_eqb _ _); auto.
Qed.

Lemma evolves_status_tick d1 d2 b r :
  status_tick d1 d2 b = Ret r ->
  evolves (base_hp_ok d1 /\ base_hp_ok d2) b (flow_state r).
Proof.
  intros H. apply status_tick_inv in H.
  destruct H as [[-> _]|[s [m [sd [_ [_ [Hm [Hsd H]]]]]]]]; [apply evolves_refl|].
  cbn zeta in H.
  assert (Hb1 : evolves (base_hp_ok d1 /\ base_hp_ok d2) b
            (say (with_attacker b (set_hp (attacker b) (hp (attacker b) - sd)))
               (EvStatusDamage (name (attacker b)) sd s))).
  { eapply evolves_trans; [|apply evolves_say; exact I].
    apply evolves_with_attacker.
    - repeat split.
    - apply status_step_refl.
    - intros [H1 H2]. cbn.
      pose proof (status_damage_nonneg m sd (original_max_hp_ok _ _ _ _ H1 H2 Hm) Hsd). lia. }
  destruct H as [[_ ->]|[_ ->]]; cbn [flow_state]; [|exact Hb1].
  eapply evolves_trans; [exact Hb1 | apply evolves_say; exact I].
Qed.

Lemma frame_positive b b' : frame b b' -> positive_stats b -> positive_stats b'.
Proof.
  intros [[_ [A1 [D1 _]]] [[_ [A2 [D2 _]]] _]]. unfold positive_stats.
  rewrite A1, D1, A2, D2. tauto.
Qed.

Lemma evolves_turn_body w d1 d2 tries b r :
  turn_body w d1 d2 tries b = Ret r ->
  evolves (sound_data d1 d2 b) b (flow_state r).
Proof.
  intros H. apply turn_body_inv in H. destruct H as [r1 [Hact H]].
  apply evolves_action in Hact.
  assert (H0 : evolves (sound_data d1 d2 b) b (flow_state r1)).
  { eapply evolves_trans; [apply (evolves_say _ b (EvTurn (turn b))); exact I|].
    eapply evolves_weaken; [|exact Hact]. unfold sound_data. destruct b; cbn; tauto. }
  destruct H as [[bb [-> ->]]|[bb [r2 [-> [Htick H]]]]]; [exact H0|].
  apply evolves_status_tick in Htick.
  assert (H1 : evolves (sound_data d1 d2 b) b (flow_state r2)).
  { eapply evolves_trans; [exact H0|].
    eapply evolves_weaken; [|exact Htick]. unfold sound_data. tauto. }
  destruct H as [[bc [-> ->]]|[bc [-> ->]]]; cbn [flow_state] in *; [exact H1|].
  eapply evolves_trans; [exact H1 | apply evolves_swap].
Qed.

Lemma evolves_battle_loop w d1 d2 tries fuel b b' :
  battle_loop w d1 d2 tries fuel b = Ret b' ->
  evolves (sound_data d1 d2 b) b b'.
Proof.
  revert b. induction fuel as [|fuel IH]; intros b; cbn [battle_loop].
  - destruct (both_standing b); [discriminate|]. intros [= <-]. apply evolves_refl.
  - destruct (both_standing b); [|intros [= <-]; apply evolves_refl].
    destruct (turn_body w d1 d2 tries b) as [r| |] eqn:Et; cbn [bind]; try discriminate.
    apply evolves_turn_body in Et.
    destruct r as [b1|b1]; cbn [flow_state] in Et.
    + intros H. apply IH in H.
      eapply evolves_trans; [exact Et|].
      eapply evolves_weaken; [|exact H].
      unfold sound_data. intros [HP HB]. split; [|exact HB].
      eapply frame_positive; [apply Et | exact HP].
    + intros [= <-]. exact Et.
Qed.

(** *** Who is hit, and who is standing *)

Lemma flag_say b e : attacker_is_1 (say b e) = attacker_is_1 b.
Proof. destruct b; reflexivity. Qed.
Lemma flag_say_opt b o : attacker_is_1 (say_opt b o) = attacker_is_1 b.
Proof. destruct o; [apply flag_say | reflexivity]. Qed.
Lemma flag_with_tries b n : attacker_is_1 (with_tries b n) = attacker_is_1 b.
Proof. destruct b; reflexivity. Qed.
Lemma flag_next_roll b : attacker_is_1 (next_roll b) = attacker_is_1 b.
Proof. destruct b; reflexivity. Qed.
Lemma flag_with_defender b d : attacker_is_1 (with_defender b d) = attacker_is_1 b.
Proof. destruct b; reflexivity. Qed.
Lemma flag_with_attacker b a : attacker_is_1 (with_attacker b a) = attacker_is_1 b.
Proof. destruct b; reflexivity. Qed.

#[local] Hint Rewrite flag_say flag_say_opt flag_with_tries flag_next_roll
  flag_with_defender flag_with_attacker : roles.

Lemma flag_after_hit b move n' damage :
  attacker_is_1 (after_hit b move n' damage) = attacker_is_1 b.
Proof. rewrite after_hit_eq. autorewrite with roles. reflexivity. Qed.

Lemma apply_ailment_roles w move b b' :
  apply_ailment w move b = Ret b' ->
  attacker_is_1 b' = attacker_is_1 b /\ attacker b' = attacker b
  /\ hp (defender b') = hp (defender b).
Proof.
  intros H. apply apply_ailment_inv in H.
  destruct H as [->|[meta [c [thr [_ [_ [_ [_ [_ [[_ ->]|[_ ->]]]]]]]]]]];
    autorewrite with roles; auto.
Qed.

(** An attack leaves the attacker as it was and takes the damage from
    the defender's HP; the loop breaks exactly when that HP is not
    positive any more. *)
Lemma attack_phase_roles w tries b r :
  attack_phase w tries b = Ret r ->
  exists move n' damage,
    select_move w tries (moves (attacker b)) (n_try b) = Ret (move, n')
    /\ attack_damage (power_of move) (attacker b) (defender b)
         (battle_effectiveness (mv_type move) (types (defender b)))
       = Ret damage
    /\ attacker_is_1 (flow_state r) = attacker_is_1 b
    /\ attacker (flow_state r) = attacker b
    /\ hp (defender (flow_state r)) = hp (defender b) - damage
    /\ match r with
       | Break _ => hp (defender b) - damage <= 0
       | Next _ => 0 < hp (defender b) - damage
       end.
Proof.
  intros H. apply attack_phase_inv in H.
  destruct H as [move [n' [damage [Hsel [Hdmg H]]]]]. cbn zeta in H.
  exists move, n', damage. split; [assumption|]. split; [assumption|].
  destruct H as [[Hle ->]|[Hgt [b2 [Hail ->]]]]; cbn [flow_state].
  - autorewrite with roles.
    rewrite flag_after_hit, attacker_after_hit, defender_after_hit. cbn. auto.
  - apply apply_ailment_roles in Hail. destruct Hail as [E1 [E2 E3]].
    rewrite E1, E2, E3, flag_after_hit, attacker_after_hit, defender_after_hit. cbn. auto.
Qed.

Lemma status_tick_roles d1 d2 b r :
  status_tick d1 d2 b = Ret r ->
  attacker_is_1 (flow_state r) = attacker_is_1 b
  /\ defender (flow_state r) = defender b
  /\ exists sd,
       hp (attacker (flow_state r)) = hp (attacker b) - sd
       /\ (sd = 0
           \/ exists m, original_max_hp d1 d2 b = Ret m /\ status_damage_of m = Ret sd)
       /\ match r with
          | Break _ => hp (attacker b) - sd <= 0
          | Next _ => r = Next b \/ 0 < hp (attacker b) - sd
          end.
Proof.
  intros H. apply status_tick_inv in H.
  destruct H as [[-> _]|[s [m [sd [_ [_ [Hm [Hsd H]]]]]]]].
  - cbn. repeat split. exists 0. split; [lia|]. split; auto.
  - cbn zeta in H. destruct H as [[Hle ->]|[Hgt ->]]; cbn [flow_state];
      autorewrite with roles; (split; [reflexivity|]); (split; [reflexivity|]);
      exists sd; cbn; (split; [reflexivity|]); split; eauto.
Qed.

Lemma standing_roles b :
  both_standing b = true <-> 0 < hp (attacker b) /\ 0 < hp (defender b).
Proof.
  unfold both_standing. rewrite andb_true_iff, !Z.ltb_lt.
  split_battle b; cbn; tauto.
Qed.

Lemma exactly_one_roles b :
  exactly_one b
  <-> (0 < hp (attacker b) /\ hp (defender b) <= 0)
      \/ (hp (attacker b) <= 0 /\ 0 < hp (defender b)).
Proof. unfold exactly_one. split_battle b; cbn; tauto. Qed.

Lemma standing_swap b : both_standing (swap_roles b) = both_standing b.
Proof. destruct b; reflexivity. Qed.

Lemma action_roles w tries b r :
  both_standing b = true ->
  action w tries b = Ret r ->
  match r with
  | Break b' => exactly_one b'
  | Next b' => both_standing b' = true
  end.
Proof.
  intros Hs H. apply standing_roles in Hs. destruct Hs as [Ha Hd].
  apply action_inv in H.
  destruct H as [[_ [_ ->]]|[[_ [_ H]]|[_ H]]].
  - apply standing_roles. autorewrite with roles. auto.
  - apply attack_phase_roles in H.
    destruct H as [move [n' [damage [_ [_ [_ [E1 [E2 H]]]]]]]].
    autorewrite with roles in *.
    destruct r as [b'|b']; cbn [flow_state] in *.
    + apply standing_roles. rewrite E1, E2. lia.
    + apply exactly_one_roles. left. rewrite E1, E2. lia.
  - apply attack_phase_roles in H.
    destruct H as [move [n' [damage [_ [_ [_ [E1 [E2 H]]]]]]]].
    destruct r as [b'|b']; cbn [flow_state] in *.
    + apply standing_roles. rewrite E1, E2. lia.
    + apply exactly_one_roles. left. rewrite E1, E2. lia.
Qed.

Lemma status_tick_outcome d1 d2 b r :
  both_standing b = true ->
  status_tick d1 d2 b = Ret r ->
  match r with
  | Break b' => exactly_one b'
  | Next b' => both_standing b' = true
  end.
Proof.
  intros Hs H. pose proof Hs as Hs'. apply standing_roles in Hs. destruct Hs as [Ha Hd].
  apply status_tick_roles in H. destruct H as [_ [E1 [sd [E2 [_ H]]]]].
  destruct r as [b'|b']; cbn [flow_state] in *.
  - destruct H as [[= ->]|H]; [assumption|].
    apply standing_roles. rewrite E1, E2. lia.
  - apply exactly_one_roles. right. rewrite E1, E2. lia.
Qed.

(** A turn that starts with both standing ends the loop with exactly
    one standing, or hands both standing to the next turn. *)
Lemma turn_body_outcome w d1 d2 tries b r :
  both_standing b = true ->
  turn_body w d1 d2 tries b = Ret r ->
  match r with
  | Break b' => exactly_one b'
  | Next b' => both_standing b' = true
  end.
Proof.
  intros Hs H. apply turn_body_inv in H. destruct H as [r1 [Hact H]].
  apply action_roles in Hact; [|destruct b; exact Hs].
  destruct H as [[bb [-> ->]]|[bb [r2 [-> [Htick H]]]]]; [exact Hact|].
  apply status_tick_outcome in Htick; [|exact Hact].
  destruct H as [[bc [-> ->]]|[bc [-> ->]]]; [exact Htick|].
  rewrite standing_swap. exact Htick.
Qed.

Lemma battle_loop_outcome w d1 d2 tries fuel b b' :
  both_standing b = true ->
  battle_loop w d1 d2 tries fuel b = Ret b' ->
  exactly_one b'.
Proof.
  revert b. induction fuel as [|fuel IH]; intros b Hs; cbn [battle_loop]; rewrite Hs;
    [discriminate|].
  destruct (turn_body w d1 d2 tries b) as [r| |] eqn:Et; cbn [bind]; try discriminate.
  apply turn_body_outcome in Et; [|exact Hs].
  destruct r as [b1|b1].
  - apply IH. exact Et.
  - intros [= <-]. exact Et.
Qed.

(** *** More fuel changes nothing *)

Lemma select_move_mono w t t' urls n x :
  (t <= t')%nat -> select_move w t urls n = Ret x -> select_move w t' urls n = Ret x.
Proof.
  revert t' n. induction t as [|t IH]; intros t' n Ht; cbn [select_move]; [discriminate|].
  destruct t' as [|t']; [lia|]. cbn [select_move].
  destruct urls as [|u urls]; [auto|].
  destruct (provider w n _) as [| |mv]; [apply IH; lia | auto |].
  destruct (mv_power mv) as [p|]; [|apply IH; lia].
  destruct (0 <? p)%Z; [auto | apply IH; lia].
Qed.

Lemma attack_phase_mono w t t' b r :
  (t <= t')%nat -> attack_phase w t b = Ret r -> attack_phase w t' b = Ret r.
Proof.
  intros Ht. unfold attack_phase.
  destruct (select_move w t _ _) as [x| |] eqn:Es; cbn [bind]; try discriminate.
  rewrite (select_move_mono _ _ _ _ _ _ Ht Es). cbn [bind]. auto.
Qed.

Lemma action_mono w t t' b r :
  (t <= t')%nat -> action w t b = Ret r -> action w t' b = Ret r.
Proof.
  intros Ht. unfold action.
  destruct (is_status _ _); [destruct (negb _); [auto|]|]; apply attack_phase_mono; assumption.
Qed.

Lemma turn_body_mono w d1 d2 t t' b r :
  (t <= t')%nat -> turn_body w d1 d2 t b = Ret r -> turn_body w d1 d2 t' b = Ret r.
Proof.
  intros Ht. unfold turn_body.
  destruct (action w t _) as [x| |] eqn:Ea; cbn [bind]; try discriminate.
  rewrite (action_mono _ _ _ _ _ Ht Ea). cbn [bind]. auto.
Qed.

Lemma battle_loop_mono w d1 d2 t t' f f' b b' :
  (t <= t')%nat -> (f <= f')%nat ->
  battle_loop w d1 d2 t f b = Ret b' -> battle_loop w d1 d2 t' f' b = Ret b'.
Proof.
  intros Ht. revert f' b. induction f as [|f IH]; intros f' b Hf; cbn [battle_loop].
  - destruct (both_standing b) eqn:Hs; [discriminate|].
    intros H. destruct f'; cbn [battle_loop]; rewrite Hs; exact H.
  - destruct f' as [|f']; [lia|]. cbn [battle_loop].
    destruct (both_standing b); [|auto].
    destruct (turn_body w d1 d2 t b) as [r| |] eqn:Et; cbn [bind]; try discriminate.
    rewrite (turn_body_mono _ _ _ _ _ _ _ Ht Et). cbn [bind].
    destruct r; [apply IH; lia | auto].
Qed.

(** *** A turn on realistic data raises nothing *)

Lemma select_move_provided w tries urls n m n' :
  select_move w tries urls n = Ret (m, n') ->
  exists k url, provider w k url = Payload m.
Proof.
  revert n. induction tries as [|tries IH]; intros n; cbn [select_move]; [discriminate|].
  destruct urls as [|u urls]; [discriminate|].
  destruct (provider w n _) as [| |mv] eqn:Ep; [apply IH | discriminate |].
  destruct (mv_power mv) as [p|]; [|apply IH].
  destruct (0 <? p)%Z; [|apply IH].
  intros [= <- <-]. eauto.
Qed.

Lemma sane_roles w b :
  runnable w b ->
  sane_pokemon (attacker b) /\ sane_pokemon (defender b)
  /\ resolver_terminates w (moves (attacker b)).
Proof. unfold runnable. split_battle b; cbn; tauto. Qed.

Lemma apply_ailment_total w move b :
  sane_move move -> exists b', apply_ailment w move b = Ret b'.
Proof.
  intros [_ Hm]. unfold apply_ailment.
  destruct (mv_meta move) as [meta|]; [|eauto].
  destruct (status (defender b)); [eauto|].
  destruct (inflictable _); [|eauto].
  destruct (of_int_fin (ailment_chance meta) 64) as [c [Ec Hc]];
    [lia | apply (Hm meta eq_refl) | apply Z_le_pow2; [lia | apply (Hm meta eq_refl)] |].
  rewrite Ec. cbn [bind].
  destruct Hc as [q [-> _]]. cbn [fdiv].
  change (is_zero 100) with false. cbv iota.
  destruct (flt _ _); eauto.
Qed.

Lemma attack_phase_total w b :
  sane_provider w -> runnable w b ->
  exists tries r, attack_phase w tries b = Ret r.
Proof.
  intros Hw Hb. apply sane_roles in Hb. destruct Hb as [[Ha _] [[_ [Hd Ht]] Hsel]].
  destruct (Hsel (n_try b)) as [tries [move [n' Es]]].
  exists tries. unfold attack_phase. rewrite Es. cbn [bind].
  autorewrite with roles.
  destruct (select_move_provided _ _ _ _ _ _ Es) as [k [url Hp]].
  pose proof (Hw _ _ _ Hp) as Hm.
  pose proof (select_move_inv _ _ _ _ _ _ Es) as [_ [p [Epow Hpos]]].
  destruct (attack_damage_total (power_of move) (attacker b) (defender b)
              (battle_effectiveness (mv_type move) (types (defender b))))
    as [damage Ed].
  - unfold power_of. rewrite Epow. split; [assumption | apply (proj1 Hm); assumption].
  - assumption.
  - assumption.
  - apply battle_effectiveness_fin. assumption.
  - rewrite Ed. cbn [bind]. destruct (_ <=? 0)%Z; [eauto|].
    destruct (apply_ailment_total w move
                (say (with_defender
                   (say_opt
                      (say (with_tries b n')
                         (EvUsed (name (attacker b))
                            (title (replace_char "-" " " (mv_name move)))))
                      (effectiveness_note
                         (battle_effectiveness (mv_type move) (types (defender b)))
                         (name (defender b))))
                   (set_hp (defender b) (hp (defender b) - damage)))
                (EvDamage (name (set_hp (defender b) (hp (defender b) - damage)))
                   damage
                   (Z.max 0 (hp (set_hp (defender b) (hp (defender b) - damage))))))
                Hm) as [b' Eb].
    rewrite Eb. cbn [bind]. eauto.
Qed.

Lemma runnable_frame w b b' : frame b b' -> runnable w b -> runnable w b'.
Proof.
  intros [[_ [A1 [D1 [_ [T1 M1]]]]] [[_ [A2 [D2 [_ [T2 M2]]]]] _]].
  unfold runnable, sane_pokemon. rewrite A1, D1, T1, M1, A2, D2, T2, M2. tauto.
Qed.

Lemma runnable_positive w b : runnable w b -> positive_stats b.
Proof. unfold runnable, sane_pokemon, positive_stats. intuition lia. Qed.

Lemma status_damage_total h :
  0 <= h <= 2 ^ 64 -> exists sd, status_damage_of h = Ret sd.
Proof.
  intros Hh. unfold status_damage_of.
  destruct (int_truediv_fin h 8 64) as [f [E Hf]];
    [lia | lia | lia | apply Z_le_pow2; lia |].
  rewrite E. cbn [bind].
  destruct (int_of_float_fin _ _ Hf) as [d [Ed _]]. eauto.
Qed.

Lemma status_tick_total d1 d2 b :
  sane_base d1 -> sane_base d2 -> exists r, status_tick d1 d2 b = Ret r.
Proof.
  intros [h1 [E1 H1]] [h2 [E2 H2]]. unfold status_tick.
  destruct (status (attacker b)) as [s|]; [|eauto].
  destruct (_ || _); [|eauto].
  assert (Hm : exists m, original_max_hp d1 d2 b = Ret m /\ 0 <= m <= 2 ^ 64).
  { unfold original_max_hp. destruct (pokemon_eqb _ _); eauto. }
  destruct Hm as [m [Em Hm]]. rewrite Em. cbn [bind].
  destruct (status_damage_total m Hm) as [sd Esd]. rewrite Esd. cbn [bind].
  destruct (_ <=? 0)%Z; eauto.
Qed.

Lemma action_total w b :
  sane_provider w -> runnable w b -> exists tries r, action w tries b = Ret r.
Proof.
  intros Hw Hb. unfold action.
  destruct (is_status _ _).
  - destruct (negb _); [exists O; eauto|].
    apply attack_phase_total; [assumption|].
    eapply runnable_frame; [apply (evolves_next_roll True) | assumption].
  - apply attack_phase_total; assumption.
Qed.

Lemma sane_base_ok d : sane_base d -> base_hp_ok d.
Proof. intros [h [E H]] h' E'. rewrite E in E'. injection E' as <-. lia. Qed.

Lemma turn_body_total w d1 d2 b :
  sane_provider w -> sane_base d1 -> sane_base d2 -> runnable w b ->
  exists tries r, turn_body w d1 d2 tries b = Ret r.
Proof.
  intros Hw H1 H2 Hb. unfold turn_body.
  destruct (action_total w (say b (EvTurn (turn b))) Hw) as [tries [r Ea]].
  { eapply runnable_frame; [apply (evolves_say True); exact I | assumption]. }
  exists tries. rewrite Ea. cbn [bind].
  destruct r as [bb|bb]; [|eauto].
  destruct (status_tick_total d1 d2 bb H1 H2) as [r2 Et]. rewrite Et. cbn [bind].
  destruct r2; eauto.
Qed.

(** *** Every turn that is not lost to paralysis takes HP away *)

Lemma total_hp_roles b : total_hp b = hp (attacker b) + hp (defender b).
Proof. unfold total_hp. split_battle b; cbn; lia. Qed.

Lemma hp_down_total b b' : hp_down b b' -> total_hp b' <= total_hp b.
Proof. unfold hp_down, total_hp. lia. Qed.

Lemma attack_phase_progress w tries b r :
  positive_stats b ->
  attack_phase w tries b = Ret r -> total_hp (flow_state r) < total_hp b.
Proof.
  intros HP H. apply attack_phase_roles in H.
  destruct H as [move [n' [damage [Hsel [Hdmg [_ [Ea [Ed _]]]]]]]].
  rewrite !total_hp_roles, Ea, Ed.
  apply positive_roles in HP. destruct HP as [Hatt Hdef].
  pose proof (select_move_power _ _ _ _ _ _ Hsel) as Hp.
  pose proof (attack_damage_lower _ _ _ _ _ Hp Hatt Hdef
                (battle_effectiveness_nonneg _ _) Hdmg) as [H1 _]. lia.
Qed.

Lemma turn_progress w d1 d2 tries b r :
  sound_data d1 d2 b ->
  turn_body w d1 d2 tries b = Ret r ->
  total_hp (flow_state r) < total_hp b
  \/ ((rolls w (n_roll b) < 1 # 4)%Q
      /\ n_roll (flow_state r) = S (n_roll b)
      /\ exists b1, r = Next b1).
Proof.
  intros Hsound H. pose proof Hsound as [HP [HB1 HB2]].
  apply turn_body_inv in H. destruct H as [r1 [Hact H]].
  set (b0 := say b (EvTurn (turn b))) in *.
  assert (HP0 : positive_stats b0) by (destruct b; exact HP).
  assert (Ht0 : total_hp b0 = total_hp b) by (destruct b; reflexivity).
  apply action_inv in Hact.
  assert (Hrest : total_hp (flow_state r1) < total_hp b ->
                  total_hp (flow_state r) < total_hp b).
  { intros Hlt.
    destruct H as [[bb [-> ->]]|[bb [r2 [-> [Htick H]]]]]; [exact Hlt|].
    apply evolves_status_tick in Htick. destruct Htick as [_ Hdown].
    specialize (Hdown (conj HB1 HB2)). apply hp_down_total in Hdown.
    cbn [flow_state] in Hlt.
    destruct H as [[bc [-> ->]]|[bc [-> ->]]]; cbn [flow_state] in *; [lia|].
    destruct bc; unfold total_hp in *; cbn in *. lia. }
  destruct Hact as [[Hpar [Hroll ->]]|[[_ [_ Hatk]]|[_ Hatk]]].
  - right. replace (n_roll b0) with (n_roll b) in Hroll by (destruct b; reflexivity).
    split; [exact Hroll|].
    destruct H as [[bb [[=] _]]|[bb [r2 [[= <-] [Htick H]]]]].
    apply status_tick_inv in Htick.
    destruct Htick as [[-> _]|[s [m [sd [Es [Hs _]]]]]].
    + destruct H as [[bc [[=] _]]|[bc [[= <-] ->]]].
      split; [destruct b; reflexivity | eauto].
    + autorewrite with roles in Es. rewrite Hpar in Es. injection Es as <-.
      destruct Hs; discriminate.
  - left. apply Hrest. apply attack_phase_progress in Hatk.
    + rewrite <- Ht0. destruct b0; exact Hatk.
    + destruct b0; exact HP0.
  - left. apply Hrest. apply attack_phase_progress in Hatk; [lia | exact HP0].
Qed.

(** *** The loop terminates *)

Lemma standing_total b : both_standing b = true -> 0 < total_hp b.
Proof.
  unfold both_standing, total_hp. rewrite andb_true_iff, !Z.ltb_lt. lia.
Qed.

Lemma battle_loop_terminates w d1 d2 :
  sane_provider w -> fair_rolls w -> sane_base d1 -> sane_base d2 ->
  forall (N : nat) (b : battle),
    total_hp b <= Z.of_nat N -> runnable w b ->
    exists tries fuel b', battle_loop w d1 d2 tries fuel b = Ret b'.
Proof.
  intros Hw Hfair H1 H2.
  induction N as [|N IHN]; intros b HN Hb.
  - exists O, O, b. cbn [battle_loop].
    destruct (both_standing b) eqn:Hs; [|reflexivity].
    apply standing_total in Hs. lia.
  - destruct (Hfair (n_roll b)) as [j Hj].
    revert b HN Hb Hj. induction j as [|j IHj]; intros b HN Hb Hj.
    + destruct (both_standing b) eqn:Hs.
      2:{ exists O, O, b. cbn [battle_loop]. rewrite Hs. reflexivity. }
      destruct (turn_body_total w d1 d2 b Hw H1 H2 Hb) as [t1 [r Et]].
      assert (Hsound : sound_data d1 d2 b).
      { split; [eapply runnable_positive; eassumption|].
        split; apply sane_base_ok; assumption. }
      pose proof (evolves_turn_body _ _ _ _ _ _ Et) as [Hframe Hdown].
      destruct (turn_progress _ _ _ _ _ _ Hsound Et) as [Hlt|[Hroll _]].
      2:{ rewrite Nat.add_0_r in Hj. exfalso. apply (Qlt_not_le _ _ Hroll Hj). }
      destruct r as [b1|b1]; cbn [flow_state] in *.
      * destruct (IHN b1) as [t2 [f2 [b' E2]]];
          [lia | eapply runnable_frame; eassumption |].
        exists (Nat.max t1 t2), (S f2), b'. cbn [battle_loop]. rewrite Hs.
        rewrite (turn_body_mono _ _ _ t1 (Nat.max t1 t2) _ _ (Nat.le_max_l _ _) Et).
        cbn [bind].
        apply (battle_loop_mono _ _ _ t2 _ f2 f2); [apply Nat.le_max_r | lia | exact E2].
      * exists t1, 1%nat, b1. cbn [battle_loop]. rewrite Hs, Et. reflexivity.
    + destruct (both_standing b) eqn:Hs.
      2:{ exists O, O, b. cbn [battle_loop]. rewrite Hs. reflexivity. }
      destruct (turn_body_total w d1 d2 b Hw H1 H2 Hb) as [t1 [r Et]].
      assert (Hsound : sound_data d1 d2 b).
      { split; [eapply runnable_positive; eassumption|].
        split; apply sane_base_ok; assumption. }
      pose proof (evolves_turn_body _ _ _ _ _ _ Et) as [Hframe Hdown].
      specialize (Hdown Hsound). apply hp_down_total in Hdown.
      assert (Hnext : forall b1, r = Next b1 ->
                exists t2 f2 b', battle_loop w d1 d2 t2 f2 b1 = Ret b').
      { intros b1 ->. cbn [flow_state] in *.
        destruct (turn_progress _ _ _ _ _ _ Hsound Et) as [Hlt|[Hroll [Hn _]]].
        - apply IHN; [cbn [flow_state] in Hlt; lia | eapply runnable_frame; eassumption].
        - cbn [flow_state] in Hn. apply IHj.
          + lia.
          + eapply runnable_frame; eassumption.
          + rewrite Hn. replace (S (n_roll b) + j)%nat with (n_roll b + S j)%nat by lia.
            exact Hj. }
      destruct r as [b1|b1].
      * destruct (Hnext b1 eq_refl) as [t2 [f2 [b' E2]]].
        exists (Nat.max t1 t2), (S f2), b'. cbn [battle_loop]. rewrite Hs.
        rewrite (turn_body_mono _ _ _ t1 (Nat.max t1 t2) _ _ (Nat.le_max_l _ _) Et).
        cbn [bind].
        apply (battle_loop_mono _ _ _ t2 _ f2 f2); [apply Nat.le_max_r | lia | exact E2].
      * exists t1, 1%nat, b1. cbn [battle_loop]. rewrite Hs, Et. reflexivity.
Qed.

(** *** From the payloads to the first turn *)

Lemma start_sane w d1 d2 n1 n2 :
  sane_payload d1 -> sane_payload d2 ->
  resolver_terminates w (usable_urls d1) ->
  resolver_terminates w (usable_urls d2) ->
  exists b0,
    start d1 d2 n1 n2 = Ret b0
    /\ runnable w b0 /\ both_standing b0 = true
    /\ sane_base d1 /\ sane_base d2.
Proof.
  intros [h1 [a1 [f1 [s1 [E10 [E11 [E12 [E15 [Hh1 [Ha1 [Hf1 Ht1]]]]]]]]]]]
         [h2 [a2 [f2 [s2 [E20 [E21 [E22 [E25 [Hh2 [Ha2 [Hf2 Ht2]]]]]]]]]]] R1 R2.
  unfold start, make_pokemon.
  rewrite E10, E11, E12, E15, E20, E21, E22, E25. cbn [bind].
  eexists. split; [reflexivity|].
  split; [|split; [|split]].
  - unfold runnable, sane_pokemon. cbn. auto 10.
  - unfold both_standing. cbn. apply andb_true_iff. rewrite !Z.ltb_lt. lia.
  - exists h1. split; [assumption | lia].
  - exists h2. split; [assumption | lia].
Qed.

Lemma winner_stands b : exactly_one b -> 0 < hp (winner b).
Proof.
  unfold exactly_one, winner. intros [[H1 H2]|[H1 H2]].
  - apply Z.ltb_lt in H1. rewrite H1. apply Z.ltb_lt. assumption.
  - destruct (Z.ltb_spec 0 (hp (pokemon1 b))); [lia | assumption].
Qed.

(** C1, as amended.  For creature payloads with positive HP, attack
    and defense of realistic size and a provider with realistic move
    data, if the Action Resolver's selection loop terminates on each
    turn and the paralysis check is not lost for ever, the loop reaches
    its end after finitely many turns; exactly one creature then has
    HP above 0 and the other has HP at most 0, and the reported winner
    is the one with HP above 0. *)
Theorem battle_resolves :
  forall (w : world) (d1 d2 : pokemon_data) (n1 n2 : string),
    sane_provider w -> fair_rolls w ->
    sane_payload d1 -> sane_payload d2 ->
    resolver_terminates w (usable_urls d1) ->
    resolver_terminates w (usable_urls d2) ->
    exists tries fuel b,
      run_battle w d1 d2 tries fuel n1 n2 = Ret b
      /\ exactly_one b
      /\ 0 < hp (winner b)
      /\ exists l,
           battle_log b = (l ++ [EvBattleOver; EvWinner (name (winner b))])%list.
Proof.
  intros w d1 d2 n1 n2 Hw Hfair P1 P2 R1 R2.
  destruct (start_sane w d1 d2 n1 n2 P1 P2 R1 R2) as [b0 [E0 [Hrun [Hs [B1 B2]]]]].
  destruct (battle_loop_terminates w d1 d2 Hw Hfair B1 B2
              (Z.to_nat (total_hp b0)) b0) as [tries [fuel [b' El]]].
  - lia.
  - assumption.
  - exists tries, fuel, (conclude b'). unfold run_battle. rewrite E0. cbn [bind].
    rewrite El. cbn [bind].
    pose proof (battle_loop_outcome _ _ _ _ _ _ _ Hs El) as H1.
    split; [reflexivity|].
    assert (Hw' : winner (conclude b') = winner b') by (destruct b'; reflexivity).
    split; [destruct b'; exact H1|].
    split; [rewrite Hw'; apply winner_stands; assumption|].
    exists (battle_log b'). rewrite Hw'. destruct b'; cbn.
    rewrite <- app_assoc. reflexivity.
Qed.

Lemma flaky_provider_sane : sane_provider flaky_world.
Proof.
  intros n url m. cbn. destruct (n =? 0)%nat; [discriminate|].
  intros [= <-]. split.
  - intros p [= <-]. lia.
  - intros meta [= <-]. cbn. lia.
Qed.

Lemma flaky_rolls_fair : fair_rolls flaky_world.
Proof. intros k. exists O. cbn. discriminate. Qed.

Lemma flaky_resolver (u : string) : resolver_terminates flaky_world [u].
Proof.
  intros [|n].
  - exists 2%nat, tackle, 2%nat. reflexivity.
  - exists 1%nat, tackle, (S (S n)). reflexivity.
Qed.

Lemma rattata_sane : sane_payload rattata.
Proof. exists 30, 56, 35, 72. cbn. repeat split; lia. Qed.

Lemma pikachu_sane : sane_payload pikachu.
Proof. exists 35, 55, 40, 90. cbn. repeat split; lia. Qed.

Lemma battle_resolves_witness :
  sane_provider flaky_world /\ fair_rolls flaky_world
  /\ sane_payload rattata /\ sane_payload pikachu
  /\ resolver_terminates flaky_world (usable_urls rattata)
  /\ resolver_terminates flaky_world (usable_urls pikachu)
  /\ exists tries fuel b,
       run_battle flaky_world rattata pikachu tries fuel "rattata" "pikachu"
       = Ret b
       /\ exactly_one b
       /\ 0 < hp (winner b)
       /\ exists l,
            battle_log b
            = (l ++ [EvBattleOver; EvWinner (name (winner b))])%list.
Proof.
  split; [exact flaky_provider_sane|].
  split; [exact flaky_rolls_fair|].
  split; [exact rattata_sane|].
  split; [exact pikachu_sane|].
  split; [exact (flaky_resolver _)|].
  split; [exact (flaky_resolver _)|].
  exact (battle_resolves flaky_world rattata pikachu "rattata" "pikachu"
           flaky_provider_sane flaky_rolls_fair rattata_sane pikachu_sane
           (flaky_resolver _) (flaky_resolver _)).
Defined.

(** *** Two paralysed creatures can stall for ever *)

Lemma stall_forever w d1 d2 tries fuel b :
  both_standing b = true ->
  status (pokemon1 b) = Some "paralysis" ->
  status (pokemon2 b) = Some "paralysis" ->
  (forall k, (n_roll b <= k)%nat -> (rolls w k < 1 # 4)%Q) ->
  battle_loop w d1 d2 tries fuel b = Fuel.
Proof.
  revert b. induction fuel as [|fuel IH]; intros b Hs S1 S2 Hr;
    cbn [battle_loop]; rewrite Hs; [reflexivity|].
  assert (Hatt : status (attacker b) = Some "paralysis")
    by (split_battle b; assumption).
  assert (Hroll : Qle_bool (1 # 4) (rolls w (n_roll b)) = false).
  { destruct (Qle_bool _ _) eqn:E; [|reflexivity].
    apply Qle_bool_iff in E. exfalso.
    apply (Qlt_not_le _ _ (Hr (n_roll b) (Nat.le_refl _)) E). }
  assert (Et : turn_body w d1 d2 tries b
               = Ret (Next (swap_roles
                   (say (next_roll (say b (EvTurn (turn b))))
                      (EvParalyzed (name (attacker b))))))).
  { unfold turn_body, action. autorewrite with roles.
    replace (n_roll (say b (EvTurn (turn b)))) with (n_roll b) by (destruct b; reflexivity).
    rewrite Hatt. cbn [is_status option_eqb]. cbn [String.eqb Ascii.eqb Bool.eqb].
    rewrite Hroll. cbn [negb bind].
    unfold status_tick. autorewrite with roles. rewrite Hatt. reflexivity. }
  rewrite Et. cbn [bind]. apply IH.
  - destruct b; exact Hs.
  - destruct b; exact S1.
  - destruct b; exact S2.
  - intros k Hk. apply Hr. destruct b; cbn in *. lia.
Qed.

Lemma stall_prefix :
  exists b0 b1 b2,
    start pikachu pikachu "pikachu" "pikachu" = Ret b0
    /\ both_standing b0 = true
    /\ turn_body stall_world pikachu pikachu 0 b0 = Fuel
    /\ turn_body stall_world pikachu pikachu 1 b0 = Ret (Next b1)
    /\ both_standing b1 = true
    /\ turn_body stall_world pikachu pikachu 1 b1 = Ret (Next b2)
    /\ both_standing b2 = true
    /\ status (pokemon1 b2) = Some "paralysis"
    /\ status (pokemon2 b2) = Some "paralysis"
    /\ n_roll b2 = 3%nat.
Proof.
  do 3 eexists.
  split; [vm_compute; reflexivity|].
  split; [vm_compute; reflexivity|].
  split; [vm_compute; reflexivity|].
  split; [vm_compute; reflexivity|].
  split; [vm_compute; reflexivity|].
  split; [vm_compute; reflexivity|].
  repeat split; vm_compute; reflexivity.
Qed.

Lemma stall_resolver : resolver_terminates stall_world (usable_urls pikachu).
Proof. intros n. exists 1%nat, thunder_shock, (S n). reflexivity. Qed.

Lemma stall_provider_sane : sane_provider stall_world.
Proof.
  intros n url m. cbn. intros [= <-]. split.
  - intros p [= <-]. lia.
  - intros meta [= <-]. cbn. lia.
Qed.

(** C1 as stated fails: with a selection loop that always terminates,
    two creatures that have paralysed each other and lose every
    paralysis check never end the loop, whatever the fuel. *)
Lemma paralysis_stall :
  sane_provider stall_world /\ sane_payload pikachu
  /\ resolver_terminates stall_world (usable_urls pikachu)
  /\ forall tries fuel,
       run_battle stall_world pikachu pikachu tries fuel "pikachu" "pikachu"
       = Fuel.
Proof.
  split; [exact stall_provider_sane|].
  split; [exact pikachu_sane|].
  split; [exact stall_resolver|].
  intros tries fuel.
  destruct stall_prefix as [b0 [b1 [b2 [E0 [S0 [T0 [T1 [S1 [T2 [S2 [P1 [P2 N2]]]]]]]]]]]].
  unfold run_battle. rewrite E0. cbn [bind].
  assert (H : battle_loop stall_world pikachu pikachu tries fuel b0 = Fuel);
    [|rewrite H; reflexivity].
  destruct tries as [|t].
  - destruct fuel as [|fuel]; cbn [battle_loop]; rewrite S0; [reflexivity|].
    rewrite T0. reflexivity.
  - assert (T1' : turn_body stall_world pikachu pikachu (S t) b0 = Ret (Next b1))
      by (apply (turn_body_mono _ _ _ 1%nat); [lia | exact T1]).
    assert (T2' : turn_body stall_world pikachu pikachu (S t) b1 = Ret (Next b2))
      by (apply (turn_body_mono _ _ _ 1%nat); [lia | exact T2]).
    destruct fuel as [|[|fuel]]; cbn [battle_loop].
    + rewrite S0. reflexivity.
    + rewrite S0, T1'. cbn [bind]. rewrite S1. reflexivity.
    + rewrite S0, T1'. cbn [bind]. rewrite S1, T2'. cbn [bind].
      apply stall_forever; try assumption.
      intros k Hk. rewrite N2 in Hk. cbn.
      destruct k as [|[|k]]; [lia | lia | reflexivity].
Qed.

(** *** An immune defender is told so, and is hit all the same *)

Lemma note_no_effect eff who :
  feq eff (Ffin 0) = true -> effectiveness_note eff who = Some (EvNoEffect who).
Proof.
  intros H. destruct (feq_zero eff H) as [q [-> Hq]].
  unfold effectiveness_note, fgt, flt.
  assert (H1 : Qle_bool q 1 = true) by (apply Qle_bool_iff; rewrite Hq; discriminate).
  assert (H0 : Qle_bool q 0 = true) by (apply Qle_bool_iff; rewrite Hq; discriminate).
  rewrite H1, H0. cbn [negb]. rewrite andb_false_r. rewrite H. reflexivity.
Qed.

Lemma log_after_hit b move n' damage :
  feq (battle_effectiveness (mv_type move) (types (defender b))) (Ffin 0) = true ->
  In (EvNoEffect (name (defender b))) (battle_log (after_hit b move n' damage)).
Proof.
  intros H. rewrite after_hit_eq, (note_no_effect _ _ H).
  destruct b; cbn. rewrite !in_app_iff. cbn. tauto.
Qed.

Lemma frame_log_In b b' e : frame b b' -> In e (battle_log b) -> In e (battle_log b').
Proof.
  intros [_ [_ [_ [_ [_ [_ [l [-> _]]]]]]]] H. apply in_app_iff. now left.
Qed.

(** C10.  Every attack that is carried out deals at least 1 damage (at
    least 2 without burn) and leaves the defender with strictly less
    HP; with compound effectiveness 0 the log says the move does not
    affect the defender and the damage is exactly 2, or 1 when the
    attacker is burned.  On data of realistic size the damage
    computation raises nothing. *)
Theorem every_attack_hurts :
  (forall (w : world) (tries : nat) (b : battle) (r : flow),
      0 < attack (attacker b) -> 0 < defense (defender b) ->
      attack_phase w tries b = Ret r ->
      exists move n' damage,
        let effectiveness :=
          battle_effectiveness (mv_type move) (types (defender b)) in
        let burned := is_status (status (attacker b)) "burn" in
        select_move w tries (moves (attacker b)) (n_try b) = Ret (move, n')
        /\ attack_damage (power_of move) (attacker b) (defender b) effectiveness
           = Ret damage
        /\ 1 <= damage
        /\ (burned = false -> 2 <= damage)
        /\ hp (defender (flow_state r)) = hp (defender b) - damage
        /\ hp (defender (flow_state r)) < hp (defender b)
        /\ (feq effectiveness (Ffin 0) = true ->
            damage = (if burned then 1 else 2)
            /\ In (EvNoEffect (name (defender b)))
                 (battle_log (flow_state r))))
  /\ (forall (move_power : Z) (att def : pokemon) (move_type : string),
         0 < move_power <= 2 ^ 64 -> 0 < attack att <= 2 ^ 64 ->
         0 < defense def -> (List.length (types def) <= 64)%nat ->
         exists damage,
           attack_damage move_power att def
             (battle_effectiveness move_type (types def))
           = Ret damage).
Proof.
  split.
  - intros w tries b r Ha Hd H.
    pose proof (attack_phase_roles _ _ _ _ H)
      as [move [n' [damage [Hsel [Hdmg [_ [_ [Ehp _]]]]]]]].
    exists move, n', damage. cbn zeta.
    pose proof (select_move_power _ _ _ _ _ _ Hsel) as Hp.
    pose proof (attack_damage_lower _ _ _ _ _ Hp Ha Hd
                  (battle_effectiveness_nonneg _ _) Hdmg) as [H1 [H2 H3]].
    split; [assumption|]. split; [assumption|]. split; [assumption|].
    split; [assumption|]. split; [assumption|]. split; [lia|].
    intros Hz. split; [apply H3; assumption|].
    apply attack_phase_inv in H.
    destruct H as [move' [n'' [damage' [Hsel' [Hdmg' H]]]]].
    rewrite Hsel in Hsel'. injection Hsel' as <- <-.
    rewrite Hdmg in Hdmg'. injection Hdmg' as <-.
    cbn zeta in H.
    pose proof (log_after_hit b move n' damage Hz) as Hin.
    destruct H as [[_ ->]|[_ [b2 [Hail ->]]]]; cbn [flow_state].
    + destruct (after_hit b move n' damage); cbn in *. apply in_app_iff. now left.
    + eapply frame_log_In; [|exact Hin].
      apply (evolves_apply_ailment True _ _ _ _ Hail).
  - intros p att def mt Hp Ha Hd Ht.
    apply attack_damage_total; try assumption.
    apply battle_effectiveness_fin. assumption.
Qed.

Lemma every_attack_hurts_witness :
  0 < attack (attacker opening) /\ 0 < defense (defender opening)
  /\ exists r,
       attack_phase flaky_world 2 opening = Ret r
       /\ hp (defender (flow_state r)) < hp (defender opening).
Proof.
  split; [reflexivity|]. split; [reflexivity|].
  destruct (attack_phase flaky_world 2 opening) as [r| |] eqn:E;
    [|vm_compute in E; discriminate E..].
  exists r. split; [reflexivity|].
  destruct (proj1 every_attack_hurts flaky_world 2%nat opening r eq_refl eq_refl E)
    as [move [n' [damage [_ [_ [_ [_ [_ [H _]]]]]]]]].
  exact H.
Defined.

(** *** HP only goes down *)





(** HP can end below zero while the log shows 0. *)
Lemma hp_goes_negative :
  exists b,
    run_battle burn_world (eevee 101) (eevee 3) 1 1 "eevee" "eevee" = Ret b
    /\ hp (pokemon2 b) = -2
    /\ In (EvDamage "Eevee" 5 0) (battle_log b).
Proof.
  eexists. split; [vm_compute; reflexivity|].
  split; [reflexivity|]. cbn. tauto.
Qed.

(** *** Status conditions *)

Lemma attacker_side b : attacker b = side b (attacker_is_1 b).
Proof. reflexivity. Qed.

Lemma defender_side b : defender b = side b (negb (attacker_is_1 b)).
Proof. split_battle b; reflexivity. Qed.

Lemma side_swap b x : side (swap_roles b) x = side b x.
Proof. destruct b; reflexivity. Qed.

(** What [apply_ailment] does to the two creatures. *)
Lemma apply_ailment_status w move b b' :
  apply_ailment w move b = Ret b' ->
  attacker_is_1 b' = attacker_is_1 b
  /\ attacker b' = attacker b
  /\ (status (defender b') = status (defender b)
      \/ exists meta c threshold,
           mv_meta move = Some meta
           /\ status (defender b) = None
           /\ inflictable (ailment meta) = true
           /\ of_int (ailment_chance meta) = Ret c
           /\ fdiv c (Ffin 100) = Some threshold
           /\ flt (Ffin (rolls w (n_roll b))) threshold = true
           /\ status (defender b') = Some (ailment meta)).
Proof.
  intros H. apply apply_ailment_inv in H.
  destruct H as [->|[meta [c [thr [Hm [Hs [Hi [Hc [Ht [[_ ->]|[Hroll ->]]]]]]]]]]];
    autorewrite with roles; (split; [reflexivity|]); (split; [reflexivity|]).
  - now left.
  - now left.
  - right. exists meta, c, thr. cbn. auto 10.
Qed.

(** When the conditions of lines 248-251 hold, the roll decides. *)
Lemma apply_ailment_decides w move b b' meta c threshold :
  apply_ailment w move b = Ret b' ->
  mv_meta move = Some meta -> status (defender b) = None ->
  inflictable (ailment meta) = true ->
  of_int (ailment_chance meta) = Ret c -> fdiv c (Ffin 100) = Some threshold ->
  status (defender b')
  = if flt (Ffin (rolls w (n_roll b))) threshold then Some (ailment meta)
    else None.
Proof.
  unfold apply_ailment. intros H Hm Hs Hi Hc Ht.
  rewrite Hm, Hs, Hi, Hc in H. cbn [bind] in H. rewrite Ht in H.
  destruct (flt _ _); injection H as <-; autorewrite with roles; [reflexivity|exact Hs].
Qed.

Lemma attack_phase_status w tries b r :
  attack_phase w tries b = Ret r ->
  attacker_is_1 (flow_state r) = attacker_is_1 b
  /\ attacker (flow_state r) = attacker b
  /\ (status (defender (flow_state r)) = status (defender b)
      \/ exists move n' damage meta,
           select_move w tries (moves (attacker b)) (n_try b) = Ret (move, n')
           /\ attack_damage (power_of move) (attacker b) (defender b)
                (battle_effectiveness (mv_type move) (types (defender b)))
              = Ret damage
           /\ 0 < hp (defender b) - damage
           /\ mv_meta move = Some meta
           /\ status (defender b) = None
           /\ inflictable (ailment meta) = true
           /\ status (defender (flow_state r)) = Some (ailment meta)).
Proof.
  intros H. pose proof (attack_phase_roles _ _ _ _ H) as [_ [_ [_ [_ [_ [Ef [Ea _]]]]]]].
  split; [assumption|]. split; [assumption|].
  apply attack_phase_inv in H.
  destruct H as [move [n' [damage [Hsel [Hdmg H]]]]]. cbn zeta in H.
  destruct H as [[_ ->]|[Hgt [b2 [Hail ->]]]]; cbn [flow_state].
  - left. autorewrite with roles. rewrite defender_after_hit. reflexivity.
  - apply apply_ailment_status in Hail.
    destruct Hail as [_ [_ [E|[meta [c [thr [Hm [Hs [Hi [_ [_ [_ E]]]]]]]]]]]].
    + left. rewrite E, defender_after_hit. reflexivity.
    + right. exists move, n', damage, meta.
      rewrite defender_after_hit in Hs. cbn in Hs. auto 10.
Qed.

Lemma status_tick_status d1 d2 b r :
  status_tick d1 d2 b = Ret r ->
  attacker_is_1 (flow_state r) = attacker_is_1 b
  /\ status (attacker (flow_state r)) = status (attacker b)
  /\ defender (flow_state r) = defender b.
Proof.
  intros H. pose proof (status_tick_roles _ _ _ _ H) as [Ef [Ed _]].
  split; [assumption|]. split; [|assumption].
  apply status_tick_inv in H.
  destruct H as [[-> _]|[s [m [sd [_ [_ [_ [_ H]]]]]]]]; [reflexivity|].
  cbn zeta in H. destruct H as [[_ ->]|[_ ->]]; cbn [flow_state];
    autorewrite with roles; reflexivity.
Qed.

(** In one turn the acting creature keeps its status, and the other
    one changes status only by the ailment of a hit it survived. *)
Lemma turn_body_status w d1 d2 tries b r :
  turn_body w d1 d2 tries b = Ret r ->
  let first := attacker_is_1 b in
  status (side (flow_state r) first) = status (attacker b)
  /\ (status (side (flow_state r) (negb first)) = status (defender b)
      \/ exists move damage meta,
           attack_damage (power_of move) (attacker b) (defender b)
             (battle_effectiveness (mv_type move) (types (defender b)))
           = Ret damage
           /\ 0 < hp (defender b) - damage
           /\ mv_meta move = Some meta
           /\ status (defender b) = None
           /\ inflictable (ailment meta) = true
           /\ status (side (flow_state r) (negb first)) = Some (ailment meta)).
Proof.
  intros H first. apply turn_body_inv in H. destruct H as [r1 [Hact H]].
  set (b0 := say b (EvTurn (turn b))) in *.
  assert (Hact' :
    attacker_is_1 (flow_state r1) = first
    /\ status (attacker (flow_state r1)) = status (attacker b)
    /\ (status (defender (flow_state r1)) = status (defender b)
        \/ exists move damage meta,
             attack_damage (power_of move) (attacker b) (defender b)
               (battle_effectiveness (mv_type move) (types (defender b)))
             = Ret damage
             /\ 0 < hp (defender b) - damage
             /\ mv_meta move = Some meta
             /\ status (defender b) = None
             /\ inflictable (ailment meta) = true
             /\ status (defender (flow_state r1)) = Some (ailment meta))).
  { apply action_inv in Hact.
    destruct Hact as [[_ [_ ->]]|[[_ [_ Hatk]]|[_ Hatk]]].
    - cbn [flow_state]. unfold b0. autorewrite with roles. auto.
    - apply attack_phase_status in Hatk. unfold b0 in Hatk.
      autorewrite with roles in Hatk.
      destruct Hatk as [Ef [Ea [Ed|[move [n' [damage [meta [_ Hrest]]]]]]]].
      + rewrite Ef, Ea, Ed. auto.
      + rewrite Ef, Ea. split; [reflexivity|]. split; [reflexivity|].
        right. exists move, damage, meta. exact Hrest.
    - apply attack_phase_status in Hatk. unfold b0 in Hatk.
      autorewrite with roles in Hatk.
      destruct Hatk as [Ef [Ea [Ed|[move [n' [damage [meta [_ Hrest]]]]]]]].
      + rewrite Ef, Ea, Ed. auto.
      + rewrite Ef, Ea. split; [reflexivity|]. split; [reflexivity|].
        right. exists move, damage, meta. exact Hrest. }
  destruct Hact' as [Ef [Ea Ed]].
  assert (Hfin : forall bb,
            attacker_is_1 bb = first ->
            status (attacker bb) = status (attacker (flow_state r1)) ->
            defender bb = defender (flow_state r1) ->
            status (side bb first) = status (attacker b)
            /\ (status (side bb (negb first)) = status (defender b)
                \/ exists move damage meta,
                     attack_damage (power_of move) (attacker b) (defender b)
                       (battle_effectiveness (mv_type move) (types (defender b)))
                     = Ret damage
                     /\ 0 < hp (defender b) - damage
                     /\ mv_meta move = Some meta
                     /\ status (defender b) = None
                     /\ inflictable (ailment meta) = true
                     /\ status (side bb (negb first)) = Some (ailment meta))).
  { intros bb Hf Hsa Hd.
    replace (side bb first) with (attacker bb)
      by (rewrite <- Hf; apply attacker_side).
    replace (side bb (negb first)) with (defender bb)
      by (rewrite <- Hf; apply defender_side).
    rewrite Hsa, Hd, Ea. split; [reflexivity|]. exact Ed. }
  destruct H as [[bb [-> ->]]|[bb [r2 [-> [Htick H]]]]].
  - cbn [flow_state] in *. apply Hfin; auto.
  - apply status_tick_status in Htick. destruct Htick as [Tf [Ta Td]].
    cbn [flow_state] in *.
    destruct H as [[bc [-> ->]]|[bc [-> ->]]]; cbn [flow_state] in *.
    + apply Hfin; congruence.
    + rewrite !side_swap. apply Hfin; congruence.
Qed.

Lemma start_status d1 d2 n1 n2 b0 :
  start d1 d2 n1 n2 = Ret b0 ->
  status (pokemon1 b0) = None /\ status (pokemon2 b0) = None.
Proof.
  unfold start, make_pokemon.
  repeat (match goal with
          | |- context [bind (stat ?d ?i) _] =>
              destruct (stat d i); cbn [bind]; try discriminate
          end).
  intros [= <-]. split; reflexivity.
Qed.

Lemma status_from_none s : status_step None s ->
  s = None \/ exists a, s = Some a /\ inflictable a = true.
Proof. intros [->|[_ H]]; auto. Qed.


(** *** Provider faults while a move is being resolved *)

(** C5, as amended.  A move request that fails with no data does not
    abort the battle: the selection loop draws again, as for a move
    without usable power.  A payload without the power field raises
    KeyError out of the selection, the attack and the whole simulation,
    which then returns no report. *)
Theorem provider_fault_mid_battle :
  (forall (w : world) (tries : nat) (u : string) (urls : list string) (n : nat),
      provider w n (nth (picks w n mod List.length (u :: urls))%nat (u :: urls) "")
      = NoData ->
      select_move w (S tries) (u :: urls) n = select_move w tries (u :: urls) (S n))
  /\ (forall (w : world) (tries : nat) (u : string) (urls : list string) (n : nat),
         provider w n
           (nth (picks w n mod List.length (u :: urls))%nat (u :: urls) "")
         = Malformed ->
         select_move w (S tries) (u :: urls) n = Raise KeyError)
  /\ (forall (w : world) (tries : nat) (b : battle) (e : exn),
         select_move w tries (moves (attacker b)) (n_try b) = Raise e ->
         attack_phase w tries b = Raise e)
  /\ (forall (w : world) (d1 d2 : pokemon_data) (tries fuel : nat)
             (n1 n2 : string) (b0 : battle) (e : exn),
         start d1 d2 n1 n2 = Ret b0 ->
         battle_loop w d1 d2 tries fuel b0 = Raise e ->
         simulate_battle w tries fuel n1 n2 (Some d1) (Some d2) = Raise e).
Proof.
  split; [|split; [|split]].
  - intros w tries u urls n H. cbn [select_move]. rewrite H. reflexivity.
  - intros w tries u urls n H. cbn [select_move]. rewrite H. reflexivity.
  - intros w tries b e H. unfold attack_phase. rewrite H. reflexivity.
  - intros w d1 d2 tries fuel n1 n2 b0 e E0 El.
    unfold simulate_battle, run_battle. rewrite E0. cbn [bind]. rewrite El. reflexivity.
Qed.

Lemma provider_fault_mid_battle_witness :
  provider flaky_world 0 "https://pokeapi.co/api/v2/move/84/" = NoData
  /\ select_move flaky_world 2 (moves (attacker opening)) 0
     = select_move flaky_world 1 (moves (attacker opening)) 1
  /\ provider broken_world 0 "https://pokeapi.co/api/v2/move/84/" = Malformed
  /\ select_move broken_world 2 (moves (attacker opening)) 0 = Raise KeyError
  /\ attack_phase broken_world 2 opening = Raise KeyError
  /\ simulate_battle broken_world 2 20 "rattata" "pikachu"
       (Some rattata) (Some pikachu)
     = Raise KeyError.
Proof.
  destruct provider_fault_mid_battle as [H1 [H2 [H3 H4]]].
  split; [reflexivity|].
  split; [exact (H1 flaky_world 1%nat _ [] O eq_refl)|].
  split; [reflexivity|].
  split; [exact (H2 broken_world 1%nat _ [] O eq_refl)|].
  split; [exact (H3 broken_world 2%nat opening KeyError
                   (H2 broken_world 1%nat _ [] O eq_refl))|].
  refine (H4 broken_world rattata pikachu 2%nat 20%nat "rattata" "pikachu"
            opening KeyError _ _); vm_compute; reflexivity.
Defined.

(** C5 as stated fails: the first move request fails and the battle is
    resolved all the same. *)
Lemma failed_request_is_survived :
  provider flaky_world 0 "https://pokeapi.co/api/v2/move/84/" = NoData
  /\ select_move flaky_world 1 (moves (attacker opening)) 0 = Fuel
  /\ exists b,
       run_battle flaky_world rattata pikachu 2 11 "rattata" "pikachu" = Ret b
       /\ exactly_one b
       /\ name (winner b) = "Pikachu"
       /\ n_try b = 12%nat.
Proof.
  split; [reflexivity|]. split; [reflexivity|].
  eexists. split; [vm_compute; reflexivity|].
  split; [right; split; vm_compute; [discriminate | reflexivity]|].
  split; reflexivity.
Qed.

(** *** End-of-turn status damage *)

Lemma list_eqb_refl {A} (eqb : A -> A -> bool) (l : list A) :
  (forall a, eqb a a = true) -> list_eqb eqb l l = true.
Proof.
  intros H. induction l as [|a l IH]; cbn; [reflexivity|]. rewrite H, IH. reflexivity.
Qed.

Lemma pokemon_eqb_refl p : pokemon_eqb p p = true.
Proof.
  unfold pokemon_eqb.
  rewrite String.eqb_refl, !Z.eqb_refl, !(list_eqb_refl _ _ String.eqb_refl).
  destruct (status p); cbn; [apply String.eqb_refl | reflexivity].
Qed.

(** What line 259 reads: the first payload unless the attacker is the
    second creature and the two dicts differ. *)
Lemma original_max_hp_cases d1 d2 b :
  (attacker_is_1 b = true -> original_max_hp d1 d2 b = stat d1 0)
  /\ (attacker_is_1 b = false ->
      pokemon_eqb (pokemon2 b) (pokemon1 b) = false ->
      original_max_hp d1 d2 b = stat d2 0)
  /\ (attacker_is_1 b = false ->
      pokemon_eqb (pokemon2 b) (pokemon1 b) = true ->
      original_max_hp d1 d2 b = stat d1 0).
Proof.
  unfold original_max_hp. split_battle b; cbn.
  - rewrite pokemon_eqb_refl. repeat split; congruence.
  - repeat split; try congruence; intros _ ->; reflexivity.
Qed.

(** The tick of a poisoned or burned attacker whose payload is the one
    line 259 reads: exactly the integer eighth of its base HP, then the
    faint check. *)
Lemma status_tick_amount d1 d2 b r s h :
  status (attacker b) = Some s -> s = "poison" \/ s = "burn" ->
  original_max_hp d1 d2 b = Ret h -> 0 <= h < 2 ^ 53 ->
  status_tick d1 d2 b = Ret r ->
  hp (attacker (flow_state r)) = hp (attacker b) - h / 8
  /\ defender (flow_state r) = defender b
  /\ match r with
     | Break _ => hp (attacker b) - h / 8 <= 0
     | Next _ => 0 < hp (attacker b) - h / 8
     end.
Proof.
  intros Hs Hpb Hm Hh H.
  pose proof (status_tick_roles _ _ _ _ H) as [_ [Ed _]].
  apply status_tick_inv in H.
  destruct H as [[_ Hn]|[s' [m [sd [Es [_ [Em [Esd H]]]]]]]].
  - destruct (Hn s Hs) as [N1 N2]. destruct Hpb; contradiction.
  - rewrite Hm in Em. injection Em as <-.
    rewrite (status_damage_of_small h Hh) in Esd. injection Esd as <-.
    cbn zeta in H. split; [|split; [exact Ed|]].
    + destruct H as [[_ ->]|[_ ->]]; cbn [flow_state];
        rewrite ?attacker_say, attacker_with_attacker; reflexivity.
    + destruct H as [[Hle ->]|[Hgt ->]]; assumption.
Qed.

(** C8.  On two payloads with the same name and stats but base HP 101
    and 104, the second creature's burn takes 12 at the end of turn 2,
    by the first creature's base HP, where its own gives 13: line 259
    compares the two dicts by value. *)
Lemma burn_tick_reads_other_base_hp :
  exists b0 b1 b2 b3,
    start (eevee 101) (eevee 104) "eevee" "eevee" = Ret b0
    /\ turn_body burn_world (eevee 101) (eevee 104) 1 b0 = Ret (Next b1)
    /\ action burn_world 1 (say b1 (EvTurn (turn b1))) = Ret (Next b2)
    /\ attacker_is_1 b2 = false
    /\ status (attacker b2) = Some "burn"
    /\ pokemon_eqb (attacker b2) (pokemon1 b2) = true
    /\ original_max_hp (eevee 101) (eevee 104) b2 = Ret 101
    /\ stat (eevee 104) 0 = Ret 104
    /\ status_damage_of 101 = Ret 12
    /\ status_damage_of 104 = Ret 13
    /\ status_tick (eevee 101) (eevee 104) b2 = Ret (Next b3)
    /\ hp (pokemon2 b3) = hp (pokemon2 b2) - 12.
Proof.
  do 4 eexists.
  split; [vm_compute; reflexivity|].
  split; [vm_compute; reflexivity|].
  split; [vm_compute; reflexivity|].
  split; [reflexivity|].
  split; [reflexivity|].
  split; [reflexivity|].
  split; [reflexivity|].
  split; [reflexivity|].
  split; [vm_compute; reflexivity|].
  split; [vm_compute; reflexivity|].
  split; [vm_compute; reflexivity|].
  reflexivity.
Qed.

End BattleFacts.

(* ================================================================== *)
(** ** Rounding keeps the order; small integers are exact *)
(* ================================================================== *)

Module RoundingFacts.

Import Float Py Chart Battle Props Examples FloatFacts ChartFacts DamageFacts.
Local Open Scope Q_scope.

(** *** Rounding is monotone *)

Lemma rne_cases x : rne x = Qfloor x \/ rne x = (Qfloor x + 1)%Z.
Proof. unfold rne. destruct (Qcompare _ _); [destruct (Z.even _)| |]; auto. Qed.

Lemma rne_mono x y : x <= y -> (rne x <= rne y)%Z.
Proof.
  intros H. pose proof (Qfloor_resp_le x y H) as Hf.
  destruct (Z.eq_dec (Qfloor x) (Qfloor y)) as [E|E].
  - unfold rne. rewrite E.
    destruct (Qcompare_spec (x - inject_Z (Qfloor y)) (1 # 2)) as [Hx|Hx|Hx];
      destruct (Qcompare_spec (y - inject_Z (Qfloor y)) (1 # 2)) as [Hy|Hy|Hy];
      try destruct (Z.even (Qfloor y)); try lia; exfalso; lra.
  - assert (Hy : (Qfloor y <= rne y)%Z).
    { destruct (rne_cases y) as [->| ->]; lia. }
    destruct (rne_cases x) as [->| ->]; lia.
Qed.

Lemma ilog2_mono q1 q2 : 0 < q1 -> q1 <= q2 -> (ilog2 q1 <= ilog2 q2)%Z.
Proof.
  intros H1 H. apply ilog2_ge; [lra|].
  destruct (ilog2_spec q1 H1) as [Hlo _]. lra.
Qed.

Lemma round_pos_mono q1 q2 : 0 < q1 -> q1 <= q2 -> round_pos q1 <= round_pos q2.
Proof.
  intros H1 H. assert (H2 : 0 < q2) by lra.
  pose proof (ilog2_mono q1 q2 H1 H) as Hk.
  destruct (Z.eq_dec (ulp_exp q1) (ulp_exp q2)) as [E|E].
  - rewrite !round_pos_eq, E.
    apply Qmult_le_compat_r; [|apply Qlt_le_weak, pow2_pos].
    rewrite <- Zle_Qle. apply rne_mono.
    apply Qmult_le_compat_r; [assumption | apply Qlt_le_weak, pow2_pos].
  - assert (Hlt : (ilog2 q1 < ilog2 q2)%Z) by (unfold ulp_exp in E; lia).
    assert (Hk2 : (-1074 <= ilog2 q2)%Z) by (unfold ulp_exp in E; lia).
    set (j := Z.max (ilog2 q1 + 1) (-1074)).
    apply Qle_trans with (pow2 j).
    + apply round_pos_le; [assumption | unfold j; lia |].
      apply Qle_trans with (pow2 (ilog2 q1 + 1)).
      * apply Qlt_le_weak. apply ilog2_spec. assumption.
      * apply pow2_le. unfold j. lia.
    + apply Qle_trans with (pow2 (ilog2 q2)); [apply pow2_le; unfold j; lia|].
      apply round_pos_ge; [assumption | assumption | apply ilog2_spec; assumption].
Qed.

(** Two finite roundings of non-negative values keep their order. *)
Lemma fround_mono q1 q2 a b :
  0 <= q1 -> q1 <= q2 -> fround q1 = Ffin a -> fround q2 = Ffin b -> a <= b.
Proof.
  intros H0 H E1 E2.
  destruct (Qeq_dec q1 0) as [Z1|N1].
  - rewrite (fround_zero q1 Z1) in E1. injection E1 as <-.
    pose proof (fround_nonneg q2 ltac:(lra)) as Hn. rewrite E2 in Hn. exact Hn.
  - assert (P1 : 0 < q1).
    { apply Qle_lteq in H0. destruct H0 as [?|H0]; [assumption|].
      symmetry in H0. contradiction. }
    assert (P2 : 0 < q2) by lra.
    rewrite (fround_pos q1 P1) in E1. rewrite (fround_pos q2 P2) in E2.
    destruct (Qle_bool _ (round_pos q1)); [discriminate|].
    destruct (Qle_bool _ (round_pos q2)); [discriminate|].
    injection E1 as <-. injection E2 as <-. apply round_pos_mono; assumption.
Qed.

(** *** Integers below 2^53 and their halves are binary64 values *)

Lemma ulp_exp_small q j :
  0 < q -> q < pow2 (j + 53) -> (-1074 <= j)%Z -> (ulp_exp q <= j)%Z.
Proof.
  intros Hq Hlt Hj. unfold ulp_exp. pose proof (ilog2_lt q _ Hq Hlt). lia.
Qed.

Lemma Qred_inject_Z z : Qred (inject_Z z) = inject_Z z.
Proof.
  unfold Qred, inject_Z.
  pose proof (Z.ggcd_gcd z 1) as Hg. pose proof (Z.ggcd_correct_divisors z 1) as Hd.
  destruct (Z.ggcd z 1) as (g, (a, b)). cbn in Hg, Hd.
  rewrite Z.gcd_1_r in Hg. subst g. destruct Hd as [Ha Hb].
  replace a with z by lia. replace b with 1%Z by lia. reflexivity.
Qed.

Lemma of_int_exact z : (0 <= z < 2 ^ 53)%Z -> of_int z = Ret (Ffin (inject_Z z)).
Proof.
  intros Hz. unfold of_int.
  destruct (Z.eq_dec z 0) as [->|Hne]; [reflexivity|].
  assert (Hq : 0 < inject_Z z) by (change 0 with (inject_Z 0); rewrite <- Zlt_Qlt; lia).
  assert (Hlt : inject_Z z < pow2 53) by (rewrite pow2_Z by lia; rewrite <- Zlt_Qlt; lia).
  rewrite (fround_exact (inject_Z z) z 0).
  - rewrite Qred_inject_Z. reflexivity.
  - assumption.
  - change (pow2 0) with 1. ring.
  - apply ulp_exp_small; [assumption | exact Hlt | lia].
  - apply Qlt_trans with (pow2 53); [assumption|].
    apply Qpower_lt_compat_l; [lia | reflexivity].
Qed.

Lemma Qfloor_half z : Qfloor (inject_Z z * half) = (z / 2)%Z.
Proof.
  assert (E : inject_Z z * half == z # 2).
  { unfold half, inject_Z, Qmult, Qeq. cbn. lia. }
  rewrite (Qfloor_comp _ _ E). reflexivity.
Qed.

(** Line 237 on a damage below 2^53 is the integer half, rounded
    down. *)
Lemma burn_drop_small d : (0 <= d < 2 ^ 53)%Z -> burn_drop d = Ret (d / 2)%Z.
Proof.
  intros Hd. unfold burn_drop. rewrite (of_int_exact d Hd). cbn [bind fmul].
  destruct (Z.eq_dec d 0) as [->|Hne]; [vm_compute; reflexivity|].
  set (q := inject_Z d * half).
  assert (HQ : 0 < inject_Z d) by (change 0 with (inject_Z 0); rewrite <- Zlt_Qlt; lia).
  assert (Hq : 0 < q) by (unfold q, half; lra).
  assert (Hlt : q < pow2 52).
  { assert (H53 : inject_Z d < inject_Z (2 ^ 53)) by (rewrite <- Zlt_Qlt; lia).
    change (inject_Z (2 ^ 53)) with (2 * pow2 52) in H53.
    unfold q, half. pose proof (pow2_pos 52). lra. }
  rewrite (fround_exact q d (-1)).
  - cbn [int_of_float]. f_equal. unfold Qtrunc.
    assert (H0 : Qle_bool 0 (Qred q) = true).
    { apply Qle_bool_iff. rewrite Qred_correct. apply Qlt_le_weak. exact Hq. }
    rewrite H0, (Qfloor_comp _ _ (Qred_correct q)). apply Qfloor_half.
  - assumption.
  - reflexivity.
  - apply ulp_exp_small; [assumption | exact Hlt | lia].
  - apply Qlt_trans with (pow2 52); [assumption|].
    apply Qpower_lt_compat_l; [lia | reflexivity].
Qed.

(** *** A finite result has finite operands *)

Lemma fmul_fin_inv x y c :
  fmul x y = Ffin c -> exists a b, x = Ffin a /\ y = Ffin b /\ fround (a * b) = Ffin c.
Proof.
  destruct x as [a|s|], y as [b|t|]; cbn; try discriminate.
  - intros E. exists a, b. auto.
  - destruct (is_zero a); discriminate.
  - destruct (is_zero b); discriminate.
Qed.

Lemma fadd_fin_inv x y c :
  fadd x y = Ffin c -> exists a b, x = Ffin a /\ y = Ffin b /\ fround (a + b) = Ffin c.
Proof.
  destruct x as [a|s|], y as [b|t|]; cbn; try discriminate.
  - intros E. exists a, b. auto.
  - destruct (Bool.eqb s t); discriminate.
Qed.

Lemma fdiv_fin_inv x b c :
  fdiv x (Ffin b) = Some (Ffin c) ->
  exists a, x = Ffin a /\ is_zero b = false /\ fround (a / b) = Ffin c.
Proof.
  unfold fdiv. destruct (is_zero b); [destruct x; discriminate|].
  destruct x as [a|s|]; try discriminate.
  intros [= E]. exists a. auto.
Qed.

Lemma of_int_inv z f :
  of_int z = Ret f -> exists q, f = Ffin q /\ fround (inject_Z z) = Ffin q.
Proof.
  unfold of_int. pose proof (fround_not_nan (inject_Z z)) as Hn.
  destruct (fround (inject_Z z)) as [q|s|]; try discriminate; [|contradiction].
  intros [= <-]. exists q. auto.
Qed.

Lemma int_truediv_inv a b f :
  int_truediv a b = Ret f ->
  b <> 0%Z /\ exists q, f = Ffin q /\ fround (inject_Z a / inject_Z b) = Ffin q.
Proof.
  unfold int_truediv. destruct (Z.eqb_spec b 0); [discriminate|].
  pose proof (fround_not_nan (inject_Z a / inject_Z b)) as Hn.
  destruct (fround (inject_Z a / inject_Z b)) as [q|s|]; try discriminate; [|contradiction].
  intros [= <-]. split; [assumption|]. exists q. auto.
Qed.

Lemma fround_fin_nonneg q c : 0 <= q -> fround q = Ffin c -> 0 <= c.
Proof. intros H E. pose proof (fround_nonneg q H) as Hn. rewrite E in Hn. exact Hn. Qed.

Lemma Qtrunc_mono a b : 0 <= a -> a <= b -> (Qtrunc a <= Qtrunc b)%Z.
Proof.
  intros Ha Hab. unfold Qtrunc.
  assert (E1 : Qle_bool 0 a = true) by (apply Qle_bool_iff; assumption).
  assert (E2 : Qle_bool 0 b = true) by (apply Qle_bool_iff; lra).
  rewrite E1, E2. apply Qfloor_resp_le. assumption.
Qed.

Lemma inject_Z_pos z : (0 < z)%Z -> 0 < inject_Z z.
Proof. intros H. change 0 with (inject_Z 0). rewrite <- Zlt_Qlt. assumption. Qed.

Lemma Qdiv_mono a a' d d' :
  0 <= a -> a <= a' -> 0 < d' -> d' <= d -> a / d <= a' / d'.
Proof.
  intros Ha Haa Hd Hdd.
  apply Qle_shift_div_l; [lra|].
  apply Qle_trans with (a / d * d).
  - assert (0 <= a / d) by (apply Qle_shift_div_l; lra).
    nra.
  - assert (E : a / d * d == a) by (field; lra). lra.
Qed.

(** The float value behind a successful line 233, monotone in each
    argument. *)
Lemma pre_damage_mono p p' a a' d d' e e' v v' :
  (0 < p <= p')%Z -> (0 < a <= a')%Z -> (0 < d' <= d)%Z -> 0 <= e -> e <= e' ->
  pre_damage p a d (Ffin e) = Ret (Ffin v) ->
  pre_damage p' a' d' (Ffin e') = Ret (Ffin v') ->
  0 <= v /\ v <= v'.
Proof.
  intros Hp Ha Hd He Hee. unfold pre_damage, fmul_int, fdiv_int, fadd_int.
  destruct (of_int p) as [fp| |] eqn:Ep; try discriminate.
  destruct (of_int p') as [fp'| |] eqn:Ep'; try (intros; discriminate).
  cbn [bind].
  destruct (int_truediv a d) as [r| |] eqn:Er; try discriminate.
  destruct (int_truediv a' d') as [r'| |] eqn:Er'; try (intros; discriminate).
  cbn [bind]. rewrite of_int_50, of_int_2. cbn [bind].
  destruct (fdiv (fmul (fmul (Ffin c24) fp) r) (Ffin 50)) as [y|] eqn:Ey; [|discriminate].
  destruct (fdiv (fmul (fmul (Ffin c24) fp') r') (Ffin 50)) as [y'|] eqn:Ey';
    [|intros; discriminate].
  cbn [bind]. intros [= Ev] [= Ev'].
  apply of_int_inv in Ep, Ep'. destruct Ep as (qp & -> & Ep), Ep' as (qp' & -> & Ep').
  apply int_truediv_inv in Er, Er'.
  destruct Er as (_ & qr & -> & Er), Er' as (_ & qr' & -> & Er').
  apply fadd_fin_inv in Ev, Ev'.
  destruct Ev as (w & two & Ew & [= <-] & Ev), Ev' as (w' & two' & Ew' & [= <-] & Ev').
  apply fmul_fin_inv in Ew, Ew'.
  destruct Ew as (qy & e0 & -> & [= <-] & Ew), Ew' as (qy' & e0' & -> & [= <-] & Ew').
  apply fdiv_fin_inv in Ey, Ey'.
  destruct Ey as (x2 & Ex2 & _ & Ey), Ey' as (x2' & Ex2' & _ & Ey').
  apply fmul_fin_inv in Ex2, Ex2'.
  destruct Ex2 as (x1 & r0 & Ex1 & [= <-] & Ex2), Ex2' as (x1' & r0' & Ex1' & [= <-] & Ex2').
  cbn [fmul] in Ex1, Ex1'.
  pose proof c24_pos as Hc.
  pose proof (inject_Z_pos p ltac:(lia)) as Pp.
  pose proof (inject_Z_pos a ltac:(lia)) as Pa.
  pose proof (inject_Z_pos d' ltac:(lia)) as Pd'.
  assert (Pd : 0 < inject_Z d) by (apply inject_Z_pos; lia).
  assert (Lp : inject_Z p <= inject_Z p') by (rewrite <- Zle_Qle; lia).
  assert (La : inject_Z a <= inject_Z a') by (rewrite <- Zle_Qle; lia).
  assert (Ld : inject_Z d' <= inject_Z d) by (rewrite <- Zle_Qle; lia).
  (* each stage: non-negative and ordered *)
  pose proof (fround_fin_nonneg _ _ (Qlt_le_weak _ _ Pp) Ep) as Nqp.
  pose proof (fround_mono _ _ _ _ (Qlt_le_weak _ _ Pp) Lp Ep Ep') as Mqp.
  assert (Nad : 0 <= inject_Z a / inject_Z d) by (apply Qle_shift_div_l; lra).
  pose proof (fround_fin_nonneg _ _ Nad Er) as Nqr.
  pose proof (fround_mono _ _ _ _ Nad
                (Qdiv_mono _ _ _ _ (Qlt_le_weak _ _ Pa) La Pd' Ld) Er Er') as Mqr.
  assert (N1 : 0 <= c24 * qp) by nra.
  assert (M1' : c24 * qp <= c24 * qp') by nra.
  pose proof (fround_fin_nonneg _ _ N1 Ex1) as Nx1.
  pose proof (fround_mono _ _ _ _ N1 M1' Ex1 Ex1') as Mx1.
  assert (N2 : 0 <= x1 * qr) by nra.
  assert (M2' : x1 * qr <= x1' * qr') by nra.
  pose proof (fround_fin_nonneg _ _ N2 Ex2) as Nx2.
  pose proof (fround_mono _ _ _ _ N2 M2' Ex2 Ex2') as Mx2.
  assert (N3 : 0 <= x2 / 50) by (apply Qle_shift_div_l; lra).
  assert (M3' : x2 / 50 <= x2' / 50) by (apply Qdiv_mono; lra).
  pose proof (fround_fin_nonneg _ _ N3 Ey) as Ny.
  pose proof (fround_mono _ _ _ _ N3 M3' Ey Ey') as My.
  assert (N4 : 0 <= qy * e) by nra.
  assert (M4' : qy * e <= qy' * e') by nra.
  pose proof (fround_fin_nonneg _ _ N4 Ew) as Nw.
  pose proof (fround_mono _ _ _ _ N4 M4' Ew Ew') as Mw.
  assert (N5 : 0 <= w + 2) by lra.
  assert (M5' : w + 2 <= w' + 2) by lra.
  split.
  - exact (fround_fin_nonneg _ _ N5 Ev).
  - exact (fround_mono _ _ _ _ N5 M5' Ev Ev').
Qed.

Lemma int_of_float_inv f z : int_of_float f = Ret z -> exists q, f = Ffin q /\ z = Qtrunc q.
Proof. destruct f as [q|s|]; try discriminate. intros [= <-]. exists q. auto. Qed.

Lemma base_damage_mono p p' a a' d d' e e' x x' :
  (0 < p <= p')%Z -> (0 < a <= a')%Z -> (0 < d' <= d)%Z -> 0 <= e -> e <= e' ->
  base_damage p a d (Ffin e) = Ret x -> base_damage p' a' d' (Ffin e') = Ret x' ->
  (0 <= x <= x')%Z.
Proof.
  intros Hp Ha Hd He Hee. rewrite !base_damage_pre.
  destruct (pre_damage p a d (Ffin e)) as [v| |] eqn:Ev; try discriminate.
  destruct (pre_damage p' a' d' (Ffin e')) as [v'| |] eqn:Ev'; try (intros; discriminate).
  cbn [bind]. intros Ex Ex'.
  apply int_of_float_inv in Ex, Ex'.
  destruct Ex as (q & -> & ->), Ex' as (q' & -> & ->).
  destruct (pre_damage_mono _ _ _ _ _ _ _ _ _ _ Hp Ha Hd He Hee Ev Ev') as [H0 H1].
  split.
  - unfold Qtrunc. replace (Qle_bool 0 q) with true
      by (symmetry; apply Qle_bool_iff; assumption).
    apply Qfloor_nonneg. assumption.
  - apply Qtrunc_mono; assumption.
Qed.

Lemma burn_drop_mono d d' y y' :
  (0 <= d <= d')%Z -> burn_drop d = Ret y -> burn_drop d' = Ret y' -> (y <= y')%Z.
Proof.
  intros Hd. unfold burn_drop.
  destruct (of_int d) as [f| |] eqn:Ef; try discriminate.
  destruct (of_int d') as [f'| |] eqn:Ef'; try (intros; discriminate).
  cbn [bind]. intros Ey Ey'.
  apply of_int_inv in Ef, Ef'. destruct Ef as (q & -> & Ef), Ef' as (q' & -> & Ef').
  apply int_of_float_inv in Ey, Ey'.
  destruct Ey as (h & Eh & ->), Ey' as (h' & Eh' & ->).
  cbn [fmul] in Eh, Eh'.
  assert (N : 0 <= inject_Z d) by (change 0 with (inject_Z 0); rewrite <- Zle_Qle; lia).
  assert (L : inject_Z d <= inject_Z d') by (rewrite <- Zle_Qle; lia).
  pose proof (fround_fin_nonneg _ _ N Ef) as Nq.
  pose proof (fround_mono _ _ _ _ N L Ef Ef') as Mq.
  assert (N1 : 0 <= q * half) by (unfold half; lra).
  assert (M1 : q * half <= q' * half) by (unfold half; lra).
  apply Qtrunc_mono.
  - exact (fround_fin_nonneg _ _ N1 Eh).
  - exact (fround_mono _ _ _ _ N1 M1 Eh Eh').
Qed.

(** On power and attack up to 2^16 and a multiplier up to 4, line 233
    gives a damage far below 2^53. *)
Lemma base_damage_small p a d e :
  (0 < p <= 2 ^ 16)%Z -> (0 < a <= 2 ^ 16)%Z -> (0 < d)%Z -> fin_in 0 (pow2 2) e ->
  exists d0, base_damage p a d e = Ret d0 /\ (0 <= d0 < 2 ^ 53)%Z.
Proof.
  intros Hp Ha Hd He. rewrite base_damage_pre.
  unfold pre_damage, fmul_int, fdiv_int, fadd_int.
  destruct (of_int_fin p 16) as [fp [Ep Hfp]]; [lia | lia | apply Z_le_pow2; lia |].
  rewrite Ep. cbn [bind].
  destruct (int_truediv_fin a d 16) as [fr [Er Hfr]];
    [lia | lia | lia | apply Z_le_pow2; lia |].
  rewrite Er. cbn [bind]. rewrite of_int_50. cbn [bind].
  pose proof (fmul_fin 2 16 _ _ ltac:(lia) fin_c24 Hfp) as Hx.
  pose proof (fmul_fin (2 + 16) 16 _ _ ltac:(lia) Hx Hfr) as Hy.
  destruct (fdiv_50_fin (2 + 16 + 16) _ ltac:(lia) Hy) as [y [Ey Hy']].
  rewrite Ey. cbn [bind]. rewrite of_int_2. cbn [bind].
  pose proof (fmul_fin (2 + 16 + 16) 2 _ _ ltac:(lia) Hy' He) as Hu.
  pose proof (fadd_fin (2 + 16 + 16 + 2) _ _ ltac:(lia) Hu
                (fin_2 (2 + 16 + 16 + 2) ltac:(lia))) as Hv.
  destruct (int_of_float_fin _ _ Hv) as [d0 [Ed0 [Hd0 Hd0']]].
  exists d0. split; [exact Ed0|]. split; [assumption|].
  rewrite pow2_Z in Hd0' by lia. rewrite <- Zle_Qle in Hd0'.
  change (2 + 16 + 16 + 2 + 1)%Z with 37%Z in Hd0'.
  assert (2 ^ 37 < 2 ^ 53)%Z by reflexivity. lia.
Qed.

(** X1.  Lines 233-237: more power, more attack, less defense or a larger
    multiplier never lower the damage of a hit, for an attacker in the
    same condition.  Every intermediate value is rounded to binary64,
    and each rounding keeps the order. *)
Theorem damage_is_monotone p p' att att' def def' e e' x x' :
  (0 < p <= p')%Z ->
  (0 < attack att <= attack att')%Z ->
  (0 < defense def' <= defense def)%Z ->
  status att = status att' ->
  0 <= e -> e <= e' ->
  attack_damage p att def (Ffin e) = Ret x ->
  attack_damage p' att' def' (Ffin e') = Ret x' ->
  (x <= x')%Z.
Proof.
  intros Hp Ha Hd Hs He Hee. unfold attack_damage. rewrite <- Hs.
  destruct (base_damage p _ _ _) as [b| |] eqn:Eb; try discriminate.
  destruct (base_damage p' _ _ _) as [b'| |] eqn:Eb'; try (intros; discriminate).
  cbn [bind].
  pose proof (base_damage_mono _ _ _ _ _ _ _ _ _ _ Hp Ha Hd He Hee Eb Eb') as Hb.
  destruct (is_status (status att) "burn").
  - apply burn_drop_mono. lia.
  - intros [= <-] [= <-]. lia.
Qed.

Lemma damage_is_monotone_witness :
  attack_damage 40 (scenario_attacker None) scenario_defender (Ffin 1) = Ret 5%Z
  /\ attack_damage 80 (scenario_attacker None) scenario_defender (Ffin 2) = Ret 17%Z
  /\ (5 <= 17)%Z.
Proof.
  split; [vm_compute; reflexivity|].
  split; [vm_compute; reflexivity|].
  apply (damage_is_monotone 40 80 (scenario_attacker None) (scenario_attacker None)
           scenario_defender scenario_defender 1 2 5 17).
  - lia.
  - cbn. lia.
  - cbn. lia.
  - reflexivity.
  - lra.
  - lra.
  - vm_compute. reflexivity.
  - vm_compute. reflexivity.
Defined.

(** X2.  Line 237: on power and attack up to 65536, a burned attacker
    deals exactly half, rounded down, of what the same hit deals
    without the burn; the conversion to float and the product with 0.5
    lose nothing. *)
Theorem burn_halves_damage p att burned def e :
  (0 < p <= 2 ^ 16)%Z -> (0 < attack att <= 2 ^ 16)%Z -> (0 < defense def)%Z ->
  fin_in 0 (pow2 2) e ->
  is_status (status att) "burn" = false ->
  is_status (status burned) "burn" = true ->
  attack burned = attack att ->
  exists d, attack_damage p att def e = Ret d
            /\ attack_damage p burned def e = Ret (d / 2)%Z.
Proof.
  intros Hp Ha Hd He Hn Hb Eatk. unfold attack_damage. rewrite Hn, Hb, Eatk.
  destruct (base_damage_small p (attack att) (defense def) e Hp Ha Hd He)
    as (d0 & E & Hd0).
  exists d0. rewrite E. cbn [bind]. split; [reflexivity|].
  apply burn_drop_small. assumption.
Qed.

Lemma burn_halves_damage_witness :
  exists d, attack_damage 40 (scenario_attacker None) scenario_defender (Ffin 1) = Ret d
            /\ attack_damage 40 (scenario_attacker (Some "burn"%string))
                 scenario_defender (Ffin 1) = Ret (d / 2)%Z.
Proof.
  apply (burn_halves_damage 40 (scenario_attacker None)
           (scenario_attacker (Some "burn"%string)) scenario_defender (Ffin 1)).
  - lia.
  - cbn. lia.
  - cbn. lia.
  - exists 1. split; [reflexivity|]. split; vm_compute; discriminate.
  - reflexivity.
  - reflexivity.
  - reflexivity.
Defined.

End RoundingFacts.

(* ================================================================== *)
(** ** Products of chart entries *)
(* ================================================================== *)

Module ProductFacts.

Import Float Py Chart Battle Props Derived Examples FloatFacts ChartFacts DamageFacts
  RoundingFacts.
Local Open Scope Q_scope.
Local Open Scope string_scope.

(** *** Products of chart entries are exact *)

Lemma pow2_lt a b : (a < b)%Z -> pow2 a < pow2 b.
Proof. intros H. apply Qpower_lt_compat_l; [assumption | reflexivity]. Qed.

Lemma Qred_zero q : q == 0 -> Qred q = 0.
Proof. intros E. rewrite (Qred_complete q 0 E). reflexivity. Qed.

Lemma fround_pow2 q k :
  (-1074 <= k <= 1023)%Z -> q == pow2 k -> fround q = Ffin (Qred q).
Proof.
  intros Hk E. pose proof (pow2_pos k) as Hp.
  apply (fround_exact q 1 k).
  - lra.
  - rewrite E. change (inject_Z 1) with 1. ring.
  - apply ulp_exp_small; [lra | | lia]. rewrite E. apply pow2_lt. lia.
  - rewrite E. apply pow2_lt. lia.
Qed.

Lemma multiplier_pow2 v :
  In v multipliers -> v == 0 \/ exists j, (-1 <= j <= 1)%Z /\ v == pow2 j.
Proof.
  cbn. intros [<-|[<-|[<-|[<-|[]]]]].
  - left. reflexivity.
  - right. exists (-1)%Z. split; [lia | reflexivity].
  - right. exists 0%Z. split; [lia | reflexivity].
  - right. exists 1%Z. split; [lia | reflexivity].
Qed.

Lemma zero_or_pow2_mul n a v :
  zero_or_pow2 n a -> In v multipliers -> zero_or_pow2 (n + 1) (a * v).
Proof.
  intros [Ea|(k & Hk & Ea)] Hv.
  - left. rewrite Ea. ring.
  - destruct (multiplier_pow2 v Hv) as [Ev|(j & Hj & Ev)].
    + left. rewrite Ev. ring.
    + right. exists (k + j)%Z. split; [lia|]. rewrite Ea, Ev, pow2_add. reflexivity.
Qed.

Lemma zero_or_pow2_comp n a b : a == b -> zero_or_pow2 n a -> zero_or_pow2 n b.
Proof.
  intros E [Ea|(k & Hk & Ea)]; [left | right; exists k; split; [assumption|]];
    rewrite <- E; assumption.
Qed.

Lemma fround_zero_or_pow2 n q :
  (n <= 1023)%Z -> zero_or_pow2 n q -> fround q = Ffin (Qred q).
Proof.
  intros Hn [E|(k & Hk & E)].
  - rewrite (fround_zero q E), (Qred_zero q E). reflexivity.
  - apply (fround_pow2 q k); [lia | assumption].
Qed.

Lemma fold_product_comp row tys a b :
  a == b ->
  fold_left (fun t d => t * get row d 1) tys a
  == fold_left (fun t d => t * get row d 1) tys b.
Proof.
  revert a b. induction tys as [|d tys IH]; intros a b E; cbn [fold_left]; [assumption|].
  apply IH. rewrite E. reflexivity.
Qed.

Lemma total_from row tys : forall n a,
  row_ok row = true -> zero_or_pow2 n a -> (n + Z.of_nat (List.length tys) <= 1023)%Z ->
  exists q,
    fold_left (fun total d => fmul total (entry row d)) tys (Ffin a) = Ffin q
    /\ q == fold_left (fun t d => t * get row d 1) tys a
    /\ zero_or_pow2 (n + Z.of_nat (List.length tys)) q
    /\ (a = Qred a -> q = Qred q).
Proof.
  induction tys as [|d tys IH]; intros n a Hr Ha Hn.
  - cbn [fold_left List.length]. exists a. split; [reflexivity|].
    split; [reflexivity|]. split; [|tauto].
    replace (n + Z.of_nat 0)%Z with n by lia. assumption.
  - cbn [fold_left]. cbn [List.length] in Hn |- *.
    pose proof (row_entry_in row d Hr) as Hv.
    pose proof (zero_or_pow2_mul n a _ Ha Hv) as Hm.
    unfold entry at 2. cbn [fmul].
    rewrite (fround_zero_or_pow2 (n + 1) _ ltac:(lia) Hm).
    assert (Hm' : zero_or_pow2 (n + 1) (Qred (a * get row d 1))).
    { apply (zero_or_pow2_comp _ (a * get row d 1)); [|assumption].
      symmetry. apply Qred_correct. }
    destruct (IH (n + 1)%Z _ Hr Hm' ltac:(lia)) as (q & E & Eq & Hz & Hc).
    exists q. split; [exact E|]. split; [|split].
    + rewrite Eq. apply fold_product_comp. apply Qred_correct.
    + replace (n + Z.of_nat (S (List.length tys)))%Z
        with (n + 1 + Z.of_nat (List.length tys))%Z by lia.
      assumption.
    + intros _. apply Hc. symmetry. apply Qred_complete, Qred_correct.
Qed.

(** On at most 1023 types the compound multiplier is the exact product
    of the entries. *)
Lemma total_exact row tys :
  row_ok row = true -> (List.length tys <= 1023)%nat ->
  exists q, total_effectiveness row tys = Ffin q /\ q == exact_product row tys
            /\ zero_or_pow2 1023 q /\ q = Qred q.
Proof.
  intros Hr Hl.
  assert (H1 : zero_or_pow2 0 1).
  { right. exists 0%Z. split; [lia | reflexivity]. }
  destruct (total_from row tys 0 1 Hr H1 ltac:(lia)) as (q & E & Eq & Hz & Hc).
  exists q. split; [exact E|]. split; [exact Eq|]. split; [|apply Hc; reflexivity].
  destruct Hz as [Hz|(k & Hk & Hz)]; [left; assumption|].
  right. exists k. split; [lia | assumption].
Qed.


Lemma exact_product_from row tys a :
  fold_left (fun t d => t * get row d 1) tys a == a * exact_product row tys.
Proof.
  unfold exact_product. revert a. induction tys as [|d tys IH]; intros a; cbn [fold_left].
  - ring.
  - rewrite (IH (a * get row d 1)), (IH (1 * get row d 1)). ring.
Qed.

Lemma exact_product_cons row d tys :
  exact_product row (d :: tys) == get row d 1 * exact_product row tys.
Proof.
  unfold exact_product at 1. cbn [fold_left]. rewrite exact_product_from. ring.
Qed.

Lemma exact_product_perm row tys tys' :
  Permutation tys tys' -> exact_product row tys == exact_product row tys'.
Proof.
  induction 1 as [|d l l' _ IH|d d' l|l l' l'' _ IH1 _ IH2].
  - reflexivity.
  - rewrite !exact_product_cons, IH. reflexivity.
  - rewrite !exact_product_cons. ring.
  - rewrite IH1. exact IH2.
Qed.

(** X3.  Lines 221-223 and 330-332: on a defender with at most 1023
    types the compound multiplier does not depend on the order in which
    the provider lists the types: the float products are exact. *)
Theorem multiplier_ignores_type_order :
  forall (a : string) (tys tys' : list string),
    (List.length tys <= 1023)%nat ->
    Permutation tys tys' ->
    battle_effectiveness a tys = battle_effectiveness a tys'
    /\ classify (total_against tys a) = classify (total_against tys' a).
Proof.
  intros a tys tys' Hl Hp.
  assert (E : battle_effectiveness a tys = battle_effectiveness a tys').
  { rewrite !battle_effectiveness_unfold.
    pose proof (chart_row_ok a) as Hr.
    assert (Hl' : (List.length tys' <= 1023)%nat)
      by (rewrite <- (Permutation_length Hp); assumption).
    destruct (total_exact _ tys Hr Hl) as (q & -> & Eq & _ & Hc).
    destruct (total_exact _ tys' Hr Hl') as (q' & -> & Eq' & _ & Hc').
    f_equal. rewrite Hc, Hc'. apply Qred_complete.
    rewrite Eq, Eq'. apply exact_product_perm. assumption. }
  split; [exact E|]. unfold total_against.
  rewrite <- !battle_effectiveness_unfold, E. reflexivity.
Qed.

Lemma multiplier_ignores_type_order_witness :
  battle_effectiveness "ice" ["dragon"; "flying"]
  = battle_effectiveness "ice" ["flying"; "dragon"]
  /\ classify (total_against ["dragon"; "flying"] "ice")
     = classify (total_against ["flying"; "dragon"] "ice").
Proof.
  apply (multiplier_ignores_type_order "ice" ["dragon"; "flying"] ["flying"; "dragon"]).
  - cbn. lia.
  - apply perm_swap.
Defined.

Lemma flt_spec a b : reflect (a < b) (flt (Ffin a) (Ffin b)).
Proof.
  cbn. destruct (Qle_bool b a) eqn:E; constructor.
  - apply Qle_bool_iff in E. lra.
  - assert (~ b <= a) by (rewrite <- Qle_bool_iff, E; discriminate). lra.
Qed.

Lemma feq_spec a b : reflect (a == b) (feq (Ffin a) (Ffin b)).
Proof.
  cbn. destruct (Qeq_bool a b) eqn:E; constructor.
  - apply Qeq_bool_iff. assumption.
  - rewrite <- Qeq_bool_iff, E. discriminate.
Qed.

Lemma pow2_ge_2 k : (1 <= k)%Z -> 2 <= pow2 k.
Proof. intros H. change 2 with (pow2 1). apply pow2_le. assumption. Qed.

Lemma pow2_le_half k : (k <= -1)%Z -> pow2 k <= 1 # 2.
Proof. intros H. change (1 # 2) with (pow2 (-1)). apply pow2_le. assumption. Qed.

(** The sign class of a chart product decides both the branch of lines
    225-230 and the branch of lines 334-341. *)
Lemma note_matches_bucket q who :
  zero_or_pow2 1023 q ->
  match classify (Ffin q) with
  | Weak _ => effectiveness_note (Ffin q) who = Some EvSuperEffective
  | Resistant _ => effectiveness_note (Ffin q) who = Some EvNotVeryEffective
  | Immune => effectiveness_note (Ffin q) who = Some (EvNoEffect who)
  | Normal => effectiveness_note (Ffin q) who = None
  end.
Proof.
  intros Hq. pose proof (pow2_pos) as Hpos.
  assert (Hc : q == 0 \/ 2 <= q \/ q == 1 \/ (0 < q /\ q <= 1 # 2)).
  { destruct Hq as [E|(k & Hk & E)]; [tauto|]. right.
    destruct (Z_lt_le_dec k 0) as [Hn|Hn].
    - right. right. rewrite E. split; [apply pow2_pos | apply pow2_le_half; lia].
    - destruct (Z.eq_dec k 0) as [->|Hne].
      + right. left. rewrite E. reflexivity.
      + left. rewrite E. apply pow2_ge_2. lia. }
  unfold classify, effectiveness_note, fge, fle, fgt.
  destruct (flt_spec 2 q), (feq_spec 2 q), (flt_spec q half), (feq_spec q half),
    (flt_spec 0 q), (feq_spec q 0), (flt_spec 1 q), (flt_spec q 1);
    cbn [orb andb]; cbv iota; try reflexivity; exfalso; unfold half in *; lra.
Qed.

Lemma in_weaknesses tys a :
  In a (map fst (weaknesses (type_breakdown tys)))
  <-> In a (keys TYPE_EFFECTIVENESS) /\ exists m, classify (total_against tys a) = Weak m.
Proof.
  destruct (breakdown_lists tys) as [HW _]. rewrite HW, in_fst. split.
  - intros [m H]. apply in_weak_of in H. destruct H. eauto.
  - intros [H [m E]]. exists m. apply in_weak_of. auto.
Qed.

Lemma in_resistances tys a :
  In a (map fst (resistances (type_breakdown tys)))
  <-> In a (keys TYPE_EFFECTIVENESS)
      /\ exists m, classify (total_against tys a) = Resistant m.
Proof.
  destruct (breakdown_lists tys) as [_ [HR _]]. rewrite HR, in_fst. split.
  - intros [m H]. apply in_resistant_of in H. destruct H. eauto.
  - intros [H [m E]]. exists m. apply in_resistant_of. auto.
Qed.

Lemma in_immunities tys a :
  In a (immunities (type_breakdown tys))
  <-> In a (keys TYPE_EFFECTIVENESS) /\ classify (total_against tys a) = Immune.
Proof.
  destruct (breakdown_lists tys) as [_ [_ HI]]. rewrite HI. apply in_immune_of.
Qed.

(** X4.  Lines 225-230 against lines 334-341: for a move of a chart type
    against a defender with at most 1023 types, the battle logs "super
    effective" exactly when the analysis of the defender lists the
    type as a weakness, "not very effective" exactly when it lists it
    as a resistance, "doesn't affect" exactly when it lists it as an
    immunity, and nothing exactly when the type is in no list. *)
Theorem battle_note_matches_breakdown :
  forall (a : string) (tys : list string) (who : string),
    (List.length tys <= 1023)%nat ->
    In a (keys TYPE_EFFECTIVENESS) ->
    let note := effectiveness_note (battle_effectiveness a tys) who in
    let b := type_breakdown tys in
    (note = Some EvSuperEffective <-> In a (map fst (weaknesses b)))
    /\ (note = Some EvNotVeryEffective <-> In a (map fst (resistances b)))
    /\ (note = Some (EvNoEffect who) <-> In a (immunities b))
    /\ (note = None <->
        ~ In a (map fst (weaknesses b)) /\ ~ In a (map fst (resistances b))
        /\ ~ In a (immunities b)).
Proof.
  intros a tys who Hl Hk note b. subst note b.
  rewrite in_weaknesses, in_resistances, in_immunities.
  rewrite battle_effectiveness_unfold. unfold total_against.
  destruct (total_exact _ tys (chart_row_ok a) Hl) as (q & -> & _ & Hz & _).
  pose proof (note_matches_bucket q who Hz) as H.
  destruct (classify (Ffin q)) as [m|m| |]; rewrite H; repeat split; unfold not; intros;
    repeat match goal with
           | H : _ /\ _ |- _ => destruct H
           | H : exists _, _ |- _ => destruct H
           end;
    try congruence; eauto;
    try (exfalso;
         match goal with
         | H : _ -> False |- _ => apply H; solve [split; [assumption | eauto] | split; auto]
         end).
Qed.

Lemma battle_note_matches_breakdown_witness :
  let note := effectiveness_note (battle_effectiveness "ice" ["dragon"; "flying"]) "Dragonite" in
  let b := type_breakdown ["dragon"; "flying"] in
  (note = Some EvSuperEffective <-> In "ice" (map fst (weaknesses b)))
  /\ (note = Some EvNotVeryEffective <-> In "ice" (map fst (resistances b)))
  /\ (note = Some (EvNoEffect "Dragonite") <-> In "ice" (immunities b))
  /\ (note = None <->
      ~ In "ice" (map fst (weaknesses b))
      /\ ~ In "ice" (map fst (resistances b))
      /\ ~ In "ice" (immunities b)).
Proof.
  apply (battle_note_matches_breakdown "ice" ["dragon"; "flying"] "Dragonite").
  - cbn. lia.
  - cbn. tauto.
Defined.

Lemma exact_product_zero row tys d :
  In d tys -> get row d 1 == 0 -> exact_product row tys == 0.
Proof.
  induction tys as [|d' tys IH]; [intros []|].
  intros [->|Hin] E; rewrite exact_product_cons.
  - rewrite E. ring.
  - rewrite (IH Hin E). ring.
Qed.

(** X5.  One immune type is enough: if the chart gives 0 for a move type
    against any one of the defender's (at most 1023) types, the
    battle's multiplier is 0 whatever the other types are, the log
    says the move does not affect the defender, and the analysis lists
    the move type under the immunities. *)
Theorem immunity_dominates :
  forall (a : string) (row : dict Q) (tys : list string) (d who : string),
    lookup TYPE_EFFECTIVENESS a = Some row ->
    (List.length tys <= 1023)%nat ->
    In d tys ->
    lookup row d = Some 0 ->
    battle_effectiveness a tys = Ffin 0
    /\ effectiveness_note (battle_effectiveness a tys) who = Some (EvNoEffect who)
    /\ In a (immunities (type_breakdown tys)).
Proof.
  intros a row tys d who Ha Hl Hd Hz.
  assert (E : battle_effectiveness a tys = Ffin 0).
  { rewrite battle_effectiveness_unfold.
    destruct (total_exact _ tys (chart_row_ok a) Hl) as (q & -> & Eq & _ & Hc).
    f_equal. rewrite Hc. apply Qred_zero. rewrite Eq.
    apply (exact_product_zero _ tys d Hd).
    unfold get. rewrite Ha, Hz. reflexivity. }
  split; [exact E|]. split.
  - rewrite E. reflexivity.
  - apply in_immunities. split; [eapply lookup_Some_keys; eassumption|].
    unfold total_against. rewrite <- battle_effectiveness_unfold, E. reflexivity.
Qed.

Lemma immunity_dominates_witness :
  battle_effectiveness "electric" ["water"; "ground"] = Ffin 0
  /\ effectiveness_note (battle_effectiveness "electric" ["water"; "ground"]) "Quagsire"
     = Some (EvNoEffect "Quagsire")
  /\ In "electric" (immunities (type_breakdown ["water"; "ground"])).
Proof.
  apply (immunity_dominates "electric"
           [("water", 2%Q); ("electric", half); ("grass", half);
            ("ground", 0%Q); ("flying", 2%Q); ("dragon", half)]
           ["water"; "ground"] "ground" "Quagsire").
  - reflexivity.
  - cbn. lia.
  - cbn. tauto.
  - reflexivity.
Defined.

(** X6.  Lines 295-304 against lines 221-223: for an attacking type of
    the chart, the verdict of [get_type_effectiveness] is the one of
    the multiplier that the battle uses against a defender of that
    single type: 2 gives "Super effective", 0.5 "Not very effective",
    0 "No effect" and 1 "Normal effectiveness", and there is no other
    case. *)
Theorem query_agrees_with_battle :
  forall (a d : string),
    In (lower a) (keys TYPE_EFFECTIVENESS) ->
    let e := battle_effectiveness (lower a) [lower d] in
    exists verdict,
      get_type_effectiveness a d
      = capitalize (lower a) ++ " vs " ++ capitalize (lower d) ++ ": " ++ verdict
      /\ ((e = Ffin 2 /\ verdict = "Super effective (2x damage)")
          \/ (e = Ffin half /\ verdict = "Not very effective (0.5x damage)")
          \/ (e = Ffin 0 /\ verdict = "No effect (0x damage)")
          \/ (e = Ffin 1 /\ verdict = "Normal effectiveness (1x damage)")).
Proof.
  intros a d Hk e. subst e.
  destruct (lookup TYPE_EFFECTIVENESS (lower a)) as [row|] eqn:El.
  2:{ apply lookup_None in El. contradiction. }
  assert (Hr : row_ok row = true).
  { pose proof (chart_row_ok (lower a)) as H. unfold get in H. rewrite El in H. exact H. }
  assert (Ee : battle_effectiveness (lower a) [lower d] = Ffin (get row (lower d) 1%Q)).
  { rewrite battle_effectiveness_unfold.
    replace (get TYPE_EFFECTIVENESS (lower a) []) with row
      by (unfold get; rewrite El; reflexivity).
    apply total_single. assumption. }
  rewrite Ee. unfold get_type_effectiveness. rewrite El. cbv zeta. unfold entry.
  pose proof (row_entry_in row (lower d) Hr) as Hv.
  destruct Hv as [<-|[<-|[<-|[<-|[]]]]]; eexists; (split; [reflexivity|]).
  - right. right. left. split; reflexivity.
  - right. left. split; reflexivity.
  - right. right. right. split; reflexivity.
  - left. split; reflexivity.
Qed.

Lemma query_agrees_with_battle_witness :
  exists verdict,
    get_type_effectiveness "Fire" "GRASS" = "Fire vs Grass: " ++ verdict
    /\ ((battle_effectiveness "fire" ["grass"] = Ffin 2
         /\ verdict = "Super effective (2x damage)")
        \/ (battle_effectiveness "fire" ["grass"] = Ffin half
            /\ verdict = "Not very effective (0.5x damage)")
        \/ (battle_effectiveness "fire" ["grass"] = Ffin 0
            /\ verdict = "No effect (0x damage)")
        \/ (battle_effectiveness "fire" ["grass"] = Ffin 1
            /\ verdict = "Normal effectiveness (1x damage)")).
Proof.
  apply (query_agrees_with_battle "Fire" "GRASS"). cbn. tauto.
Defined.

(** *** The buckets against the exact product *)

Lemma table_entry_get a d :
  Spec.table_entry a d = get (get TYPE_EFFECTIVENESS a []) d 1.
Proof.
  unfold Spec.table_entry, get.
  destruct (lookup TYPE_EFFECTIVENESS a) as [row|]; reflexivity.
Qed.

Lemma compound_exact a tys :
  Spec.compound a tys == exact_product (get TYPE_EFFECTIVENESS a []) tys.
Proof.
  induction tys as [|d tys IH]; [reflexivity|].
  rewrite exact_product_cons. cbn [Spec.compound fold_right].
  fold (Spec.compound a tys). rewrite IH, table_entry_get. reflexivity.
Qed.

Lemma Qle_bool_comp a b c d : a == c -> b == d -> Qle_bool a b = Qle_bool c d.
Proof.
  intros E1 E2. destruct (Qle_bool a b) eqn:H1; destruct (Qle_bool c d) eqn:H2;
    try reflexivity.
  - apply Qle_bool_iff in H1. rewrite E1, E2 in H1. apply Qle_bool_iff in H1. congruence.
  - apply Qle_bool_iff in H2. rewrite <- E1, <- E2 in H2. apply Qle_bool_iff in H2.
    congruence.
Qed.

Lemma Qeq_bool_comp a b c d : a == c -> b == d -> Qeq_bool a b = Qeq_bool c d.
Proof.
  intros E1 E2. destruct (Qeq_bool a b) eqn:H1; destruct (Qeq_bool c d) eqn:H2;
    try reflexivity.
  - apply Qeq_bool_iff in H1. rewrite E1, E2 in H1. apply Qeq_bool_iff in H1. congruence.
  - apply Qeq_bool_iff in H2. rewrite <- E1, <- E2 in H2. apply Qeq_bool_iff in H2.
    congruence.
Qed.

Lemma bucket_of_multiplier_comp p q :
  p == q -> Spec.bucket_of_multiplier p = Spec.bucket_of_multiplier q.
Proof.
  intros E. unfold Spec.bucket_of_multiplier.
  rewrite (Qle_bool_comp 2 p 2 q), (Qeq_bool_comp p 4 q 4), (Qeq_bool_comp p 0 q 0),
    (Qle_bool_comp p 0 q 0), (Qle_bool_comp p (1 # 2) q (1 # 2)),
    (Qeq_bool_comp p (1 # 4) q (1 # 4)); (reflexivity || assumption).
Qed.

(** On a finite float the code's comparisons are the ones of its
    value. *)
Lemma bucket_of_float q : Spec.bucket_of (Ffin q) = Spec.bucket_of_multiplier q.
Proof.
  unfold Spec.bucket_of, Spec.bucket_of_multiplier, fge, fle, fgt.
  destruct (flt_spec 2 q), (feq_spec 2 q), (feq_spec q 4), (feq_spec q 0),
    (flt_spec 0 q), (flt_spec q half), (feq_spec q half), (feq_spec q (1 # 4));
    cbn [orb andb negb]; cbv iota;
    repeat match goal with
           | |- context [Qle_bool ?a ?b] =>
               let H := fresh in destruct (Qle_bool a b) eqn:H;
               [apply Qle_bool_iff in H
               | assert (~ a <= b) by (rewrite <- Qle_bool_iff, H; discriminate)]
           | |- context [Qeq_bool ?a ?b] =>
               let H := fresh in destruct (Qeq_bool a b) eqn:H;
               [apply Qeq_bool_iff in H
               | assert (~ a == b) by (rewrite <- Qeq_bool_iff, H; discriminate)]
           end;
    cbn [orb andb negb]; cbv iota; try reflexivity; exfalso; unfold half in *; lra.
Qed.

Lemma bucket_of_total a tys :
  (List.length tys <= 1023)%nat ->
  Spec.bucket_of (total_against tys a)
  = Spec.bucket_of_multiplier (Spec.compound a tys).
Proof.
  intros Hl. unfold total_against.
  destruct (total_exact _ tys (chart_row_ok a) Hl) as (q & -> & Eq & _ & _).
  rewrite bucket_of_float. apply bucket_of_multiplier_comp.
  rewrite Eq. symmetry. apply compound_exact.
Qed.

(** C9.  For a defender with at most 1023 types (the specification
    gives a creature one or two) the breakdown puts each of the 18
    elements of the chart in the bucket of its compound multiplier,
    the product over the rationals of the chart entries of the
    element against the defender's types, an absent entry counting as
    1: at least 2 is weak, 0 is immune, above 0 and at most 0.5 is
    resistant, anything else is in no list; the labels are 4x and
    0.25x for exactly 4 and 0.25 and 2x and 0.5x otherwise; no element
    occurs twice in a bucket or in two buckets. *)
Theorem breakdown_partitions :
  forall pokemon_types : list string,
    (List.length pokemon_types <= 1023)%nat ->
    let b := type_breakdown pokemon_types in
    let universe := keys TYPE_EFFECTIVENESS in
    let bucket a := Spec.bucket_of_multiplier (Spec.compound a pokemon_types) in
    List.length universe = 18%nat
    /\ NoDup universe
    /\ (forall a m, In (a, m) (weaknesses b) <-> In a universe /\ bucket a = Weak m)
    /\ (forall a m,
           In (a, m) (resistances b) <-> In a universe /\ bucket a = Resistant m)
    /\ (forall a, In a (immunities b) <-> In a universe /\ bucket a = Immune)
    /\ NoDup (map fst (weaknesses b))
    /\ NoDup (map fst (resistances b))
    /\ NoDup (immunities b)
    /\ (forall a,
           ~ (In a (map fst (weaknesses b)) /\ In a (map fst (resistances b)))
           /\ ~ (In a (map fst (weaknesses b)) /\ In a (immunities b))
           /\ ~ (In a (map fst (resistances b)) /\ In a (immunities b))).
Proof.
  intros tys Hl b universe bucket.
  destruct (breakdown_by_total tys) as (H18 & Hnd & W & R & I & N1 & N2 & N3 & D).
  fold b in W, R, I, N1, N2, N3, D. fold universe in W, R, I.
  split; [exact H18|]. split; [exact Hnd|].
  split; [intros a m; rewrite W, (bucket_of_total a tys Hl); reflexivity|].
  split; [intros a m; rewrite R, (bucket_of_total a tys Hl); reflexivity|].
  split; [intros a; rewrite I, (bucket_of_total a tys Hl); reflexivity|].
  split; [exact N1|]. split; [exact N2|]. split; [exact N3|]. exact D.
Qed.

(** Parasect, bug and grass: fire and flying count four times, ground
    and grass a quarter, and nothing is without effect. *)
Lemma breakdown_partitions_witness :
  (List.length ["bug"; "grass"] <= 1023)%nat
  /\ Spec.compound "fire" ["bug"; "grass"] == 4
  /\ In ("fire", "4x") (weaknesses (type_breakdown ["bug"; "grass"]))
  /\ Spec.compound "ground" ["bug"; "grass"] == 1 # 4
  /\ In ("ground", "0.25x") (resistances (type_breakdown ["bug"; "grass"]))
  /\ Spec.compound "water" ["bug"; "grass"] == 1 # 2
  /\ In ("water", "0.5x") (resistances (type_breakdown ["bug"; "grass"]))
  /\ Spec.compound "normal" ["bug"; "grass"] == 1
  /\ ~ In "normal" (map fst (weaknesses (type_breakdown ["bug"; "grass"])))
  /\ ~ In "normal" (immunities (type_breakdown ["bug"; "grass"])).
Proof.
  assert (Hl : (List.length ["bug"; "grass"] <= 1023)%nat) by (cbn; lia).
  pose proof (breakdown_partitions ["bug"; "grass"] Hl) as H.
  cbv zeta in H. destruct H as (_ & _ & W & R & I & _).
  assert (K : forall a, existsb (String.eqb a) (keys TYPE_EFFECTIVENESS) = true ->
                        In a (keys TYPE_EFFECTIVENESS)).
  { intros a Ha. apply existsb_exists in Ha. destruct Ha as (x & Hx & E).
    apply String.eqb_eq in E. subst. exact Hx. }
  split; [exact Hl|].
  split; [vm_compute; reflexivity|].
  split.
  { refine (proj2 (W "fire" "4x") (conj (K "fire" _) _)); vm_compute; reflexivity. }
  split; [vm_compute; reflexivity|].
  split.
  { refine (proj2 (R "ground" "0.25x") (conj (K "ground" _) _)); vm_compute; reflexivity. }
  split; [vm_compute; reflexivity|].
  split.
  { refine (proj2 (R "water" "0.5x") (conj (K "water" _) _)); vm_compute; reflexivity. }
  split; [vm_compute; reflexivity|].
  split.
  - assert (E : Spec.bucket_of_multiplier (Spec.compound "normal" ["bug"; "grass"])
                = Normal) by (vm_compute; reflexivity).
    intros H.
    destruct (proj1 (in_fst (weaknesses (type_breakdown ["bug"; "grass"])) "normal") H)
      as [m Hm].
    pose proof (proj2 (proj1 (W "normal" m) Hm)) as H'. rewrite E in H'.
    discriminate H'.
  - assert (E : Spec.bucket_of_multiplier (Spec.compound "normal" ["bug"; "grass"])
                = Normal) by (vm_compute; reflexivity).
    intros H. pose proof (proj2 (proj1 (I "normal") H)) as H'.
    rewrite E in H'. discriminate H'.
Defined.

End ProductFacts.

(* ================================================================== *)
(** ** The battle log *)
(* ================================================================== *)

Module LogFacts.

Import Float Py Chart Battle Props Derived Examples FloatFacts ChartFacts DamageFacts
  BattleFacts.
Local Open Scope Z_scope.
Local Open Scope string_scope.

#[local] Hint Rewrite attacker_say defender_say attacker_say_opt defender_say_opt
  attacker_with_tries defender_with_tries attacker_next_roll defender_next_roll
  attacker_with_defender defender_with_defender attacker_with_attacker
  defender_with_attacker : roles.

(** *** What one turn writes to the log *)

Lemma turn_headers_app l l' :
  turn_headers (l ++ l') = (turn_headers l ++ turn_headers l')%list.
Proof. unfold turn_headers. apply flat_map_app. Qed.

Lemma damage_taken_app who l l' :
  damage_taken who (l ++ l') = damage_taken who l + damage_taken who l'.
Proof.
  unfold damage_taken. induction l as [|e l IH]; cbn; [reflexivity|].
  cbn in IH. rewrite IH. lia.
Qed.

Lemma plain_headers e : plain e -> turn_headers [e] = [].
Proof. destruct e; cbn; tauto. Qed.

Lemma plain_damage who e : plain e -> damage_taken who [e] = 0.
Proof. destruct e; cbn; tauto. Qed.

Lemma accounted_refl b : accounted b b.
Proof.
  unfold accounted. repeat (split; [reflexivity|]). exists []. rewrite app_nil_r. cbn.
  repeat split; lia.
Qed.

Lemma accounted_trans a b c : accounted a b -> accounted b c -> accounted a c.
Proof.
  intros (N1 & N2 & F & T & l & El & Hh & H)
         (N1' & N2' & F' & T' & l' & El' & Hh' & H').
  rewrite N1, N2 in H'.
  repeat split; try congruence.
  exists (l ++ l')%list. rewrite El', El, app_assoc. split; [reflexivity|].
  rewrite turn_headers_app, Hh, Hh', !damage_taken_app. split; [reflexivity|].
  intros Hn. specialize (H Hn). specialize (H' Hn). lia.
Qed.

Lemma accounted_say b e : plain e -> accounted b (say b e).
Proof.
  intros He. unfold accounted. destruct b. cbn. repeat (split; [reflexivity|]).
  exists [e]. split; [reflexivity|].
  rewrite plain_headers, !plain_damage by assumption. repeat split; lia.
Qed.

Lemma note_plain eff who e : effectiveness_note eff who = Some e -> plain e.
Proof.
  unfold effectiveness_note.
  destruct (fgt eff (Ffin 1)); [intros [= <-]; exact I|].
  destruct (flt eff (Ffin 1) && fgt eff (Ffin 0)); [intros [= <-]; exact I|].
  destruct (feq eff (Ffin 0)); [intros [= <-]; exact I | discriminate].
Qed.

Lemma accounted_say_opt b eff who :
  accounted b (say_opt b (effectiveness_note eff who)).
Proof.
  destruct (effectiveness_note eff who) as [e|] eqn:E; cbn [say_opt].
  - apply accounted_say. eapply note_plain. eassumption.
  - apply accounted_refl.
Qed.

Lemma accounted_next_roll b : accounted b (next_roll b).
Proof.
  unfold accounted. destruct b. cbn. repeat (split; [reflexivity|]). exists [].
  rewrite app_nil_r. cbn. repeat split; lia.
Qed.

Lemma accounted_with_tries b n : accounted b (with_tries b n).
Proof.
  unfold accounted. destruct b. cbn. repeat (split; [reflexivity|]). exists [].
  rewrite app_nil_r. cbn. repeat split; lia.
Qed.

Lemma accounted_set_status b a :
  accounted b (with_defender b (set_status (defender b) a)).
Proof.
  unfold accounted. split_battle b; cbn; repeat (split; [reflexivity|]); exists [];
    rewrite app_nil_r; cbn; repeat split; lia.
Qed.

Lemma eqb_other a b : a <> b -> String.eqb a b = false.
Proof. intros H. apply String.eqb_neq. assumption. Qed.

(** Lines 239-240 for the defender, lines 261-262 for the attacker. *)
Lemma accounted_hit b damage shown :
  accounted b
    (say (with_defender b (set_hp (defender b) (hp (defender b) - damage)))
       (EvDamage (name (defender b)) damage shown)).
Proof.
  unfold accounted. split_battle b; cbn in *; repeat (split; [reflexivity|]);
    eexists; (split; [reflexivity|]); cbn; (split; [reflexivity|]); intros Hn;
    rewrite String.eqb_refl, eqb_other by congruence; repeat split; lia.
Qed.

Lemma accounted_tick b sd s :
  accounted b
    (say (with_attacker b (set_hp (attacker b) (hp (attacker b) - sd)))
       (EvStatusDamage (name (attacker b)) sd s)).
Proof.
  unfold accounted. split_battle b; cbn in *; repeat (split; [reflexivity|]);
    eexists; (split; [reflexivity|]); cbn; (split; [reflexivity|]); intros Hn;
    rewrite String.eqb_refl, eqb_other by congruence; repeat split; lia.
Qed.

Lemma accounted_after_hit b move n' damage : accounted b (after_hit b move n' damage).
Proof.
  rewrite after_hit_eq.
  set (b1 := with_tries b n').
  set (b2 := say b1 (EvUsed (name (attacker b))
                       (title (replace_char "-" " " (mv_name move))))).
  set (b3 := say_opt b2 _).
  assert (A3 : accounted b b3).
  { apply (accounted_trans _ b1); [apply accounted_with_tries|].
    apply (accounted_trans _ b2); [apply accounted_say; exact I|].
    apply accounted_say_opt. }
  eapply accounted_trans; [exact A3|].
  assert (Ed : defender b3 = defender b).
  { unfold b3, b2, b1. autorewrite with roles. reflexivity. }
  rewrite <- Ed. apply accounted_hit.
Qed.

Lemma accounted_apply_ailment w move b b' :
  apply_ailment w move b = Ret b' -> accounted b b'.
Proof.
  intros H. apply apply_ailment_inv in H.
  destruct H as [->|(meta & c & thr & _ & _ & _ & _ & _ & [[_ ->]|[_ ->]])].
  - apply accounted_refl.
  - apply accounted_next_roll.
  - eapply accounted_trans; [apply accounted_next_roll|].
    rewrite <- (defender_next_roll b) at 1.
    eapply accounted_trans; [apply accounted_set_status|].
    apply accounted_say. exact I.
Qed.

Lemma accounted_attack_phase w tries b r :
  attack_phase w tries b = Ret r -> accounted b (flow_state r).
Proof.
  intros H. apply attack_phase_inv in H.
  destruct H as (move & n' & damage & _ & _ & H). cbn zeta in H.
  pose proof (accounted_after_hit b move n' damage) as A.
  destruct H as [[_ ->]|[_ (b2 & Hail & ->)]]; cbn [flow_state].
  - eapply accounted_trans; [exact A|]. apply accounted_say. exact I.
  - eapply accounted_trans; [exact A|]. eapply accounted_apply_ailment. eassumption.
Qed.

Lemma accounted_action w tries b r :
  action w tries b = Ret r -> accounted b (flow_state r).
Proof.
  intros H. apply action_inv in H.
  destruct H as [(_ & _ & ->)|[(_ & _ & H)|(_ & H)]]; cbn [flow_state].
  - eapply accounted_trans; [apply accounted_next_roll|]. apply accounted_say. exact I.
  - eapply accounted_trans; [apply accounted_next_roll|].
    eapply accounted_attack_phase. eassumption.
  - eapply accounted_attack_phase; eassumption.
Qed.

Lemma accounted_status_tick d1 d2 b r :
  status_tick d1 d2 b = Ret r -> accounted b (flow_state r).
Proof.
  intros H. apply status_tick_inv in H.
  destruct H as [[-> _]|(s & m & sd & _ & _ & _ & _ & H)]; [apply accounted_refl|].
  cbn zeta in H. pose proof (accounted_tick b sd s) as A.
  destruct H as [[_ ->]|[_ ->]]; cbn [flow_state]; [|exact A].
  eapply accounted_trans; [exact A|]. apply accounted_say. exact I.
Qed.

(** One iteration of the loop: a header with the current turn number,
    then lines without a header; the turn number and the roles change
    exactly when the loop goes on. *)
Lemma turn_body_log w d1 d2 tries b r :
  turn_body w d1 d2 tries b = Ret r ->
  let b' := flow_state r in
  name (pokemon1 b') = name (pokemon1 b)
  /\ name (pokemon2 b') = name (pokemon2 b)
  /\ match r with
     | Next _ => turn b' = turn b + 1 /\ attacker_is_1 b' = negb (attacker_is_1 b)
     | Break _ => turn b' = turn b /\ attacker_is_1 b' = attacker_is_1 b
     end
  /\ exists l,
       battle_log b' = (battle_log b ++ EvTurn (turn b) :: l)%list
       /\ turn_headers l = []
       /\ (name (pokemon1 b) <> name (pokemon2 b) ->
           damage_taken (name (pokemon1 b)) l = hp (pokemon1 b) - hp (pokemon1 b')
           /\ damage_taken (name (pokemon2 b)) l = hp (pokemon2 b) - hp (pokemon2 b')).
Proof.
  intros H. apply turn_body_inv in H. destruct H as (r1 & Hact & H).
  apply accounted_action in Hact.
  assert (A : exists bx,
             accounted (say b (EvTurn (turn b))) bx
             /\ (r = Break bx \/ r = Next (swap_roles bx))).
  { destruct H as [(bb & -> & ->)|(bb & r2 & -> & Htick & H)].
    - exists bb. split; [exact Hact | now left].
    - apply accounted_status_tick in Htick. cbn [flow_state] in Hact.
      pose proof (accounted_trans _ _ _ Hact Htick) as A.
      destruct H as [(bc & -> & ->)|(bc & -> & ->)]; exists bc; cbn [flow_state] in A;
        (split; [exact A | tauto]). }
  destruct A as (bx & (N1 & N2 & F & T & l & El & Hh & Hd) & Hr). clear H Hact.
  destruct b as [p1 p2 first t log nr nt]. cbn in N1, N2, F, T, El, Hd. cbn.
  destruct Hr as [-> | ->]; cbn [flow_state]; destruct bx; cbn in *; subst;
    (split; [assumption|]); (split; [assumption|]); (split; [split; reflexivity|]).
  - exists l. rewrite <- app_assoc. cbn. auto.
  - exists (l ++ [EvBlank])%list. rewrite <- !app_assoc. cbn. split; [reflexivity|].
    rewrite turn_headers_app, Hh. split; [reflexivity|].
    intros Hn. rewrite !damage_taken_app. specialize (Hd Hn). cbn. lia.
Qed.

Lemma count_up_S t k : count_up t (S k) = t :: count_up (t + 1) k.
Proof.
  unfold count_up. cbn [seq map]. f_equal; [lia|].
  rewrite <- seq_shift, map_map. apply map_ext. intros i. lia.
Qed.

(** The whole loop: headers numbered from the turn counter on. *)
Lemma battle_loop_log w d1 d2 tries fuel : forall b b',
  battle_loop w d1 d2 tries fuel b = Ret b' ->
  name (pokemon1 b') = name (pokemon1 b)
  /\ name (pokemon2 b') = name (pokemon2 b)
  /\ exists k l,
       battle_log b' = (battle_log b ++ l)%list
       /\ turn_headers l = count_up (turn b) k
       /\ (name (pokemon1 b) <> name (pokemon2 b) ->
           damage_taken (name (pokemon1 b)) l = hp (pokemon1 b) - hp (pokemon1 b')
           /\ damage_taken (name (pokemon2 b)) l = hp (pokemon2 b) - hp (pokemon2 b')).
Proof.
  induction fuel as [|fuel IH]; intros b b'; cbn [battle_loop].
  - destruct (both_standing b); [discriminate|]. intros [= <-].
    split; [reflexivity|]. split; [reflexivity|]. exists O, []. rewrite app_nil_r. cbn.
    repeat split; lia.
  - destruct (both_standing b).
    2:{ intros [= <-]. split; [reflexivity|]. split; [reflexivity|].
        exists O, []. rewrite app_nil_r. cbn. repeat split; lia. }
    destruct (turn_body w d1 d2 tries b) as [r| |] eqn:Et; cbn [bind]; try discriminate.
    apply turn_body_log in Et. cbn zeta in Et.
    destruct Et as (N1 & N2 & Hr & l & El & Hh & Hd).
    destruct r as [b1|b1]; cbn [flow_state] in *.
    + intros H. apply IH in H.
      destruct H as (N1' & N2' & k & l' & El' & Hh' & Hd').
      destruct Hr as [Ht _]. rewrite N1, N2 in Hd'. rewrite Ht in Hh'.
      split; [congruence|]. split; [congruence|].
      exists (S k), (EvTurn (turn b) :: l ++ l')%list.
      split; [rewrite El', El, <- app_assoc; reflexivity|].
      split.
      * change (EvTurn (turn b) :: l ++ l')%list
          with ([EvTurn (turn b)] ++ (l ++ l'))%list.
        rewrite !turn_headers_app, Hh, Hh', count_up_S. reflexivity.
      * intros Hn. specialize (Hd Hn). specialize (Hd' Hn).
        change (EvTurn (turn b) :: l ++ l')%list
          with ([EvTurn (turn b)] ++ (l ++ l'))%list.
        rewrite !damage_taken_app. cbn. lia.
    + intros [= <-]. split; [assumption|]. split; [assumption|].
      exists 1%nat, (EvTurn (turn b) :: l). split; [exact El|]. split.
      * change (EvTurn (turn b) :: l) with ([EvTurn (turn b)] ++ l)%list.
        rewrite turn_headers_app, Hh. cbn. f_equal. lia.
      * intros Hn. specialize (Hd Hn).
        change (EvTurn (turn b) :: l) with ([EvTurn (turn b)] ++ l)%list.
        rewrite !damage_taken_app. cbn. lia.
Qed.

Lemma start_inv d1 d2 n1 n2 b0 :
  start d1 d2 n1 n2 = Ret b0 ->
  exists p1 p2,
    make_pokemon d1 = Ret p1 /\ make_pokemon d2 = Ret p2
    /\ pokemon1 b0 = p1 /\ pokemon2 b0 = p2 /\ turn b0 = 1
    /\ attacker_is_1 b0 = (speed p2 <=? speed p1)%Z
    /\ battle_log b0
       = [EvIntro (capitalize n1) (capitalize n2);
          EvFaster (name (if (speed p2 <=? speed p1)%Z then p1 else p2))].
Proof.
  unfold start.
  destruct (make_pokemon d1) as [p1| |]; cbn [bind]; try discriminate.
  destruct (make_pokemon d2) as [p2| |]; cbn [bind]; try discriminate.
  intros [= <-]. exists p1, p2. cbn. repeat split; reflexivity.
Qed.

Lemma run_battle_log w d1 d2 tries fuel n1 n2 b :
  run_battle w d1 d2 tries fuel n1 n2 = Ret b ->
  exists p1 p2 k,
    make_pokemon d1 = Ret p1 /\ make_pokemon d2 = Ret p2
    /\ name (pokemon1 b) = name p1 /\ name (pokemon2 b) = name p2
    /\ turn_headers (battle_log b) = count_up 1 k
    /\ (name p1 <> name p2 ->
        damage_taken (name p1) (battle_log b) = hp p1 - hp (pokemon1 b)
        /\ damage_taken (name p2) (battle_log b) = hp p2 - hp (pokemon2 b)).
Proof.
  unfold run_battle.
  destruct (start d1 d2 n1 n2) as [b0| |] eqn:E0; cbn [bind]; try discriminate.
  destruct (battle_loop w d1 d2 tries fuel b0) as [b1| |] eqn:E1; cbn [bind];
    try discriminate.
  intros [= <-].
  apply start_inv in E0. destruct E0 as (p1 & p2 & M1 & M2 & P1 & P2 & T0 & _ & L0).
  apply battle_loop_log in E1. destruct E1 as (N1 & N2 & k & l & El & Hh & Hd).
  rewrite P1, P2, T0 in *.
  exists p1, p2, k. split; [exact M1|]. split; [exact M2|].
  assert (Ec : battle_log (conclude b1)
               = (battle_log b0 ++ l ++ [EvBattleOver; EvWinner (name (winner b1))])%list).
  { unfold conclude. destruct b1. cbn in *. rewrite El, <- !app_assoc. reflexivity. }
  assert (E1 : pokemon1 (conclude b1) = pokemon1 b1) by (destruct b1; reflexivity).
  assert (E2 : pokemon2 (conclude b1) = pokemon2 b1) by (destruct b1; reflexivity).
  rewrite E1, E2, Ec, L0.
  split; [exact N1|]. split; [exact N2|]. split.
  - rewrite !turn_headers_app, Hh. cbn. apply app_nil_r.
  - intros Hn. specialize (Hd Hn). rewrite !damage_taken_app. cbn. lia.
Qed.

(** X7.  The damage lines of a finished battle account for every HP
    lost: when the two creatures have different names, the base HP of
    each minus the damage and status damage that the log reports for
    it is its HP at the end. *)
Theorem log_accounts_for_every_hp :
  forall (w : world) (d1 d2 : pokemon_data) (tries fuel : nat)
         (n1 n2 : string) (p1 p2 : pokemon) (b : battle),
    make_pokemon d1 = Ret p1 ->
    make_pokemon d2 = Ret p2 ->
    name p1 <> name p2 ->
    run_battle w d1 d2 tries fuel n1 n2 = Ret b ->
    hp (pokemon1 b) = hp p1 - damage_taken (name p1) (battle_log b)
    /\ hp (pokemon2 b) = hp p2 - damage_taken (name p2) (battle_log b).
Proof.
  intros w d1 d2 tries fuel n1 n2 p1 p2 b M1 M2 Hn H.
  apply run_battle_log in H.
  destruct H as (q1 & q2 & k & M1' & M2' & _ & _ & _ & Hd).
  rewrite M1 in M1'. rewrite M2 in M2'. injection M1' as <-. injection M2' as <-.
  specialize (Hd Hn). lia.
Qed.

(** X8.  The turn headers of a finished battle are numbered 1, 2, 3,
    ... without a gap or a repetition, whatever happened in the
    turns. *)
Theorem turn_headers_count_from_one :
  forall (w : world) (d1 d2 : pokemon_data) (tries fuel : nat)
         (n1 n2 : string) (b : battle),
    run_battle w d1 d2 tries fuel n1 n2 = Ret b ->
    exists k, turn_headers (battle_log b) = count_up 1 k.
Proof.
  intros w d1 d2 tries fuel n1 n2 b H. apply run_battle_log in H.
  destruct H as (_ & _ & k & _ & _ & _ & _ & Hh & _). exists k. exact Hh.
Qed.

(** X9.  Roles alternate strictly: a turn after which the loop goes on
    hands the attack to the other creature and adds 1 to the turn
    counter, whether the attacker moved, lost the turn to paralysis or
    took status damage; a turn that ends the battle changes neither. *)
Theorem roles_alternate :
  forall (w : world) (d1 d2 : pokemon_data) (tries : nat) (b : battle) (r : flow),
    turn_body w d1 d2 tries b = Ret r ->
    match r with
    | Next b' =>
        attacker_is_1 b' = negb (attacker_is_1 b) /\ turn b' = turn b + 1
        /\ name (attacker b') = name (defender b)
        /\ name (defender b') = name (attacker b)
    | Break b' =>
        attacker_is_1 b' = attacker_is_1 b /\ turn b' = turn b
    end.
Proof.
  intros w d1 d2 tries b r H. apply turn_body_log in H. cbn zeta in H.
  destruct H as (N1 & N2 & Hr & _).
  destruct r as [b'|b']; cbn [flow_state] in *; destruct Hr as [Ht Hf].
  - split; [exact Hf|]. split; [exact Ht|].
    unfold attacker, defender. rewrite Hf.
    destruct (attacker_is_1 b); cbn; auto.
  - auto.
Qed.

Lemma log_accounts_for_every_hp_witness :
  exists p1 p2 b,
    make_pokemon rattata = Ret p1 /\ make_pokemon pikachu = Ret p2
    /\ name p1 <> name p2
    /\ run_battle flaky_world rattata pikachu 2 11 "rattata" "pikachu" = Ret b
    /\ hp (pokemon1 b) = hp p1 - damage_taken (name p1) (battle_log b)
    /\ hp (pokemon2 b) = hp p2 - damage_taken (name p2) (battle_log b).
Proof.
  destruct (make_pokemon rattata) as [p1| |] eqn:M1; [|vm_compute in M1; discriminate M1..].
  destruct (make_pokemon pikachu) as [p2| |] eqn:M2; [|vm_compute in M2; discriminate M2..].
  destruct (run_battle flaky_world rattata pikachu 2 11 "rattata" "pikachu")
    as [b| |] eqn:E; [|vm_compute in E; discriminate E..].
  assert (Hn : name p1 <> name p2).
  { vm_compute in M1, M2. injection M1 as <-. injection M2 as <-. discriminate. }
  exists p1, p2, b. split; [reflexivity|]. split; [reflexivity|].
  split; [exact Hn|]. split; [reflexivity|].
  exact (log_accounts_for_every_hp flaky_world rattata pikachu 2 11
           "rattata" "pikachu" p1 p2 b M1 M2 Hn E).
Defined.

Lemma turn_headers_count_from_one_witness :
  exists b,
    run_battle flaky_world rattata pikachu 2 11 "rattata" "pikachu" = Ret b
    /\ exists k, turn_headers (battle_log b) = count_up 1 k.
Proof.
  destruct (run_battle flaky_world rattata pikachu 2 11 "rattata" "pikachu")
    as [b| |] eqn:E; [|vm_compute in E; discriminate E..].
  exists b. split; [reflexivity|].
  exact (turn_headers_count_from_one flaky_world rattata pikachu 2 11
           "rattata" "pikachu" b E).
Defined.

Lemma roles_alternate_witness :
  exists b',
    turn_body flaky_world rattata pikachu 2 opening = Ret (Next b')
    /\ attacker_is_1 b' = negb (attacker_is_1 opening)
    /\ turn b' = turn opening + 1
    /\ name (attacker b') = name (defender opening)
    /\ name (defender b') = name (attacker opening).
Proof.
  destruct (turn_body flaky_world rattata pikachu 2 opening) as [[b'|b']| |] eqn:E;
    [|vm_compute in E; discriminate E..].
  exists b'. split; [reflexivity|].
  exact (roles_alternate flaky_world rattata pikachu 2 opening (Next b') E).
Defined.

End LogFacts.

(* ================================================================== *)
(** ** Selection, edge cases and lost turns *)
(* ================================================================== *)

Module TurnFacts.

Import Float Py Chart Battle Props Derived Examples FloatFacts ChartFacts DamageFacts
  BattleFacts.
Local Open Scope Z_scope.
Local Open Scope string_scope.

#[local] Hint Rewrite attacker_say defender_say attacker_say_opt defender_say_opt
  attacker_with_tries defender_with_tries attacker_next_roll defender_next_roll
  attacker_with_defender defender_with_defender attacker_with_attacker
  defender_with_attacker : roles.

(** *** The selection loop *)

Lemma select_move_step w tries urls n :
  urls <> [] ->
  select_move w (S tries) urls n
  = match provider w n (drawn w urls n) with
    | NoData => select_move w tries urls (S n)
    | Malformed => Raise KeyError
    | Payload m =>
        if (0 <? power_of m)%Z then Ret (m, S n) else select_move w tries urls (S n)
    end.
Proof.
  intros Hu. cbn [select_move]. destruct urls as [|u urls]; [congruence|].
  unfold drawn. destruct (provider w n _) as [| |m]; try reflexivity.
  unfold power_of. destruct (mv_power m) as [p|]; reflexivity.
Qed.

Lemma skipped_step w tries urls n :
  urls <> [] -> skipped (provider w n (drawn w urls n)) ->
  select_move w (S tries) urls n = select_move w tries urls (S n).
Proof.
  intros Hu Hs. rewrite select_move_step by assumption.
  destruct Hs as [-> | (m & -> & Hp)]; [reflexivity|].
  destruct (Z.ltb_spec 0 (power_of m)); [lia | reflexivity].
Qed.

(** X10.  Lines 208-213: the selection loop returns the answer to the
    first request that carries a positive power, after skipping only
    failed requests and moves without positive power; and whenever
    such a request comes within the allowed number of draws, with
    nothing but skipped answers before it, that answer is returned. *)
Theorem selection_returns_first_usable :
  forall (w : world) (urls : list string) (tries n j : nat) (m : move_data),
    select_move w tries urls n = Ret (m, S j)
    <-> urls <> []
        /\ (n <= j < n + tries)%nat
        /\ provider w j (drawn w urls j) = Payload m
        /\ 0 < power_of m
        /\ forall i, (n <= i < j)%nat -> skipped (provider w i (drawn w urls i)).
Proof.
  intros w urls tries. induction tries as [|tries IH]; intros n j m.
  - cbn [select_move]. split; [discriminate | intros (_ & H & _); lia].
  - destruct urls as [|u us] eqn:Eu.
    { cbn [select_move]. split; [discriminate | intros (H & _); congruence]. }
    rewrite <- Eu in *. assert (Hu : urls <> []) by (rewrite Eu; discriminate).
    clear Eu. rewrite select_move_step by assumption.
    destruct (provider w n (drawn w urls n)) as [| |m0] eqn:Ep.
    + rewrite IH. split.
      * intros (_ & Hj & Hm & Hp & Hs). repeat (split; [assumption || lia|]).
        intros i Hi. destruct (Nat.eq_dec i n) as [->|Hne].
        -- rewrite Ep. now left.
        -- apply Hs. lia.
      * intros (_ & Hj & Hm & Hp & Hs).
        assert (j <> n) by (intros ->; congruence).
        repeat (split; [assumption || lia|]). intros i Hi. apply Hs. lia.
    + split; [discriminate|]. intros (_ & Hj & Hm & Hp & Hs).
      destruct (Nat.eq_dec j n) as [->|Hne]; [congruence|].
      destruct (Hs n ltac:(lia)) as [E|(m' & E & _)]; congruence.
    + destruct (Z.ltb_spec 0 (power_of m0)) as [Hpos|Hle].
      * split.
        -- intros [= <- <-]. repeat (split; [assumption || lia|]). intros i Hi. lia.
        -- intros (_ & Hj & Hm & Hp & Hs).
           destruct (Nat.eq_dec j n) as [->|Hne]; [congruence|].
           destruct (Hs n ltac:(lia)) as [E|(m' & E & Hm')]; [congruence|].
           rewrite Ep in E. injection E as <-. lia.
      * rewrite IH. split.
        -- intros (_ & Hj & Hm & Hp & Hs). repeat (split; [assumption || lia|]).
           intros i Hi. destruct (Nat.eq_dec i n) as [->|Hne].
           ++ rewrite Ep. right. eauto.
           ++ apply Hs. lia.
        -- intros (_ & Hj & Hm & Hp & Hs).
           assert (j <> n).
           { intros ->. rewrite Ep in Hm. injection Hm as <-. lia. }
           repeat (split; [assumption || lia|]). intros i Hi. apply Hs. lia.
Qed.

Lemma selection_returns_first_usable_witness :
  select_move flaky_world 2 ["https://pokeapi.co/api/v2/move/33/"] 0 = Ret (tackle, 2%nat).
Proof.
  apply (selection_returns_first_usable flaky_world
           ["https://pokeapi.co/api/v2/move/33/"] 2 0 1 tackle).
  split; [discriminate|]. split; [lia|]. split; [reflexivity|]. split; [reflexivity|].
  intros i Hi. assert (i = 0%nat) as -> by lia. left. reflexivity.
Defined.

(** *** Battles that cannot be fought *)

Lemma stat_short d i : (List.length (pd_stats d) <= i)%nat -> stat d i = Raise IndexError.
Proof. intros H. unfold stat. apply nth_error_None in H. rewrite H. reflexivity. Qed.

Lemma make_pokemon_short d :
  (List.length (pd_stats d) < 6)%nat -> make_pokemon d = Raise IndexError.
Proof.
  intros H. unfold make_pokemon.
  destruct (stat d 0) as [h| |] eqn:E0; cbn [bind].
  2:{ unfold stat in E0. destruct (nth_error _ _); congruence. }
  2:{ unfold stat in E0. destruct (nth_error _ _); congruence. }
  destruct (stat d 1) as [a| |] eqn:E1; cbn [bind].
  2:{ unfold stat in E1. destruct (nth_error _ _); congruence. }
  2:{ unfold stat in E1. destruct (nth_error _ _); congruence. }
  destruct (stat d 2) as [df| |] eqn:E2; cbn [bind].
  2:{ unfold stat in E2. destruct (nth_error _ _); congruence. }
  2:{ unfold stat in E2. destruct (nth_error _ _); congruence. }
  rewrite (stat_short d 5) by lia. reflexivity.
Qed.

Lemma make_pokemon_cases d :
  (exists p, make_pokemon d = Ret p) \/ make_pokemon d = Raise IndexError.
Proof.
  unfold make_pokemon, stat.
  repeat (destruct (nth_error (pd_stats d) _); cbn [bind]; [|now right]).
  left. eauto.
Qed.

(** X11.  Lines 174-177 and 184-187 read the stats by position: a
    creature payload with fewer than six stat slots makes the battle
    fail with IndexError before any turn, whichever of the two
    creatures it is and whatever the world does. *)
Theorem short_stats_raise :
  forall (w : world) (d1 d2 : pokemon_data) (tries fuel : nat) (n1 n2 : string),
    (List.length (pd_stats d1) < 6)%nat \/ (List.length (pd_stats d2) < 6)%nat ->
    simulate_battle w tries fuel n1 n2 (Some d1) (Some d2) = Raise IndexError.
Proof.
  intros w d1 d2 tries fuel n1 n2 H. unfold simulate_battle, run_battle, start.
  destruct H as [H|H].
  - rewrite (make_pokemon_short d1 H). reflexivity.
  - rewrite (make_pokemon_short d2 H).
    destruct (make_pokemon_cases d1) as [[p ->]| ->]; reflexivity.
Qed.

Lemma short_stats_raise_witness :
  simulate_battle stall_world 5 5 "pikachu" "missingno"
    (Some pikachu)
    (Some {| pd_name := "missingno"; pd_stats := [33; 136; 0];
             pd_types := ["normal"]; pd_moves := [] |})
  = Raise IndexError.
Proof.
  apply short_stats_raise. right. cbn. lia.
Defined.

Lemma stat_same d d' i :
  nth_error (pd_stats d) i = nth_error (pd_stats d') i -> stat d i = stat d' i.
Proof. unfold stat. intros ->. reflexivity. Qed.

Lemma status_tick_base d1 d2 d1' d2' b :
  stat d1 0 = stat d1' 0 -> stat d2 0 = stat d2' 0 ->
  status_tick d1 d2 b = status_tick d1' d2' b.
Proof. intros E1 E2. unfold status_tick, original_max_hp. rewrite E1, E2. reflexivity. Qed.

Lemma battle_loop_base w d1 d2 d1' d2' tries fuel :
  stat d1 0 = stat d1' 0 -> stat d2 0 = stat d2' 0 ->
  forall b, battle_loop w d1 d2 tries fuel b = battle_loop w d1' d2' tries fuel b.
Proof.
  intros E1 E2. induction fuel as [|fuel IH]; intros b; cbn [battle_loop]; [reflexivity|].
  destruct (both_standing b); [|reflexivity].
  assert (Et : turn_body w d1 d2 tries b = turn_body w d1' d2' tries b).
  { unfold turn_body. destruct (action w tries _) as [[bb|bb]| |]; cbn [bind];
      try reflexivity.
    rewrite (status_tick_base d1 d2 d1' d2' bb E1 E2). reflexivity. }
  rewrite Et. destruct (turn_body w d1' d2' tries b) as [[b'|b']| |]; cbn [bind];
    try reflexivity. apply IH.
Qed.

(** X12.  Of a creature payload the battle reads the name, the types, the
    move urls and the stat slots 0, 1, 2 and 5 only: two payloads that
    agree on these give the same battle, whatever slots 3 and 4
    (special attack and special defense) or any further slot hold. *)
Theorem battle_reads_four_stat_slots :
  forall (w : world) (d1 d1' d2 d2' : pokemon_data) (tries fuel : nat)
         (n1 n2 : string),
    same_for_battle d1 d1' ->
    same_for_battle d2 d2' ->
    simulate_battle w tries fuel n1 n2 (Some d1) (Some d2)
    = simulate_battle w tries fuel n1 n2 (Some d1') (Some d2').
Proof.
  intros w d1 d1' d2 d2' tries fuel n1 n2
    (Na & Ta & Ma & A0 & A1 & A2 & A5) (Nb & Tb & Mb & B0 & B1 & B2 & B5).
  assert (E1 : make_pokemon d1 = make_pokemon d1').
  { unfold make_pokemon.
    rewrite (stat_same _ _ _ A0), (stat_same _ _ _ A1), (stat_same _ _ _ A2),
      (stat_same _ _ _ A5), Na, Ta, Ma. reflexivity. }
  assert (E2 : make_pokemon d2 = make_pokemon d2').
  { unfold make_pokemon.
    rewrite (stat_same _ _ _ B0), (stat_same _ _ _ B1), (stat_same _ _ _ B2),
      (stat_same _ _ _ B5), Nb, Tb, Mb. reflexivity. }
  unfold simulate_battle, run_battle, start. rewrite E1, E2.
  destruct (make_pokemon d1') as [p1| |]; cbn [bind]; try reflexivity.
  destruct (make_pokemon d2') as [p2| |]; cbn [bind]; try reflexivity.
  rewrite (battle_loop_base w d1 d2 d1' d2' tries fuel
             (stat_same _ _ _ A0) (stat_same _ _ _ B0)).
  reflexivity.
Qed.

Lemma battle_reads_four_stat_slots_witness :
  simulate_battle flaky_world 2 11 "rattata" "pikachu" (Some rattata) (Some pikachu)
  = simulate_battle flaky_world 2 11 "rattata" "pikachu"
      (Some {| pd_name := "rattata"; pd_stats := [30; 56; 35; 0; 999; 72; 4];
               pd_types := ["normal"];
               pd_moves := ["https://pokeapi.co/api/v2/move/33/"] |})
      (Some pikachu).
Proof.
  apply battle_reads_four_stat_slots; repeat split; reflexivity.
Defined.

Lemma make_pokemon_status d p : make_pokemon d = Ret p -> status p = None.
Proof.
  unfold make_pokemon.
  destruct (stat d 0); cbn [bind]; try discriminate.
  destruct (stat d 1); cbn [bind]; try discriminate.
  destruct (stat d 2); cbn [bind]; try discriminate.
  destruct (stat d 5); cbn [bind]; try discriminate.
  intros [= <-]. reflexivity.
Qed.

(** X13.  A creature whose base HP is not positive is never fought: if
    either payload gives an HP of 0 or less, no turn is played and no
    move is requested, whatever the world and the fuel; the report has
    four lines and names the first creature as winner if its HP is
    positive and the second otherwise, even when the second has no HP
    either. *)
Theorem no_turn_without_hp :
  forall (w : world) (d1 d2 : pokemon_data) (tries fuel : nat) (n1 n2 : string)
         (p1 p2 : pokemon),
    make_pokemon d1 = Ret p1 ->
    make_pokemon d2 = Ret p2 ->
    hp p1 <= 0 \/ hp p2 <= 0 ->
    exists b,
      run_battle w d1 d2 tries fuel n1 n2 = Ret b
      /\ battle_log b
         = [EvIntro (capitalize n1) (capitalize n2);
            EvFaster (name (if (speed p2 <=? speed p1)%Z then p1 else p2));
            EvBattleOver;
            EvWinner (name (if (0 <? hp p1)%Z then p1 else p2))]
      /\ n_try b = 0%nat /\ n_roll b = 0%nat
      /\ pokemon1 b = p1 /\ pokemon2 b = p2.
Proof.
  intros w d1 d2 tries fuel n1 n2 p1 p2 M1 M2 H.
  unfold run_battle, start. rewrite M1, M2. cbn [bind].
  set (b0 := {| pokemon1 := p1; pokemon2 := p2 |}).
  assert (Hs : both_standing b0 = false).
  { unfold both_standing. cbn. apply andb_false_iff.
    destruct H; [left | right]; apply Z.ltb_ge; assumption. }
  assert (El : battle_loop w d1 d2 tries fuel b0 = Ret b0).
  { destruct fuel; cbn [battle_loop]; rewrite Hs; reflexivity. }
  rewrite El. cbn [bind]. eexists. split; [reflexivity|].
  unfold conclude, winner. cbn. repeat split; reflexivity.
Qed.

Lemma no_turn_without_hp_witness :
  exists b,
    run_battle stall_world (eevee 0) (eevee (-3)) 0 0 "eevee" "eevee" = Ret b
    /\ battle_log b
       = [EvIntro "Eevee" "Eevee"; EvFaster "Eevee"; EvBattleOver; EvWinner "Eevee"]
    /\ n_try b = 0%nat /\ n_roll b = 0%nat
    /\ hp (pokemon1 b) = 0 /\ hp (pokemon2 b) = -3.
Proof.
  destruct (no_turn_without_hp stall_world (eevee 0) (eevee (-3)) 0 0 "eevee" "eevee"
              _ _ eq_refl eq_refl (or_introl (Z.le_refl 0)))
    as (b & E & L & T & R & P1 & P2).
  exists b. split; [exact E|]. split; [exact L|]. split; [exact T|]. split; [exact R|].
  rewrite P1, P2. split; reflexivity.
Defined.

(** X14.  Line 210: a creature without a usable move url can never act.
    Whenever it is its turn and the paralysis check does not hold it,
    [random.choice] fails on the empty list and the battle ends in an
    IndexError; in particular a battle whose faster creature has no
    usable move never produces a report. *)
Theorem empty_move_pool_raises :
  forall (w : world) (d1 d2 : pokemon_data) (tries fuel : nat) (n1 n2 : string),
    (forall b,
        moves (attacker b) = [] ->
        status (attacker b) <> Some "paralysis"
          \/ (1 # 4 <= rolls w (n_roll b))%Q ->
        turn_body w d1 d2 (S tries) b = Raise IndexError)
    /\ (forall p1 p2,
           make_pokemon d1 = Ret p1 ->
           make_pokemon d2 = Ret p2 ->
           0 < hp p1 -> 0 < hp p2 ->
           moves (if (speed p2 <=? speed p1)%Z then p1 else p2) = [] ->
           simulate_battle w (S tries) (S fuel) n1 n2 (Some d1) (Some d2)
           = Raise IndexError).
Proof.
  intros w d1 d2 tries fuel n1 n2.
  assert (Hatt : forall b, moves (attacker b) = [] ->
                           attack_phase w (S tries) b = Raise IndexError).
  { intros b Hm. unfold attack_phase. cbn [select_move]. rewrite Hm. reflexivity. }
  assert (Hturn : forall b,
             moves (attacker b) = [] ->
             status (attacker b) <> Some "paralysis"
               \/ (1 # 4 <= rolls w (n_roll b))%Q ->
             turn_body w d1 d2 (S tries) b = Raise IndexError).
  { intros b Hm Hp. unfold turn_body, action, is_status.
    autorewrite with roles.
    destruct (status (attacker b)) as [s|] eqn:Es; cbn [option_eqb].
    - destruct (String.eqb_spec s "paralysis") as [->|Hne].
      + destruct Hp as [Hp|Hp]; [congruence|].
        apply Qle_bool_iff in Hp.
        replace (n_roll (say b (EvTurn (turn b)))) with (n_roll b)
          by (destruct b; reflexivity).
        rewrite Hp. cbn [negb]. rewrite Hatt; [reflexivity|].
        autorewrite with roles. assumption.
      + rewrite Hatt; [reflexivity|]. autorewrite with roles. assumption.
    - rewrite Hatt; [reflexivity|]. autorewrite with roles. assumption. }
  split; [exact Hturn|].
  intros p1 p2 M1 M2 H1 H2 Hm.
  unfold simulate_battle, run_battle, start. rewrite M1, M2. cbn [bind battle_loop].
  set (b0 := {| pokemon1 := p1; pokemon2 := p2 |}).
  assert (Hs : both_standing b0 = true).
  { unfold both_standing. cbn. apply andb_true_iff. split; apply Z.ltb_lt; assumption. }
  rewrite Hs, Hturn; [reflexivity | |].
  - unfold attacker. cbn. destruct (speed p2 <=? speed p1)%Z; assumption.
  - left. unfold attacker. cbn.
    pose proof (make_pokemon_status _ _ M1) as S1.
    pose proof (make_pokemon_status _ _ M2) as S2.
    destruct (speed p2 <=? speed p1)%Z; congruence.
Qed.

(** X15.  Line 233: against a defender whose defense stat is 0 the first
    attack that selects a move (of power up to 2^64) raises
    ZeroDivisionError; no damage is dealt and no report is returned. *)
Theorem zero_defense_raises :
  forall (w : world) (tries : nat) (b : battle) (move : move_data) (n' : nat),
    select_move w tries (moves (attacker b)) (n_try b) = Ret (move, n') ->
    power_of move <= 2 ^ 64 ->
    defense (defender b) = 0 ->
    attack_phase w tries b = Raise ZeroDivisionError.
Proof.
  intros w tries b move n' Hsel Hp Hd.
  pose proof (select_move_power _ _ _ _ _ _ Hsel) as Hpos.
  unfold attack_phase. rewrite Hsel. cbn [bind]. autorewrite with roles.
  unfold attack_damage. rewrite Hd, base_damage_pre.
  unfold pre_damage, fmul_int.
  destruct (of_int_fin (power_of move) 64) as [fp [Ep _]];
    [lia | lia | apply Z_le_pow2; lia |].
  rewrite Ep. reflexivity.
Qed.

Lemma zero_defense_raises_witness :
  let b := {| pokemon1 := scenario_attacker None;
              pokemon2 := {| name := "Shedinja"; hp := 1; attack := 90; defense := 0;
                             speed := 40; types := ["bug"; "ghost"];
                             moves := ["move/1"]; status := None |};
              attacker_is_1 := true; turn := 1; battle_log := [];
              n_roll := 0; n_try := 0 |} in
  attack_phase flaky_world 2 b = Raise ZeroDivisionError.
Proof.
  intros b.
  apply (zero_defense_raises flaky_world 2 b tackle 2).
  - reflexivity.
  - vm_compute. discriminate.
  - reflexivity.
Defined.

Lemma empty_move_pool_raises_witness :
  simulate_battle stall_world 1 1 "pikachu" "ditto"
    (Some pikachu)
    (Some {| pd_name := "ditto"; pd_stats := [48; 48; 48; 48; 48; 148];
             pd_types := ["normal"]; pd_moves := [""] |})
  = Raise IndexError.
Proof.
  destruct (empty_move_pool_raises stall_world pikachu
              {| pd_name := "ditto"; pd_stats := [48; 48; 48; 48; 48; 148];
                 pd_types := ["normal"]; pd_moves := [""] |}
              0 0 "pikachu" "ditto") as [_ H].
  eapply H.
  - reflexivity.
  - reflexivity.
  - cbn. lia.
  - cbn. lia.
  - reflexivity.
Defined.

(** X16.  Lines 203-204: a paralysed attacker whose draw is below 0.25
    loses the turn and nothing else: no move is requested (the turn
    succeeds even with no draw allowed and whatever the provider
    would answer), no HP and no status changes, exactly one random
    number is consumed, and the turn passes to the other creature. *)
Theorem lost_turn_changes_nothing :
  forall (w : world) (d1 d2 : pokemon_data) (tries : nat) (b : battle),
    status (attacker b) = Some "paralysis" ->
    (rolls w (n_roll b) < 1 # 4)%Q ->
    exists b',
      turn_body w d1 d2 tries b = Ret (Next b')
      /\ pokemon1 b' = pokemon1 b /\ pokemon2 b' = pokemon2 b
      /\ n_try b' = n_try b /\ n_roll b' = S (n_roll b)
      /\ attacker_is_1 b' = negb (attacker_is_1 b)
      /\ battle_log b'
         = (battle_log b
              ++ [EvTurn (turn b); EvParalyzed (name (attacker b)); EvBlank])%list.
Proof.
  intros w d1 d2 tries b Hs Hr.
  assert (Hq : Qle_bool (1 # 4) (rolls w (n_roll b)) = false).
  { destruct (Qle_bool (1 # 4) (rolls w (n_roll b))) eqn:E; [|reflexivity].
    apply Qle_bool_iff in E. exfalso. apply (Qlt_not_le _ _ Hr). exact E. }
  unfold turn_body, action, is_status. autorewrite with roles.
  replace (n_roll (say b (EvTurn (turn b)))) with (n_roll b) by (destruct b; reflexivity).
  rewrite Hs. cbn [option_eqb]. rewrite String.eqb_refl, Hq. cbn [negb bind].
  unfold status_tick. autorewrite with roles. rewrite Hs.
  change (String.eqb "paralysis" "poison" || String.eqb "paralysis" "burn") with false.
  cbv iota. cbn [bind]. eexists. split; [reflexivity|].
  destruct b as [p1 p2 first t log nr nt]. cbn.
  rewrite <- !app_assoc. repeat split; reflexivity.
Qed.

Lemma lost_turn_changes_nothing_witness :
  let b := {| pokemon1 := scenario_attacker (Some "paralysis");
              pokemon2 := scenario_defender;
              attacker_is_1 := true; turn := 4; battle_log := [];
              n_roll := 0; n_try := 7 |} in
  exists b',
    turn_body stall_world pikachu pikachu 0 b = Ret (Next b')
    /\ pokemon1 b' = pokemon1 b /\ pokemon2 b' = pokemon2 b
    /\ n_try b' = n_try b /\ n_roll b' = S (n_roll b)
    /\ attacker_is_1 b' = negb (attacker_is_1 b)
    /\ battle_log b'
       = (battle_log b
            ++ [EvTurn (turn b); EvParalyzed (name (attacker b)); EvBlank])%list.
Proof.
  intros b. apply (lost_turn_changes_nothing stall_world pikachu pikachu 0 b).
  - reflexivity.
  - reflexivity.
Defined.

End TurnFacts.

(* ================================================================== *)
(** ** The evolution chain *)
(* ================================================================== *)

Module EvolutionFacts.

Import Float Py Evolution.
Local Open Scope string_scope.

Lemma extract_preorder c :
  forall acc, extract_evolutions c acc = (acc ++ map capitalize (preorder c))%list.
Proof.
  induction c as [n kids IH] using chain_induction. intros acc.
  cbn [extract_evolutions preorder map].
  assert (H : forall acc0,
             fold_left (fun evolutions evolution => extract_evolutions evolution evolutions)
               kids acc0
             = (acc0 ++ map capitalize (flat_map preorder kids))%list).
  { induction IH as [|k r Hk _ IHr]; intros acc0; cbn [fold_left flat_map].
    - cbn. rewrite app_nil_r. reflexivity.
    - rewrite Hk, IHr, map_app, app_assoc. reflexivity. }
  rewrite H, <- app_assoc. reflexivity.
Qed.

Lemma preorder_nonempty c : (1 <= List.length (preorder c))%nat.
Proof. destruct c. cbn. lia. Qed.

(** X17.  [_parse_evolution_chain] lists the capitalised species names of
    the whole tree, every species before its evolutions and the
    branches in the provider's order, joined by arrows; it answers
    "Does not evolve" exactly when the first link has no evolution. *)
Theorem evolution_chain_in_preorder :
  forall (species_name : string) (evolves_to : list chain),
    _parse_evolution_chain (Link species_name evolves_to)
    = match evolves_to with
      | [] => "Does not evolve"
      | _ :: _ =>
          String.concat " → "
            (map capitalize (preorder (Link species_name evolves_to)))
      end.
Proof.
  intros n kids. unfold _parse_evolution_chain. rewrite extract_preorder.
  cbn [app]. destruct kids as [|k r]; [reflexivity|].
  assert (Hl : (2 <= List.length (map capitalize (preorder (Link n (k :: r)))))%nat).
  { rewrite length_map. cbn [preorder flat_map List.length]. rewrite length_app.
    pose proof (preorder_nonempty k). lia. }
  destruct (Nat.leb_spec (List.length (map capitalize (preorder (Link n (k :: r))))) 1);
    [lia | reflexivity].
Qed.

(** A branching chain: both evolutions of the first link are listed,
    each followed by its own. *)
Lemma branching_chain :
  _parse_evolution_chain
    (Link "poliwag"
       [Link "poliwhirl" [Link "poliwrath" []; Link "politoed" []]])
  = "Poliwag → Poliwhirl → Poliwrath → Politoed".
Proof. reflexivity. Qed.

End EvolutionFacts.

(* ================================================================== *)
(** ** The creature report *)
(* ================================================================== *)

Module ReportFacts.

Import Float Py Chart Evolution Report ReportProps ReportExamples Props FloatFacts
  ChartFacts DamageFacts.
Local Open Scope string_scope.

(** *** Case *)

Lemma to_lower_idem c : to_lower (to_lower c) = to_lower c.
Proof. destruct c as [[] [] [] [] [] [] [] []]; reflexivity. Qed.

Lemma to_lower_upper c : to_lower (to_upper c) = to_lower c.
Proof. destruct c as [[] [] [] [] [] [] [] []]; reflexivity. Qed.

Lemma lower_idem s : lower (lower s) = lower s.
Proof. induction s as [|c s IH]; cbn; [reflexivity|]. rewrite to_lower_idem, IH. reflexivity. Qed.

Lemma lower_capitalize s : lower (capitalize s) = lower s.
Proof. destruct s as [|c s]; cbn; [reflexivity|]. rewrite to_lower_upper, lower_idem. reflexivity. Qed.

(** X18.  The two tools that take names compare names of ASCII
    characters without regard to case: such a name and its lower-cased
    or capitalised form give the same answer, error texts included. *)
Theorem names_ignore_case :
  forall (repr : float -> string) (w : provider) (n a d : string),
    ascii_only n -> ascii_only a -> ascii_only d ->
    get_pokemon_data repr w (lower n) = get_pokemon_data repr w n
    /\ get_pokemon_data repr w (capitalize n) = get_pokemon_data repr w n
    /\ get_type_effectiveness (lower a) (lower d) = get_type_effectiveness a d
    /\ get_type_effectiveness (capitalize a) (capitalize d)
       = get_type_effectiveness a d.
Proof.
  intros repr w n a d _ _ _. unfold get_pokemon_data, get_type_effectiveness.
  rewrite !lower_idem, !lower_capitalize. repeat split; reflexivity.
Qed.

Lemma names_ignore_case_witness :
  get_pokemon_data one_decimal lonely_provider (lower "PikaChu")
  = get_pokemon_data one_decimal lonely_provider "PikaChu"
  /\ get_pokemon_data one_decimal lonely_provider (capitalize "PikaChu")
     = get_pokemon_data one_decimal lonely_provider "PikaChu"
  /\ get_type_effectiveness (lower "FIRE") (lower "Grass")
     = get_type_effectiveness "FIRE" "Grass"
  /\ get_type_effectiveness (capitalize "FIRE") (capitalize "Grass")
     = get_type_effectiveness "FIRE" "Grass".
Proof.
  apply (names_ignore_case one_decimal lonely_provider "PikaChu" "FIRE" "Grass");
    cbn; repeat split; lia.
Defined.

(** *** Stats by name *)

Lemma named_stat_cases stats n :
  (exists s, In n (map stat_name stats) /\ stat_name s = n
             /\ named_stat stats n = Done (base_stat s))
  \/ (~ In n (map stat_name stats) /\ named_stat stats n = Fails RuntimeError).
Proof.
  unfold named_stat.
  destruct (find (fun s => stat_name s =? n) stats) as [s|] eqn:E.
  - left. apply find_some in E. destruct E as [Hin He]. apply String.eqb_eq in He.
    exists s. split; [|auto]. rewrite <- He. apply in_map. assumption.
  - right. split; [|reflexivity]. intros Hin. apply in_map_iff in Hin.
    destruct Hin as (s & Hs & Hin).
    pose proof (find_none _ _ E s Hin) as H. cbn in H.
    rewrite Hs, String.eqb_refl in H. discriminate.
Qed.

Lemma tenth_not_runtime z : tenth z <> Fails RuntimeError.
Proof. unfold tenth. destruct (fround _); discriminate. Qed.

(** *** Answers that lack a key *)

Lemma evolution_info_cases w p :
  (evolution_info w p = Fails KeyError
   /\ (species_at w (pp_species_url p) = Incomplete
       \/ exists chain_url,
            species_at w (pp_species_url p) = Reply chain_url
            /\ chain_at w chain_url = Incomplete))
  \/ (exists text, evolution_info w p = Done text
       /\ species_at w (pp_species_url p) <> Incomplete
       /\ forall chain_url,
            species_at w (pp_species_url p) = Reply chain_url ->
            chain_at w chain_url <> Incomplete).
Proof.
  unfold evolution_info.
  destruct (species_at w (pp_species_url p)) as [| |u] eqn:Es.
  - right. eexists. split; [reflexivity|]. split; [discriminate|]. discriminate.
  - left. split; [reflexivity | now left].
  - destruct (chain_at w u) as [| |c] eqn:Ec.
    + right. eexists. split; [reflexivity|]. split; [discriminate|].
      intros u' [= <-]. rewrite Ec. discriminate.
    + left. split; [reflexivity|]. right. exists u. auto.
    + right. eexists. split; [reflexivity|]. split; [discriminate|].
      intros u' [= <-]. rewrite Ec. discriminate.
Qed.

Lemma detailed_moves_cases w refs : forall i,
  (detailed_moves w i refs = Fails KeyError
   /\ exists k move_data,
        nth_error refs k = Some move_data
        /\ move_at w (i + k) (move_url move_data) = Incomplete)
  \/ (exists lines, detailed_moves w i refs = Done lines
       /\ forall k move_data,
            nth_error refs k = Some move_data ->
            move_at w (i + k) (move_url move_data) <> Incomplete).
Proof.
  induction refs as [|r refs IH]; intros i; cbn [detailed_moves].
  - right. exists []. split; [reflexivity|]. intros [|k] m; discriminate.
  - destruct (move_at w i (move_url r)) as [| |d] eqn:Em.
    + destruct (IH (S i)) as [(E & k & m & Hk & Hm)|(l & E & Hl)].
      * left. split; [exact E|]. exists (S k), m. split; [exact Hk|].
        rewrite Nat.add_succ_r. exact Hm.
      * right. exists l. split; [exact E|]. intros [|k] m Hk.
        -- injection Hk as <-. rewrite Nat.add_0_r, Em. discriminate.
        -- rewrite Nat.add_succ_r. apply (Hl k m Hk).
    + left. split; [reflexivity|]. exists 0%nat, r. split; [reflexivity|].
      rewrite Nat.add_0_r. exact Em.
    + destruct (IH (S i)) as [(E & k & m & Hk & Hm)|(l & E & Hl)].
      * left. rewrite E. split; [reflexivity|]. exists (S k), m. split; [exact Hk|].
        rewrite Nat.add_succ_r. exact Hm.
      * right. rewrite E. eexists. split; [reflexivity|]. intros [|k] m Hk.
        -- injection Hk as <-. rewrite Nat.add_0_r, Em. discriminate.
        -- rewrite Nat.add_succ_r. apply (Hl k m Hk).
Qed.

(** X19.  Lines 68-73 read the six stats by name: for a creature that
    was found, the call fails with RuntimeError exactly when one of
    hp, attack, defense, special-attack, special-defense and speed is
    not the name of any stat slot of the payload. *)
Theorem missing_stat_fails :
  forall (repr : float -> string) (w : provider) (p : pokemon_payload),
    report_of repr w p = Fails RuntimeError
    <-> exists n, In n shown_stats /\ ~ has_stat p n.
Proof.
  intros repr w p. unfold report_of, has_stat, shown_stats.
  destruct (named_stat_cases (pp_stats p) "hp") as [(s1 & I1 & N1 & ->)|[M ->]];
    cbn [then_].
  2:{ split; [intros _; exists "hp"; cbn; tauto | reflexivity]. }
  destruct (named_stat_cases (pp_stats p) "attack") as [(s2 & I2 & N2 & ->)|[M ->]];
    cbn [then_].
  2:{ split; [intros _; exists "attack"; cbn; tauto | reflexivity]. }
  destruct (named_stat_cases (pp_stats p) "defense") as [(s3 & I3 & N3 & ->)|[M ->]];
    cbn [then_].
  2:{ split; [intros _; exists "defense"; cbn; tauto | reflexivity]. }
  destruct (named_stat_cases (pp_stats p) "special-attack")
    as [(s4 & I4 & N4 & ->)|[M ->]]; cbn [then_].
  2:{ split; [intros _; exists "special-attack"; cbn; tauto | reflexivity]. }
  destruct (named_stat_cases (pp_stats p) "special-defense")
    as [(s5 & I5 & N5 & ->)|[M ->]]; cbn [then_].
  2:{ split; [intros _; exists "special-defense"; cbn; tauto | reflexivity]. }
  destruct (named_stat_cases (pp_stats p) "speed") as [(s6 & I6 & N6 & ->)|[M ->]];
    cbn [then_].
  2:{ split; [intros _; exists "speed"; cbn; tauto | reflexivity]. }
  cbv zeta. split.
  - intros H. exfalso. revert H.
    destruct (evolution_info_cases w p) as [(-> & _)|(e & -> & _)]; cbn [then_];
      [discriminate|].
    destruct (detailed_moves_cases w (firstn 5 (pp_moves p)) 0)
      as [(-> & _)|(l & -> & _)]; cbn [then_]; [discriminate|].
    destruct (tenth (pp_height p)) as [h|[]] eqn:Eh; cbn [then_]; try discriminate.
    + destruct (tenth (pp_weight p)) as [wt|[]] eqn:Ew; cbn [then_]; try discriminate.
      intros _. exact (tenth_not_runtime _ Ew).
    + intros _. exact (tenth_not_runtime _ Eh).
  - intros (n & Hn & Hmiss). exfalso. apply Hmiss. cbn in Hn.
    destruct Hn as [<-|[<-|[<-|[<-|[<-|[<-|[]]]]]]]; assumption.
Qed.

Lemma unique_by_name stats s s' :
  NoDup (map stat_name stats) -> In s stats -> In s' stats ->
  stat_name s = stat_name s' -> s = s'.
Proof.
  induction stats as [|x l IH]; cbn; [tauto|].
  intros Hnd [->|Hs] [->|Hs'] E; inversion Hnd as [|? ? Hx Hl]; subst.
  - reflexivity.
  - exfalso. apply Hx. rewrite E. apply in_map. assumption.
  - exfalso. apply Hx. rewrite <- E. apply in_map. assumption.
  - apply IH; assumption.
Qed.

Lemma named_stat_perm stats stats' n :
  NoDup (map stat_name stats) -> Permutation stats stats' ->
  named_stat stats n = named_stat stats' n.
Proof.
  intros Hnd Hp. unfold named_stat.
  destruct (find (fun s => stat_name s =? n) stats) as [s|] eqn:E;
    destruct (find (fun s => stat_name s =? n) stats') as [s'|] eqn:E'.
  - apply find_some in E, E'. destruct E as [Hin He], E' as [Hin' He'].
    apply String.eqb_eq in He, He'.
    apply (Permutation_in _ (Permutation_sym Hp)) in Hin'.
    rewrite (unique_by_name stats s s' Hnd Hin Hin'); [reflexivity | congruence].
  - apply find_some in E. destruct E as [Hin He].
    apply (Permutation_in _ Hp) in Hin.
    pose proof (find_none _ _ E' s Hin) as H. cbn in H. congruence.
  - apply find_some in E'. destruct E' as [Hin He].
    apply (Permutation_in _ (Permutation_sym Hp)) in Hin.
    pose proof (find_none _ _ E s' Hin) as H. cbn in H. congruence.
  - reflexivity.
Qed.

(** X20.  The report does not depend on the order of the stat slots:
    when no two slots of the payload have the same name, any
    rearrangement of the slots gives the same result (while the
    battle reads the same payload by position). *)
Theorem report_ignores_stat_order :
  forall (repr : float -> string) (w : provider) (p : pokemon_payload)
         (stats : list stat_slot),
    NoDup (map stat_name (pp_stats p)) ->
    Permutation (pp_stats p) stats ->
    report_of repr w (with_stats p stats) = report_of repr w p.
Proof.
  intros repr w p stats Hnd Hp. unfold report_of, evolution_info. cbn [with_stats pp_stats pp_name pp_types pp_abilities pp_moves pp_height pp_weight pp_id pp_species_url].
  rewrite <- !(named_stat_perm (pp_stats p) stats _ Hnd Hp). reflexivity.
Qed.



Lemma firstn_firstn_le {A} (l : list A) i j :
  (i <= j)%nat -> firstn i (firstn j l) = firstn i l.
Proof. intros H. rewrite firstn_firstn. f_equal. lia. Qed.

Lemma skipn_firstn_15 {A} (l : list A) :
  firstn 10 (skipn 5 (firstn 15 l)) = firstn 10 (skipn 5 l).
Proof.
  rewrite skipn_firstn_comm. cbn [Nat.sub]. apply firstn_firstn_le. lia.
Qed.

Lemma detailed_moves_agree w w' refs : forall i,
  (forall j url, (j < i + List.length refs)%nat -> move_at w j url = move_at w' j url) ->
  detailed_moves w i refs = detailed_moves w' i refs.
Proof.
  induction refs as [|r refs IH]; intros i H; cbn [detailed_moves]; [reflexivity|].
  cbn [List.length] in H. rewrite (H i) by lia.
  rewrite (IH (S i)); [reflexivity|]. intros j url Hj. apply H. lia.
Qed.

(** X22.  Lines 88 and 100 read the first fifteen moves only, and the
    move loop makes at most five requests: the moves after the
    fifteenth, and whatever the provider would answer from a sixth
    move request on, have no influence on the result. *)
Theorem report_reads_fifteen_moves :
  forall (repr : float -> string) (w w' : provider) (p : pokemon_payload),
    same_up_to_five w w' ->
    report_of repr w' (with_moves p (firstn 15 (pp_moves p))) = report_of repr w p.
Proof.
  intros repr w w' p (_ & Hsp & Hch & Hmv). unfold report_of, evolution_info.
  cbn [with_moves pp_stats pp_name pp_types pp_abilities pp_moves pp_height pp_weight
       pp_id pp_species_url].
  rewrite (firstn_firstn_le (pp_moves p) 5 15) by lia.
  rewrite skipn_firstn_15, Hsp.
  rewrite (detailed_moves_agree w w' (firstn 5 (pp_moves p)) 0).
  2:{ intros j url Hj. apply Hmv. pose proof (firstn_le_length 5 (pp_moves p)). lia. }
  destruct (species_at w' (pp_species_url p)) as [| |u]; [| |rewrite Hch]; reflexivity.
Qed.

Lemma report_ignores_stat_order_witness :
  report_of one_decimal lonely_provider
    (with_stats pikachu_payload (rev (pp_stats pikachu_payload)))
  = report_of one_decimal lonely_provider pikachu_payload.
Proof.
  apply report_ignores_stat_order.
  - cbn. repeat (constructor; [cbn; intros H; repeat (destruct H as [H|H]; [discriminate H|]); exact H|]).
    constructor.
  - apply Permutation_rev.
Defined.


Lemma report_reads_fifteen_moves_witness :
  report_of one_decimal late_provider
    (with_moves pikachu_payload (firstn 15 (pp_moves pikachu_payload)))
  = report_of one_decimal lonely_provider pikachu_payload.
Proof.
  apply report_reads_fifteen_moves.
  split; [reflexivity|]. split; [reflexivity|]. split; [reflexivity|].
  intros i url Hi. cbn. do 5 (destruct i as [|i]; [reflexivity|]). lia.
Defined.

(** The report of the example, as a text. *)
Lemma pikachu_report :
  get_pokemon_data one_decimal lonely_provider "Pikachu"
  = Done ("--- Pokémon Report: Pikachu ---" ++ newline
          ++ "ID: 25" ++ newline
          ++ "Types: Electric" ++ newline
          ++ "Height: 0.4 m" ++ newline
          ++ "Weight: 6.0 kg" ++ newline ++ newline
          ++ "Base Stats:" ++ newline
          ++ "  - HP: 35" ++ newline
          ++ "  - Attack: 55" ++ newline
          ++ "  - Defense: 40" ++ newline
          ++ "  - Special Attack: 50" ++ newline
          ++ "  - Special Defense: 50" ++ newline
          ++ "  - Speed: 90" ++ newline
          ++ "  - Total: 320" ++ newline ++ newline
          ++ "Abilities: Static, Lightning Rod" ++ newline ++ newline
          ++ "Evolution Chain: None" ++ newline ++ newline
          ++ "Notable Moves (with details):" ++ newline).
Proof. vm_compute. reflexivity. Qed.

End ReportFacts.

(* ================================================================== *)
(** ** Status conditions *)
(* ================================================================== *)

Module StatusFacts.

Import Float Py Chart Battle Props Derived Examples FloatFacts ChartFacts DamageFacts
  BattleFacts RoundingFacts ProductFacts.
Local Open Scope Z_scope.
Local Open Scope string_scope.

#[local] Hint Rewrite attacker_say defender_say attacker_say_opt defender_say_opt
  attacker_with_tries defender_with_tries attacker_next_roll defender_next_roll
  attacker_with_defender defender_with_defender attacker_with_attacker
  defender_with_attacker : roles.

(** The test of line 251 accepts exactly the three ailments of the
    specification. *)
Lemma inflictable_ailments a : inflictable a = true <-> In a Spec.ailments.
Proof.
  unfold inflictable, Spec.ailments. rewrite existsb_exists. split.
  - intros (x & Hx & E). apply String.eqb_eq in E. subst. exact Hx.
  - intros H. exists a. split; [exact H | apply String.eqb_refl].
Qed.

Lemma not_inflictable a : ~ In a Spec.ailments -> inflictable a = false.
Proof.
  intros H. destruct (inflictable a) eqn:E; [|reflexivity].
  apply inflictable_ailments in E. contradiction.
Qed.

(** The threshold of line 251 for a chance between 0 and 100: the
    binary64 value nearest to chance / 100. *)
Lemma chance_threshold chance :
  0 <= chance <= 100 ->
  exists t,
    fround (inject_Z chance / 100)%Q = Ffin t /\ (0 <= t)%Q /\ (t <= 1)%Q
    /\ of_int chance = Ret (Ffin (inject_Z chance))
    /\ fdiv (Ffin (inject_Z chance)) (Ffin 100) = Some (Ffin t).
Proof.
  intros Hc.
  assert (H0 : (0 <= inject_Z chance)%Q)
    by (change 0%Q with (inject_Z 0); rewrite <- Zle_Qle; lia).
  assert (H1 : (inject_Z chance <= 100)%Q)
    by (change 100%Q with (inject_Z 100); rewrite <- Zle_Qle; lia).
  destruct (fround_le (inject_Z chance / 100)%Q 0) as (t & Et & Ht0 & Ht1).
  - lia.
  - apply Qle_shift_div_l; lra.
  - apply Qle_shift_div_r; [lra|]. change (pow2 0) with 1%Q. lra.
  - exists t. split; [exact Et|]. split; [exact Ht0|]. split; [exact Ht1|].
    split.
    + apply of_int_exact. assert (100 < 2 ^ 53) by reflexivity. lia.
    + cbn [fdiv]. change (is_zero 100) with false. cbv iota. rewrite Et. reflexivity.
Qed.

(** Lines 248-253 on a defender without status and a move that carries
    one of the three ailments. *)
Lemma apply_ailment_rolls w move b meta :
  mv_meta move = Some meta ->
  status (defender b) = None ->
  In (ailment meta) Spec.ailments ->
  0 <= ailment_chance meta <= 100 ->
  exists b' t,
    fround (inject_Z (ailment_chance meta) / 100)%Q = Ffin t
    /\ apply_ailment w move b = Ret b'
    /\ attacker b' = attacker b
    /\ hp (defender b') = hp (defender b)
    /\ ((rolls w (n_roll b) < t)%Q -> status (defender b') = Some (ailment meta))
    /\ ((t <= rolls w (n_roll b))%Q -> status (defender b') = None).
Proof.
  intros Hm Hs Hin Hc.
  destruct (chance_threshold _ Hc) as (t & Et & _ & _ & Eo & Ed).
  apply inflictable_ailments in Hin.
  unfold apply_ailment. rewrite Hm, Hs, Hin, Eo. cbn [bind]. rewrite Ed.
  destruct (flt_spec (rolls w (n_roll b)) t) as [Hlt|Hge].
  - eexists. exists t. split; [exact Et|]. split; [reflexivity|].
    autorewrite with roles. cbn [status hp set_status].
    split; [reflexivity|]. split; [reflexivity|].
    split; [reflexivity|]. intros Hle. exfalso. lra.
  - eexists. exists t. split; [exact Et|]. split; [reflexivity|].
    autorewrite with roles.
    split; [reflexivity|]. split; [reflexivity|].
    split; [intros Hlt; contradiction | intros _; exact Hs].
Qed.

(** Lines 248 and 251: nothing happens, and nothing is drawn, for a
    move without ailment data, an ailment outside the three, or a
    defender that has a status already. *)
Lemma apply_ailment_ignores w move b :
  mv_meta move = None
  \/ (exists meta, mv_meta move = Some meta /\ ~ In (ailment meta) Spec.ailments)
  \/ (exists s, status (defender b) = Some s) ->
  apply_ailment w move b = Ret b.
Proof.
  unfold apply_ailment. intros [Hm|[(meta & Hm & Hn)|(s & Hs)]].
  - rewrite Hm. reflexivity.
  - rewrite Hm. destruct (status (defender b)); [reflexivity|].
    rewrite (not_inflictable _ Hn). reflexivity.
  - destruct (mv_meta move); [|reflexivity]. rewrite Hs. reflexivity.
Qed.

Lemma status_step_ailments s s' :
  status_step s s' ->
  s' = s \/ (s = None /\ exists a, In a Spec.ailments /\ s' = Some a).
Proof.
  intros [->|(-> & a & -> & Ha)]; [now left|]. right. split; [reflexivity|].
  exists a. split; [apply inflictable_ailments; assumption | reflexivity].
Qed.

(** C7.  A status is none or one of paralysis, burn and poison.  On a
    defender without status, a move that carries one of these three
    ailments with a chance between 0 and 100 sets it exactly when the
    draw is below the binary64 value of ailment_chance / 100, and
    changes nothing else of the two creatures; a move without ailment
    data or with any other ailment, and any move on a defender that
    has a status, changes nothing and raises nothing.  In a turn the
    acting creature keeps its status and the other one changes status
    only after a hit it survived; over the loop a status that is set
    stays as it is. *)
Theorem status_rules :
  (forall w move b b',
      apply_ailment w move b = Ret b' ->
      attacker b' = attacker b
      /\ (status (defender b') = status (defender b)
          \/ exists meta c threshold,
               mv_meta move = Some meta
               /\ status (defender b) = None
               /\ In (ailment meta) Spec.ailments
               /\ of_int (ailment_chance meta) = Ret c
               /\ fdiv c (Ffin 100) = Some threshold
               /\ flt (Ffin (rolls w (n_roll b))) threshold = true
               /\ status (defender b') = Some (ailment meta)))
  /\ (forall w move b meta,
         mv_meta move = Some meta ->
         status (defender b) = None ->
         In (ailment meta) Spec.ailments ->
         0 <= ailment_chance meta <= 100 ->
         exists b' t,
           fround (inject_Z (ailment_chance meta) / 100)%Q = Ffin t
           /\ apply_ailment w move b = Ret b'
           /\ attacker b' = attacker b
           /\ hp (defender b') = hp (defender b)
           /\ ((rolls w (n_roll b) < t)%Q ->
               status (defender b') = Some (ailment meta))
           /\ ((t <= rolls w (n_roll b))%Q -> status (defender b') = None))
  /\ (forall w move b,
         mv_meta move = None
         \/ (exists meta,
                mv_meta move = Some meta /\ ~ In (ailment meta) Spec.ailments)
         \/ (exists s, status (defender b) = Some s) ->
         apply_ailment w move b = Ret b)
  /\ (forall w d1 d2 tries b r,
         turn_body w d1 d2 tries b = Ret r ->
         let first := attacker_is_1 b in
         status (side (flow_state r) first) = status (attacker b)
         /\ (status (side (flow_state r) (negb first)) = status (defender b)
             \/ exists move damage meta,
                  attack_damage (power_of move) (attacker b) (defender b)
                    (battle_effectiveness (mv_type move) (types (defender b)))
                  = Ret damage
                  /\ 0 < hp (defender b) - damage
                  /\ mv_meta move = Some meta
                  /\ status (defender b) = None
                  /\ In (ailment meta) Spec.ailments
                  /\ status (side (flow_state r) (negb first))
                     = Some (ailment meta)))
  /\ (forall w d1 d2 tries fuel b b',
         battle_loop w d1 d2 tries fuel b = Ret b' ->
         forall first,
           status (side b' first) = status (side b first)
           \/ (status (side b first) = None
               /\ exists a, In a Spec.ailments /\ status (side b' first) = Some a))
  /\ (forall w d1 d2 tries fuel n1 n2 b,
         run_battle w d1 d2 tries fuel n1 n2 = Ret b ->
         forall first,
           status (side b first) = None
           \/ exists a, In a Spec.ailments /\ status (side b first) = Some a).
Proof.
  split; [|split; [|split; [|split; [|split]]]].
  - intros w move b b' H. apply apply_ailment_status in H.
    destruct H as (_ & Ha & [Hd|(meta & c & thr & Hm & Hs & Hi & Hc & Ht & Hr & Hd)]).
    + split; [exact Ha | now left].
    + split; [exact Ha|]. right. exists meta, c, thr.
      apply inflictable_ailments in Hi. auto 10.
  - intros w move b meta. apply apply_ailment_rolls.
  - intros w move b. apply apply_ailment_ignores.
  - intros w d1 d2 tries b r H. apply turn_body_status in H. cbv zeta in H |- *.
    destruct H as [Ha [Hd|(move & damage & meta & H1 & H2 & H3 & H4 & H5 & H6)]].
    + split; [exact Ha | now left].
    + split; [exact Ha|]. right. exists move, damage, meta.
      apply inflictable_ailments in H5. auto 10.
  - intros w d1 d2 tries fuel b b' H first.
    apply evolves_battle_loop in H. destruct H as [[_ [_ [S1 [S2 _]]]] _].
    apply status_step_ailments. destruct first; assumption.
  - intros w d1 d2 tries fuel n1 n2 b. unfold run_battle.
    destruct (start d1 d2 n1 n2) as [b0| |] eqn:E0; cbn [bind]; try discriminate.
    destruct (battle_loop w d1 d2 tries fuel b0) as [b1| |] eqn:E1; cbn [bind];
      try discriminate.
    intros [= <-] first.
    apply start_status in E0. destruct E0 as [N1 N2].
    apply evolves_battle_loop in E1. destruct E1 as [[_ [_ [S1 [S2 _]]]] _].
    rewrite N1 in S1. rewrite N2 in S2.
    assert (H : forall s, status_step None s ->
                          s = None \/ exists a, In a Spec.ailments /\ s = Some a).
    { intros s Hs. apply status_step_ailments in Hs.
      destruct Hs as [->|(_ & a & Ha & ->)]; [now left | right; eauto]. }
    destruct b1; destruct first; cbn in *; apply H; assumption.
Qed.

(** Ember, with a burn chance of 10, on a defender without status and
    a draw of 0: the defender is burned; and a whole battle in which
    every draw is 0 ends with the second creature burned. *)
Lemma status_rules_witness :
  (exists b',
      apply_ailment burn_world ember opening = Ret b'
      /\ status (defender b') = Some "burn")
  /\ exists b,
       run_battle burn_world (eevee 101) (eevee 104) 1 40 "eevee" "eevee" = Ret b
       /\ In "burn" Spec.ailments
       /\ status (pokemon2 b) = Some "burn".
Proof.
  split.
  - destruct status_rules as (_ & H & _).
    assert (Hc : 0 <= 10 <= 100) by lia.
    destruct (H burn_world ember opening {| ailment := "burn"; ailment_chance := 10 |}
                eq_refl eq_refl (or_intror (or_introl eq_refl)) Hc)
      as (b' & t & Et & Eb & _ & _ & Hlt & _).
    exists b'. split; [exact Eb|]. apply Hlt.
    assert (E10 : fround (inject_Z 10 / 100)%Q
                  = Ffin (3602879701896397 # 36028797018963968))
      by (vm_compute; reflexivity).
    cbn [ailment_chance] in Et. rewrite E10 in Et. injection Et as <-. reflexivity.
  - eexists. split; [vm_compute; reflexivity|]. split; [cbn; tauto | reflexivity].
Defined.

End StatusFacts.
